(** * Left-leaning red-black tree nodes of the immutable sorted map

    A verification development for
    [Firestore/core/src/firebase/firestore/immutable/llrb_node.h].

    The file has two embeddings of the same code.

    - The value embedding (top level): an [LlrbNode] is the tree of [Rep]s
      reachable from it.  The setters of the source only ever run on a node
      that the running [insert] created itself, so they are written as
      functional updates of that node.
    - The store embedding ([Module Shared]): an [LlrbNode] is a
      [std::shared_ptr<Rep>], that is an address in a store of [Rep]s, the
      setters overwrite the [Rep] at an address, [Clone] and the [Rep]
      constructors allocate.  It is related to the value embedding by a
      representation predicate and a refinement theorem.

    [size_type] comes from [sorted_map_base.h], which is not part of the
    sources at hand.  The fields [color_ : 1] and [size_ : 31] fix all that
    matters here: a stored size is the assigned value modulo [2^31], and the
    sum [left.size() + 1 + right.size()] of two 31-bit values does not
    overflow an unsigned [size_type] of 32 bits or more before it is
    stored. *)

From stdpp Require Import base tactics option list sorting gmap strings.
From Stdlib Require Import ZArith Lia.

Local Open Scope Z_scope.

(** ** Colors and the 31-bit size field *)

(** [enum Color : unsigned int { Black, Red }] *)
Inductive Color : Type := Black | Red.

Global Instance Color_eq_dec : EqDecision Color.
Proof. solve_decision. Defined.

(** The width of the bitfield [size_type size_ : 31]. *)
Definition size_bits : Z := 31.

(** What a store into [size_] keeps of the value assigned to it. *)
Definition wrap31 (s : Z) : Z := s mod 2 ^ size_bits.

(** ** The value embedding *)

Section Node.

Context {K V : Type} `{Inhabited K, Inhabited V}.

(** The comparator argument of [insert]: [cmp a b] is "a sorts before b". *)
Variable cmp : K → K → bool.

(** A node together with everything reachable from it.  [EmptyNode] is the
    node whose [rep_] is the shared [EmptyRep()]. *)
Inductive LlrbNode : Type :=
  | EmptyNode
  | Node (entry_ : K * V) (color_ : Color) (size_ : Z) (left_ right_ : LlrbNode).

(** [LlrbNode() : LlrbNode{EmptyRep()}] *)
Definition LlrbNode_default : LlrbNode := EmptyNode.

(** The accessors.  On the sentinel they read the fields [EmptyRep] gave it:
    a value-initialised entry, [Color::Black], size 0 and itself as both
    children. *)
Definition size (n : LlrbNode) : Z :=
  match n with EmptyNode => 0 | Node _ _ s _ _ => s end.

Definition empty (n : LlrbNode) : bool := size n =? 0.

Definition color (n : LlrbNode) : Color :=
  match n with EmptyNode => Black | Node _ c _ _ _ => c end.

Definition red (n : LlrbNode) : bool :=
  match color n with Red => true | Black => false end.

Definition entry (n : LlrbNode) : K * V :=
  match n with EmptyNode => (inhabitant, inhabitant) | Node e _ _ _ _ => e end.

Definition key (n : LlrbNode) : K := fst (entry n).
Definition value (n : LlrbNode) : V := snd (entry n).

Definition left (n : LlrbNode) : LlrbNode :=
  match n with EmptyNode => EmptyNode | Node _ _ _ l _ => l end.

Definition right (n : LlrbNode) : LlrbNode :=
  match n with EmptyNode => EmptyNode | Node _ _ _ _ r => r end.

(** [Rep(entry, color, size, left, right)] and
    [Rep(entry, color, left, right)], each wrapped in a new node. *)
Definition Rep5 (e : K * V) (c : Color) (s : Z) (l r : LlrbNode) : LlrbNode :=
  Node e c (wrap31 s) l r.

Definition Rep4 (e : K * V) (c : Color) (l r : LlrbNode) : LlrbNode :=
  Node e c (wrap31 (size l + 1 + size r)) l r.

(** [Clone]: a new node with a copy of the [Rep], children shared. *)
Definition Clone (n : LlrbNode) : LlrbNode :=
  Node (entry n) (color n) (size n) (left n) (right n).

(** The setters, on a node private to the running call. *)
Definition set_size (n : LlrbNode) (s : Z) : LlrbNode :=
  Node (entry n) (color n) (wrap31 s) (left n) (right n).

Definition set_entry (n : LlrbNode) (e : K * V) : LlrbNode :=
  Node e (color n) (size n) (left n) (right n).

Definition set_value (n : LlrbNode) (v : V) : LlrbNode :=
  Node (key n, v) (color n) (size n) (left n) (right n).

Definition set_color (n : LlrbNode) (c : Color) : LlrbNode :=
  Node (entry n) c (size n) (left n) (right n).

Definition set_left (n l : LlrbNode) : LlrbNode :=
  Node (entry n) (color n) (size n) l (right n).

Definition set_right (n r : LlrbNode) : LlrbNode :=
  Node (entry n) (color n) (size n) (left n) r.

Definition OppositeColor (n : LlrbNode) : Color :=
  match color n with Red => Black | Black => Red end.

(** [RotateLeft]: the new left child is built first from the node's own
    entry, then the node takes over the entry and the right child of its
    right child. *)
Definition RotateLeft (n : LlrbNode) : LlrbNode :=
  let new_left := Rep4 (entry n) Red (left n) (left (right n)) in
  let n := set_entry n (entry (right n)) in
  let n := set_left n new_left in
  set_right n (right (right n)).

Definition RotateRight (n : LlrbNode) : LlrbNode :=
  let new_right := Rep4 (entry n) Red (right (left n)) (right n) in
  let n := set_entry n (entry (left n)) in
  let n := set_left n (left (left n)) in
  set_right n new_right.

Definition FlipColor (n : LlrbNode) : LlrbNode :=
  let new_left := set_color (Clone (left n)) (OppositeColor (left n)) in
  let new_right := set_color (Clone (right n)) (OppositeColor (right n)) in
  let n := set_color n (OppositeColor n) in
  let n := set_left n new_left in
  set_right n new_right.

Definition FixUp (n : LlrbNode) : LlrbNode :=
  let n := set_size n (size (left n) + 1 + size (right n)) in
  let n := if red (right n) && negb (red (left n)) then RotateLeft n else n in
  let n := if red (left n) && red (left (left n)) then RotateRight n else n in
  if red (left n) && red (right n) then FlipColor n else n.

(** [InnerInsert].  [result] is the clone of the receiver; its children are
    the receiver's, which is what the recursive calls descend into. *)
Fixpoint InnerInsert (n : LlrbNode) (k : K) (v : V) : LlrbNode :=
  match n with
  | EmptyNode => Rep4 (k, v) Red LlrbNode_default LlrbNode_default
  | Node e _ _ l r =>
      if empty n then Rep4 (k, v) Red LlrbNode_default LlrbNode_default
      else
        let result := Clone n in
        let this_key := fst e in
        let descending := cmp k this_key in
        if descending then
          FixUp (set_left result (InnerInsert l k v))
        else
          let ascending := cmp this_key k in
          if ascending then
            FixUp (set_right result (InnerInsert r k v))
          else
            set_value result v
  end.

Definition insert (n : LlrbNode) (k : K) (v : V) : LlrbNode :=
  let root := InnerInsert n k v in
  if red root then set_color root Black else root.

(** A run of inserts from the empty node, oldest first. *)
Definition insert_all (kvs : list (K * V)) : LlrbNode :=
  fold_left (λ t kv, insert t kv.1 kv.2) kvs LlrbNode_default.

End Node.

Arguments LlrbNode : clear implicits.
Arguments EmptyNode {K V}.
Arguments Node {K V} _ _ _ _ _.
Arguments LlrbNode_default {K V}.

(** ** What is observed of a tree *)

Section Observations.

Context {K V : Type}.

(** The entries of every [Rep] below a node, left subtree first, then the
    node, then the right subtree; the shared sentinel contributes none. *)
Fixpoint entries (n : LlrbNode K V) : list (K * V) :=
  match n with
  | EmptyNode => []
  | Node e _ _ l r => entries l ++ e :: entries r
  end.

(** Modelled from the spec: the traversal component
    ([llrb_node_iterator.h]) is not among the sources.  It walks left, self,
    right with the accessors of the node and stops its descent at a node
    that reports [empty()], that is a node whose size field reads 0. *)
Fixpoint inorder (n : LlrbNode K V) : list (K * V) :=
  match n with
  | EmptyNode => []
  | Node e _ s l r => if s =? 0 then [] else inorder l ++ e :: inorder r
  end.

(** The number of entries below a node, whatever the size fields say. *)
Fixpoint count (n : LlrbNode K V) : Z :=
  match n with
  | EmptyNode => 0
  | Node _ _ _ l r => count l + 1 + count r
  end.

Fixpoint height (n : LlrbNode K V) : nat :=
  match n with
  | EmptyNode => O
  | Node _ _ _ l r => S (Nat.max (height l) (height r))
  end.

(** [P] holds of every node below [n], the sentinel apart. *)
Fixpoint Forall_nodes (P : LlrbNode K V → Prop) (n : LlrbNode K V) : Prop :=
  match n with
  | EmptyNode => True
  | Node _ _ _ l r => P n ∧ Forall_nodes P l ∧ Forall_nodes P r
  end.

(** The five invariants of the data model. *)

(** The root is Black. *)
Definition root_black (n : LlrbNode K V) : Prop := color n = Black.

(** No Red node has a Red right child. *)
Definition no_red_right (n : LlrbNode K V) : Prop :=
  Forall_nodes (λ x, red x = true → red (right x) = false) n.

(** No two consecutive Red nodes on a left-descending chain. *)
Definition no_red_left (n : LlrbNode K V) : Prop :=
  Forall_nodes (λ x, red x = true → red (left x) = false) n.

(** The stronger form the data model asks of a finished insert: every red
    link leans left, no right child is Red. *)
Definition left_leaning (n : LlrbNode K V) : Prop :=
  Forall_nodes (λ x, red (right x) = false) n.

(** The number of Black nodes on each path from [n] down to a sentinel,
    one number per path. *)
Fixpoint path_blacks (n : LlrbNode K V) : list nat :=
  match n with
  | EmptyNode => [O]
  | Node _ c _ l r =>
      let b := match c with Black => 1%nat | Red => O end in
      map (λ x, (x + b)%nat) (path_blacks l ++ path_blacks r)
  end.

Definition black_balanced (n : LlrbNode K V) : Prop :=
  ∀ b1 b2, b1 ∈ path_blacks n → b2 ∈ path_blacks n → b1 = b2.

(** At every node [size] is [1 + left.size + right.size]. *)
Definition size_ok (n : LlrbNode K V) : Prop :=
  Forall_nodes (λ x, size x = 1 + size (left x) + size (right x)) n.

Definition red_black_invariants (n : LlrbNode K V) : Prop :=
  root_black n ∧ no_red_right n ∧ no_red_left n ∧ black_balanced n ∧ size_ok n.

(** The tree without its values: shape, keys, colors and sizes. *)
Fixpoint skeleton (n : LlrbNode K V) : LlrbNode K unit :=
  match n with
  | EmptyNode => EmptyNode
  | Node e c s l r => Node (e.1, tt) c s (skeleton l) (skeleton r)
  end.

(** Keys strictly ascending along a list of entries: each key sorts before
    every later one. *)
Definition ascending (cmp : K → K → bool) (es : list (K * V)) : Prop :=
  StronglySorted (λ a b, cmp a.1 b.1 = true) es.

(** Two keys neither of which sorts before the other. *)
Definition equivalent (cmp : K → K → bool) (a b : K) : bool :=
  negb (cmp a b) && negb (cmp b a).

(** What an insert-or-update does to a sorted list of entries. *)
Fixpoint list_insert (cmp : K → K → bool) (k : K) (v : V) (es : list (K * V))
    : list (K * V) :=
  match es with
  | [] => [(k, v)]
  | e :: es' =>
      if cmp k e.1 then (k, v) :: e :: es'
      else if cmp e.1 k then e :: list_insert cmp k v es'
      else (e.1, v) :: es'
  end.

End Observations.

(** A comparator as the callers are asked to supply it.  Every strict total
    order is one; keys that are equivalent without being equal are
    allowed. *)
Record StrictOrder {K : Type} (cmp : K → K → bool) : Prop := {
  cmp_irrefl : ∀ a, cmp a a = false;
  cmp_trans : ∀ a b c, cmp a b = true → cmp b c = true → cmp a c = true;
  cmp_split : ∀ a b c, cmp a b = true → cmp a c = true ∨ cmp c b = true
}.

(** A strict total order in the narrow sense: distinct keys are ordered. *)
Record StrictTotalOrder {K : Type} (cmp : K → K → bool) : Prop := {
  sto_irrefl : ∀ a, cmp a a = false;
  sto_trans : ∀ a b c, cmp a b = true → cmp b c = true → cmp a c = true;
  sto_total : ∀ a b, cmp a b = false → cmp b a = false → a = b
}.

(** ** Invariants that the proofs carry along *)

Section Shapes.

Context {K V : Type}.

(** A left-leaning red-black tree of black height [h] whose root may have
    either color: right children are Black, and a Red node has Black
    children. *)
Inductive llrb : LlrbNode K V → nat → Prop :=
  | llrb_empty : llrb EmptyNode O
  | llrb_black e s l r h :
      llrb l h → llrb r h → red r = false → llrb (Node e Black s l r) (S h)
  | llrb_red e s l r h :
      llrb l h → llrb r h → red l = false → red r = false →
      llrb (Node e Red s l r) h.

(** What [InnerInsert] hands to its caller: as [llrb], but a Red root may
    have a Red left child. *)
Definition almost (n : LlrbNode K V) (h : nat) : Prop :=
  match n with
  | Node _ Red _ l r => llrb l h ∧ llrb r h ∧ red r = false
  | _ => llrb n h
  end.

(** Sizes exact below the root, and the root's size field the entry count
    as the 31-bit field keeps it. *)
Definition wsized (n : LlrbNode K V) : Prop :=
  size n = wrap31 (count n) ∧ size_ok (left n) ∧ size_ok (right n) ∧
  count n ≤ 2 ^ size_bits.

(** What holds of every tree a run of inserts returns. *)
Definition reachable (n : LlrbNode K V) : Prop :=
  wsized n ∧ ∃ h, llrb n h ∧ red n = false.

End Shapes.

(** The entries with keys [0 .. n - 1] and no value to speak of, in
    ascending order: a run of inserts that meets no key twice. *)
Definition ascending_run (n : nat) : list (Z * unit) :=
  map (λ i, (Z.of_nat i, tt)) (seq 0 n).

(** What the 31-bit field reports of the entry count below a node. *)
Definition size_reports_count {K V : Type} (x : LlrbNode K V) : Prop :=
  0 ≤ size x < 2 ^ size_bits ∧
  size x = count x mod 2 ^ size_bits ∧
  (size x = count x ↔ count x < 2 ^ size_bits).

(** ** The calls made during an insert

    The value embedding again, with a log of the calls of [FixUp] and of the
    three transformations in the order in which they are made. *)

Inductive Call : Type :=
  CallFixUp | CallRotateLeft | CallRotateRight | CallFlipColor.

Global Instance Call_eq_dec : EqDecision Call.
Proof. solve_decision. Defined.

Section Logged.

Context {K V : Type} `{Inhabited K, Inhabited V}.
Variable cmp : K → K → bool.

Definition FixUp_log (n : LlrbNode K V) : LlrbNode K V * list Call :=
  let n := set_size n (size (left n) + 1 + size (right n)) in
  let '(n, log1) :=
    if red (right n) && negb (red (left n))
    then (RotateLeft n, [CallRotateLeft]) else (n, []) in
  let '(n, log2) :=
    if red (left n) && red (left (left n))
    then (RotateRight n, [CallRotateRight]) else (n, []) in
  let '(n, log3) :=
    if red (left n) && red (right n)
    then (FlipColor n, [CallFlipColor]) else (n, []) in
  (n, CallFixUp :: log1 ++ log2 ++ log3).

Fixpoint InnerInsert_log (n : LlrbNode K V) (k : K) (v : V)
    : LlrbNode K V * list Call :=
  match n with
  | EmptyNode => (Rep4 (k, v) Red LlrbNode_default LlrbNode_default, [])
  | Node e _ _ l r =>
      if empty n then (Rep4 (k, v) Red LlrbNode_default LlrbNode_default, [])
      else
        let result := Clone n in
        let this_key := fst e in
        let descending := cmp k this_key in
        if descending then
          let '(l', log) := InnerInsert_log l k v in
          let '(result, log') := FixUp_log (set_left result l') in
          (result, log ++ log')
        else
          let ascending := cmp this_key k in
          if ascending then
            let '(r', log) := InnerInsert_log r k v in
            let '(result, log') := FixUp_log (set_right result r') in
            (result, log ++ log')
          else
            (set_value result v, [])
  end.

End Logged.

(** The three guarded steps of [FixUp], one by one. *)
Section Steps.

Context {K V : Type} `{Inhabited K, Inhabited V}.

Definition rotate_left_if_needed (n : LlrbNode K V) : LlrbNode K V :=
  if red (right n) && negb (red (left n)) then RotateLeft n else n.

Definition rotate_right_if_needed (n : LlrbNode K V) : LlrbNode K V :=
  if red (left n) && red (left (left n)) then RotateRight n else n.

Definition flip_color_if_needed (n : LlrbNode K V) : LlrbNode K V :=
  if red (left n) && red (right n) then FlipColor n else n.

End Steps.

(** ** The store embedding

    Nodes as the source has them: an [LlrbNode] is a [std::shared_ptr<Rep>],
    here the address of a [Rep] in a store; the children of a [Rep] are
    addresses; setters overwrite the [Rep] at an address; [Clone] and the
    constructors from a [Rep] allocate ([std::make_shared]).  Reference counts
    are left out: no [Rep] is ever freed in the model. *)

Module Shared.

Abbreviation addr := positive (only parsing).

Section Store.

Context {K V : Type} `{Inhabited K, Inhabited V}.

(** [struct Rep] *)
Record Rep : Type := mkRep {
  entry_ : K * V;
  color_ : Color;
  size_ : Z;
  left_ : addr;
  right_ : addr
}.

(** The [Rep]s allocated so far, and the function-local static
    [empty_rep] of [EmptyRep()], unset until the first call. *)
Record store : Type := mkStore {
  reps : gmap positive Rep;
  empty_rep : option addr
}.

(** Code that reads and writes the store; [None] is a read through a
    pointer to nothing, or a recursion cut short by its fuel. *)
Definition M (A : Type) : Type := store → option (A * store).

Global Instance M_ret : MRet M := λ A a σ, Some (a, σ).

Global Instance M_bind : MBind M := λ A B f m σ,
  match m σ with
  | Some (a, σ') => f a σ'
  | None => None
  end.

(** [std::make_shared<Rep>(rep)] *)
Definition make_shared (r : Rep) : M addr := λ σ,
  let p := fresh (dom (reps σ)) in
  Some (p, mkStore (<[p := r]> (reps σ)) (empty_rep σ)).

(** [*rep_] read, and a field of [*rep_] assigned. *)
Definition load (p : addr) : M Rep := λ σ,
  match reps σ !! p with
  | Some r => Some (r, σ)
  | None => None
  end.

Definition modify (p : addr) (f : Rep → Rep) : M unit := λ σ,
  match reps σ !! p with
  | Some r => Some (tt, mkStore (<[p := f r]> (reps σ)) (empty_rep σ))
  | None => None
  end.

(** [EmptyRep()]: the first call makes the [Rep] and points its two children
    at itself; every later call returns the same pointer. *)
Definition EmptyRep : M addr := λ σ,
  match empty_rep σ with
  | Some e => Some (e, σ)
  | None =>
      let e := fresh (dom (reps σ)) in
      let empty := mkRep (inhabitant, inhabitant) Black (wrap31 0) e e in
      Some (e, mkStore (<[e := empty]> (reps σ)) (Some e))
  end.

(** [LlrbNode() : LlrbNode{EmptyRep()}] *)
Definition LlrbNode_default : M addr := EmptyRep.

Definition size (this : addr) : M Z := r ← load this; mret (size_ r).

Definition empty (this : addr) : M bool := s ← size this; mret (s =? 0).

Definition color (this : addr) : M Color := r ← load this; mret (color_ r).

Definition red (this : addr) : M bool :=
  c ← color this; mret (match c with Red => true | Black => false end).

Definition entry (this : addr) : M (K * V) := r ← load this; mret (entry_ r).

Definition key (this : addr) : M K := e ← entry this; mret e.1.

Definition value (this : addr) : M V := e ← entry this; mret e.2.

Definition left (this : addr) : M addr := r ← load this; mret (left_ r).

Definition right (this : addr) : M addr := r ← load this; mret (right_ r).

(** [LlrbNode{Rep{entry, color, left, right}}] *)
Definition new_Rep4 (e : K * V) (c : Color) (l r : addr) : M addr :=
  sl ← size l; sr ← size r;
  make_shared (mkRep e c (wrap31 (sl + 1 + sr)) l r).

Definition Clone (this : addr) : M addr := r ← load this; make_shared r.

Definition set_size (this : addr) (s : Z) : M unit :=
  modify this (λ r, mkRep (entry_ r) (color_ r) (wrap31 s) (left_ r) (right_ r)).

Definition set_entry (this : addr) (e : K * V) : M unit :=
  modify this (λ r, mkRep e (color_ r) (size_ r) (left_ r) (right_ r)).

Definition set_value (this : addr) (v : V) : M unit :=
  modify this (λ r, mkRep ((entry_ r).1, v) (color_ r) (size_ r) (left_ r) (right_ r)).

Definition set_color (this : addr) (c : Color) : M unit :=
  modify this (λ r, mkRep (entry_ r) c (size_ r) (left_ r) (right_ r)).

Definition set_left (this l : addr) : M unit :=
  modify this (λ r, mkRep (entry_ r) (color_ r) (size_ r) l (right_ r)).

Definition set_right (this r' : addr) : M unit :=
  modify this (λ r, mkRep (entry_ r) (color_ r) (size_ r) (left_ r) r').

Definition OppositeColor (this : addr) : M Color :=
  c ← color this; mret (match c with Red => Black | Black => Red end).

Definition RotateLeft (this : addr) : M unit :=
  e ← entry this; l ← left this; r ← right this; rl ← left r;
  new_left ← new_Rep4 e Red l rl;
  r ← right this; re ← entry r; set_entry this re;;
  set_left this new_left;;
  r ← right this; rr ← right r; set_right this rr.

Definition RotateRight (this : addr) : M unit :=
  e ← entry this; l ← left this; lr ← right l; r ← right this;
  new_right ← new_Rep4 e Red lr r;
  l ← left this; le ← entry l; set_entry this le;;
  l ← left this; ll ← left l; set_left this ll;;
  set_right this new_right.

Definition FlipColor (this : addr) : M unit :=
  l ← left this; new_left ← Clone l;
  l ← left this; c ← OppositeColor l; set_color new_left c;;
  r ← right this; new_right ← Clone r;
  r ← right this; c ← OppositeColor r; set_color new_right c;;
  c ← OppositeColor this; set_color this c;;
  set_left this new_left;;
  set_right this new_right.

Definition FixUp (this : addr) : M unit :=
  l ← left this; sl ← size l; r ← right this; sr ← size r;
  set_size this (sl + 1 + sr);;
  r ← right this; r_red ← red r; l ← left this; l_red ← red l;
  (if r_red && negb l_red then RotateLeft this else mret tt);;
  l ← left this; l_red ← red l; ll ← left l; ll_red ← red ll;
  (if l_red && ll_red then RotateRight this else mret tt);;
  l ← left this; l_red ← red l; r ← right this; r_red ← red r;
  (if l_red && r_red then FlipColor this else mret tt).

Variable cmp : K → K → bool.

(** [InnerInsert]; the recursion follows pointers, [fuel] bounds its
    depth. *)
Fixpoint InnerInsert (fuel : nat) (this : addr) (k : K) (v : V) : M addr :=
  match fuel with
  | O => λ _, None
  | S fuel =>
      is_empty ← empty this;
      if (is_empty : bool) then
        l ← LlrbNode_default; r ← LlrbNode_default;
        new_Rep4 (k, v) Red l r
      else
        result ← Clone this;
        this_key ← key this;
        let descending := cmp k this_key in
        if descending then
          l ← left result; l' ← InnerInsert fuel l k v;
          set_left result l';;
          FixUp result;;
          mret result
        else
          let ascending := cmp this_key k in
          if ascending then
            r ← right result; r' ← InnerInsert fuel r k v;
            set_right result r';;
            FixUp result;;
            mret result
          else
            set_value result v;;
            mret result
  end.

Definition insert (fuel : nat) (this : addr) (k : K) (v : V) : M addr :=
  root ← InnerInsert fuel this k v;
  root_red ← red root;
  (if (root_red : bool) then set_color root Black else mret tt);;
  mret root.

(** Modelled from the spec: the traversal component
    ([llrb_node_iterator.h]) is not among the sources.  Left, self, right
    through the accessors, ending the descent at a node that reports
    [empty()]. *)
Fixpoint inorder (fuel : nat) (this : addr) : M (list (K * V)) :=
  match fuel with
  | O => λ _, None
  | S fuel =>
      is_empty ← empty this;
      if (is_empty : bool) then mret []
      else
        l ← left this; ls ← inorder fuel l;
        e ← entry this;
        r ← right this; rs ← inorder fuel r;
        mret (ls ++ e :: rs)
  end.

End Store.

End Shared.

(** ** The store and the value embedding side by side *)

Section Representation.

Context {K V : Type} `{Inhabited K, Inhabited V}.

(** The store before anything ran. *)
Definition initial : Shared.store (K:=K) (V:=V) := Shared.mkStore ∅ None.

(** The [Rep] behind the empty node, at address [e]. *)
Definition sentinel (e : positive) : Shared.Rep (K:=K) (V:=V) :=
  Shared.mkRep (inhabitant, inhabitant) Black 0 e e.

(** [EmptyRep()] has been called and its [Rep] is as it made it. *)
Definition store_ok (σ : Shared.store (K:=K) (V:=V)) : Prop :=
  ∃ e, Shared.empty_rep σ = Some e ∧ Shared.reps σ !! e = Some (sentinel e).

(** The tree of the value embedding that the store holds at an address,
    with every [Rep] of it other than the sentinel at an address in [D]. *)
Inductive repr (D : gset positive) (σ : Shared.store)
    : positive → LlrbNode K V → Prop :=
  | repr_empty a : Shared.empty_rep σ = Some a → repr D σ a EmptyNode
  | repr_node a e c s al ar l r :
      Shared.empty_rep σ ≠ Some a → a ∈ D →
      Shared.reps σ !! a = Some (Shared.mkRep e c s al ar) →
      repr D σ al l → repr D σ ar r →
      repr D σ a (Node e c s l r).

(** A node of the running call that no tree holds yet: its [Rep] is at
    [p], outside [D], and its children are trees within [D]. *)
Definition private (D : gset positive) (σ : Shared.store) (p : positive)
    (m : LlrbNode K V) : Prop :=
  store_ok σ ∧ D ⊆ dom (Shared.reps σ) ∧
  Shared.empty_rep σ ≠ Some p ∧ (p ∉ D) ∧ m ≠ EmptyNode ∧
  (∃ al ar,
     Shared.reps σ !! p
       = Some (Shared.mkRep (entry m) (color m) (size m) al ar) ∧
     repr D σ al (left m) ∧ repr D σ ar (right m)).

(** Every [Rep] of [σ] is in [σ'] as it was. *)
Definition unchanged (σ σ' : Shared.store (K:=K) (V:=V)) : Prop :=
  Shared.empty_rep σ' = Shared.empty_rep σ ∧
  ∀ p r, Shared.reps σ !! p = Some r → Shared.reps σ' !! p = Some r.

(** The same, the [Rep] at [q] apart. *)
Definition unchanged_but (q : positive)
    (σ σ' : Shared.store (K:=K) (V:=V)) : Prop :=
  Shared.empty_rep σ' = Shared.empty_rep σ ∧
  dom (Shared.reps σ) ⊆ dom (Shared.reps σ') ∧
  ∀ p, p ≠ q → p ∈ dom (Shared.reps σ) →
       Shared.reps σ' !! p = Shared.reps σ !! p.

End Representation.

Section Refinement.

Context {K V : Type} `{Inhabited K, Inhabited V}.

(** The [Rep] at [a] has the fields the accessors of the value embedding
    read at the root of [n], and its children are trees within [D]. *)
Definition root_at (D : gset positive) (σ : Shared.store) (a : positive)
    (n : LlrbNode K V) : Prop :=
  ∃ al ar,
    Shared.reps σ !! a = Some (Shared.mkRep (entry n) (color n) (size n) al ar) ∧
    repr D σ al (left n) ∧ repr D σ ar (right n).

(** The outcome of a step of the store embedding on the private node [p]:
    it ran, [p] is still private and now holds [m'], the trees it may point
    into are those of before and [Rep]s allocated since, and no [Rep] other
    than the one at [p] has changed. *)
Definition step_ok (D : gset positive) (σ : Shared.store) (p : positive)
    (res : option (unit * Shared.store)) (m' : LlrbNode K V) : Prop :=
  ∃ σ' D',
    res = Some (tt, σ') ∧ private D' σ' p m' ∧ D ⊆ D' ∧
    D' ⊆ D ∪ (dom (Shared.reps σ') ∖ dom (Shared.reps σ)) ∧
    unchanged_but p σ σ'.

(** A method of the store embedding does to a private node what the
    function [f] of the value embedding does to its value. *)
Definition refines (op : positive → Shared.M unit)
    (f : LlrbNode K V → LlrbNode K V) : Prop :=
  ∀ D σ p m, private D σ p m → step_ok D σ p (op p σ) (f m).

End Refinement.

Section Descent.

Context {K V : Type} `{Inhabited K, Inhabited V}.

(** A walk down from a node through [left()] ([false]) and [right()]
    ([true]). *)
Fixpoint descend (path : list bool) (this : positive)
    : Shared.M (K:=K) (V:=V) positive :=
  match path with
  | [] => mret this
  | go_right :: path =>
      child ← (if (go_right : bool) then Shared.right this else Shared.left this);
      descend path child
  end.

Fixpoint descend_value (path : list bool) (n : LlrbNode K V) : LlrbNode K V :=
  match path with
  | [] => n
  | go_right :: path =>
      descend_value path (if (go_right : bool) then right n else left n)
  end.

End Descent.

(** ** The scenarios of the specification, as data *)

(** Scenario A: the keys 5, 3, 8, 1, 4, 7, 9 inserted in this order, under
    the order of the integers. *)
Definition scenario_A_inserts : list (Z * string) :=
  [(5, "e"); (3, "c"); (8, "h"); (1, "a"); (4, "d"); (7, "g"); (9, "i")]%string.

Definition scenario_A : LlrbNode Z string := insert_all Z.ltb scenario_A_inserts.

(** The same run in the store, from the store in which nothing has run
    yet: the address of the root, and the store. *)
Definition scenario_A_run : option (positive * Shared.store (K:=Z) (V:=string)) :=
  (e ← Shared.EmptyRep;
   foldl (λ (acc : Shared.M positive) kv,
            t ← acc; Shared.insert Z.ltb 8 t kv.1 kv.2)
         (mret e) scenario_A_inserts) initial.

Definition scenario_A_root : positive :=
  match scenario_A_run with Some (a, _) => a | None => 1%positive end.

Definition scenario_A_store : Shared.store (K:=Z) (V:=string) :=
  match scenario_A_run with Some (_, σ) => σ | None => initial end.

(** The store right after the first call of [EmptyRep()], and the address
    of the empty node in it. *)
Definition first_EmptyRep : option (positive * Shared.store (K:=Z) (V:=string)) :=
  Shared.EmptyRep initial.

Definition empty_node_addr : positive :=
  match first_EmptyRep with Some (e, _) => e | None => 1%positive end.

Definition empty_node_store : Shared.store (K:=Z) (V:=string) :=
  match first_EmptyRep with Some (_, σ) => σ | None => initial end.

(** A node with a Red right child, and a node with a Red left child. *)
Definition leaning_right : LlrbNode Z string :=
  Node (1, "a"%string) Black 2
    EmptyNode (Node (2, "b"%string) Red 1 EmptyNode EmptyNode).

Definition leaning_left : LlrbNode Z string :=
  Node (2, "b"%string) Black 2
    (Node (1, "a"%string) Red 1 EmptyNode EmptyNode) EmptyNode.

(** A store in which the node [leaning_right] sits at address 3 and no tree
    holds it yet: the empty node at 1, the Red right child at 2. *)
Definition leaning_right_store : Shared.store (K:=Z) (V:=string) :=
  Shared.mkStore
    (list_to_map
       [(1%positive, sentinel 1);
        (2%positive, Shared.mkRep (2, "b"%string) Red 1 1%positive 1%positive);
        (3%positive, Shared.mkRep (1, "a"%string) Black 2 1%positive 2%positive)])
    (Some 1%positive).

(** ** Allocation counts

    A computation on the store allocates at most [c] [Rep]s: run from a
    store in which [EmptyRep()] has been called, it ends in a store with at
    most [c] more [Rep]s, in which [EmptyRep()] has still been called. *)
Definition allocates {K V : Type} `{Inhabited K, Inhabited V} {A : Type}
    (c : nat) (m : Shared.M (K:=K) (V:=V) A) : Prop :=
  ∀ σ x σ', is_Some (Shared.empty_rep σ) → m σ = Some (x, σ') →
    is_Some (Shared.empty_rep σ') ∧
    (base.size (dom (Shared.reps σ')) ≤ base.size (dom (Shared.reps σ)) + c)%nat.

(** Whatever [m] returns, [m'] returns as well. *)
Definition extends {K V : Type} `{Inhabited K, Inhabited V} {A : Type}
    (m m' : Shared.M (K:=K) (V:=V) A) : Prop :=
  ∀ σ r, m σ = Some r → m' σ = Some r.

(** * Properties *)

Arguments wrap31 : simpl never.

Lemma modulus_value : 2 ^ size_bits = 2147483648.
Proof. reflexivity. Qed.

Lemma wrap31_small s : 0 ≤ s < 2 ^ size_bits → wrap31 s = s.
Proof. intros. unfold wrap31. by apply Z.mod_small. Qed.

Lemma wrap31_range s : 0 ≤ wrap31 s < 2 ^ size_bits.
Proof. unfold wrap31. apply Z.mod_pos_bound. by rewrite modulus_value. Qed.

Lemma wrap31_modulus : wrap31 (2 ^ size_bits) = 0.
Proof. reflexivity. Qed.

(** ** Counts, sizes and the traversal *)

Section Basics.

Context {K V : Type} `{Inhabited K, Inhabited V}.

Implicit Types n l r : LlrbNode K V.

Lemma count_nonneg n : 0 ≤ count n.
Proof. induction n; simpl; lia. Qed.

Lemma count_entries n : count n = Z.of_nat (length (entries n)).
Proof.
  induction n as [|e c s l IHl r IHr]; simpl; [done|].
  rewrite length_app. simpl. lia.
Qed.

Lemma size_ok_count n : size_ok n → size n = count n.
Proof.
  induction n as [|e c s l IHl r IHr]; [done|].
  intros (Hs & Hl & Hr). simpl in *. rewrite Hs, IHl, IHr by done. lia.
Qed.

Lemma size_ok_nonempty e c s l r :
  size_ok (Node e c s l r) → empty (Node e c s l r) = false.
Proof.
  intros Hok. apply size_ok_count in Hok. unfold empty. simpl in *.
  pose proof (count_nonneg l). pose proof (count_nonneg r). lia.
Qed.

Lemma size_ok_inorder n : size_ok n → inorder n = entries n.
Proof.
  induction n as [|e c s l IHl r IHr]; [done|].
  intros Hok. pose proof (size_ok_nonempty _ _ _ _ _ Hok) as Hne.
  destruct Hok as (_ & Hl & Hr). unfold empty in Hne. simpl in *.
  rewrite Hne, IHl, IHr; done.
Qed.

Lemma inorder_sublist n : inorder n `sublist_of` entries n.
Proof.
  induction n as [|e c s l IHl r IHr]; simpl; [done|].
  destruct (s =? 0); [apply sublist_nil_l|].
  apply sublist_app; [done|]. by apply sublist_skip.
Qed.

Lemma red_true_node n :
  red n = true → ∃ e s l r, n = Node e Red s l r.
Proof. destruct n as [|e [] s l r]; try done. eauto. Qed.

End Basics.

(** ** The transformations keep entries and sizes *)

Section Rebalance.
Context {K V : Type} `{Inhabited K, Inhabited V}.
Implicit Types n m l r : LlrbNode K V.

(** [FixUp] is the size update followed by the three guarded steps: a
    property that holds after the size update and survives each step where
    its guard holds, holds of the result. *)
Lemma FixUp_ind (P : LlrbNode K V → Prop) n :
  P (set_size n (size (left n) + 1 + size (right n))) →
  (∀ m, P m → red (right m) = true → red (left m) = false → P (RotateLeft m)) →
  (∀ m, P m → red (left m) = true → red (left (left m)) = true →
        P (RotateRight m)) →
  (∀ m, P m → red (left m) = true → red (right m) = true → P (FlipColor m)) →
  P (FixUp n).
Proof.
  intros HS HL HR HF. unfold FixUp.
  set (n0 := set_size n _) in *.
  set (n1 := if red (right n0) && negb (red (left n0)) then RotateLeft n0 else n0).
  assert (P n1) as H1.
  { subst n1. destruct (red (right n0)) eqn:E1, (red (left n0)) eqn:E2; simpl; auto. }
  clearbody n1.
  set (n2 := if red (left n1) && red (left (left n1)) then RotateRight n1 else n1).
  assert (P n2) as H2.
  { subst n2. destruct (red (left n1)) eqn:E1, (red (left (left n1))) eqn:E2; simpl; auto. }
  clearbody n2.
  destruct (red (left n2)) eqn:E1, (red (right n2)) eqn:E2; simpl; auto.
Qed.

Lemma entries_RotateLeft m :
  m ≠ EmptyNode → red (right m) = true → entries (RotateLeft m) = entries m.
Proof.
  intros Hm (e' & s' & l' & r' & Hr)%red_true_node.
  destruct m as [|e c s l r]; [done|]. simpl in Hr. subst r.
  cbn. by rewrite <- app_assoc.
Qed.

Lemma entries_RotateRight m :
  m ≠ EmptyNode → red (left m) = true → entries (RotateRight m) = entries m.
Proof.
  intros Hm (e' & s' & l' & r' & Hl)%red_true_node.
  destruct m as [|e c s l r]; [done|]. simpl in Hl. subst l.
  cbn. by rewrite <- app_assoc.
Qed.

Lemma entries_FlipColor m :
  m ≠ EmptyNode → red (left m) = true → red (right m) = true →
  entries (FlipColor m) = entries m.
Proof.
  intros Hm (e1 & s1 & l1 & r1 & Hl)%red_true_node
    (e2 & s2 & l2 & r2 & Hr)%red_true_node.
  destruct m as [|e c s l r]; [done|]. simpl in Hl, Hr. by subst l r.
Qed.

Lemma entries_FixUp e c s l r :
  entries (FixUp (Node e c s l r)) = entries (Node e c s l r).
Proof.
  apply (FixUp_ind (λ m, m ≠ EmptyNode ∧ entries m = entries (Node e c s l r))).
  - done.
  - intros m [Hm <-] Hr _. split; [done|]. by apply entries_RotateLeft.
  - intros m [Hm <-] Hl _. split; [done|]. by apply entries_RotateRight.
  - intros m [Hm <-] Hl Hr. split; [done|]. by apply entries_FlipColor.
Qed.

Lemma count_FixUp e c s l r :
  count (FixUp (Node e c s l r)) = count l + 1 + count r.
Proof. rewrite !count_entries, entries_FixUp. simpl. rewrite !length_app. simpl. lia. Qed.

Lemma size_ok_node e c s l r :
  size_ok (Node e c s l r) ↔ s = 1 + size l + size r ∧ size_ok l ∧ size_ok r.
Proof. done. Qed.

Lemma wsized_node e c s l r :
  wsized (Node e c s l r) ↔
  s = wrap31 (count l + 1 + count r) ∧ size_ok l ∧ size_ok r ∧
  count l + 1 + count r ≤ 2 ^ size_bits.
Proof. done. Qed.

Lemma wsized_RotateLeft m :
  m ≠ EmptyNode → wsized m → red (right m) = true → wsized (RotateLeft m).
Proof.
  intros Hm Hw (e' & s' & l' & r' & Hr)%red_true_node.
  destruct m as [|e c s l r]; [done|]. simpl in Hr. subst r.
  apply wsized_node in Hw as (Hs & Hl & (Hs' & Hl' & Hr')%size_ok_node & Hb).
  cbn in Hs, Hb. unfold RotateLeft. cbn.
  pose proof (count_nonneg l). pose proof (count_nonneg l'). pose proof (count_nonneg r').
  unfold wsized; cbn; rewrite ?(size_ok_count l), ?(size_ok_count l') by done.
  split_and!; try done; try lia.
  - rewrite Hs. f_equal. lia.
  - rewrite wrap31_small; lia.
Qed.

Lemma wsized_RotateRight m :
  m ≠ EmptyNode → wsized m → red (left m) = true → wsized (RotateRight m).
Proof.
  intros Hm Hw (e' & s' & l' & r' & Hl)%red_true_node.
  destruct m as [|e c s l r]; [done|]. simpl in Hl. subst l.
  apply wsized_node in Hw as (Hs & (Hs' & Hl' & Hr')%size_ok_node & Hr & Hb).
  cbn in Hs, Hb. unfold RotateRight. cbn.
  pose proof (count_nonneg r). pose proof (count_nonneg l'). pose proof (count_nonneg r').
  unfold wsized; cbn; rewrite ?(size_ok_count r), ?(size_ok_count r') by done.
  split_and!; try done; try lia.
  - rewrite Hs. f_equal. lia.
  - rewrite wrap31_small; lia.
Qed.

Lemma wsized_FlipColor m :
  m ≠ EmptyNode → wsized m → red (left m) = true → red (right m) = true →
  wsized (FlipColor m).
Proof.
  intros Hm Hw (e1 & s1 & l1 & r1 & Hl)%red_true_node
    (e2 & s2 & l2 & r2 & Hr)%red_true_node.
  destruct m as [|e c s l r]; [done|]. simpl in Hl, Hr. by subst l r.
Qed.

Lemma wsized_FixUp e c s l r :
  size_ok l → size_ok r → count l + 1 + count r ≤ 2 ^ size_bits →
  wsized (FixUp (Node e c s l r)).
Proof.
  intros Hl Hr Hb.
  apply (FixUp_ind (λ m, m ≠ EmptyNode ∧ wsized m)).
  - split; [done|]. apply wsized_node. cbn.
    by rewrite (size_ok_count l), (size_ok_count r).
  - intros m [Hm Hw] ? _. split; [done|]. by apply wsized_RotateLeft.
  - intros m [Hm Hw] ? _. split; [done|]. by apply wsized_RotateRight.
  - intros m [Hm Hw] ? ?. split; [done|]. by apply wsized_FlipColor.
Qed.

Lemma wsized_size_ok n : wsized n → count n < 2 ^ size_bits → size_ok n.
Proof.
  destruct n as [|e c s l r]; [done|].
  intros (Hs & Hl & Hr & _)%wsized_node Hb. cbn in Hb.
  apply size_ok_node. split_and!; try done.
  pose proof (count_nonneg l). pose proof (count_nonneg r).
  rewrite Hs, wrap31_small, (size_ok_count l), (size_ok_count r) by (done || lia). lia.
Qed.

Lemma size_ok_wsized n : size_ok n → count n < 2 ^ size_bits → wsized n.
Proof.
  destruct n as [|e c s l r]; [done|].
  intros Hok Hb. pose proof (size_ok_count _ Hok) as Hs.
  destruct Hok as (_ & Hl & Hr). cbn in *.
  pose proof (count_nonneg l). pose proof (count_nonneg r).
  apply wsized_node. split_and!; try done; [|lia].
  rewrite wrap31_small; lia.
Qed.

End Rebalance.

(** ** Sizes along an insert *)

Section InsertSizes.

Context {K V : Type} `{Inhabited K, Inhabited V}.
Variable cmp : K → K → bool.
Implicit Types n m l r : LlrbNode K V.

Lemma leaf_wsized (k : K) (v : V) :
  wsized (Rep4 (k, v) Red LlrbNode_default LlrbNode_default).
Proof. unfold wsized. cbn. split_and!; try done. Qed.

Lemma FixUp_node n : FixUp n ≠ EmptyNode.
Proof. apply (FixUp_ind (λ m, m ≠ EmptyNode)); done. Qed.

Lemma InnerInsert_node n k v : InnerInsert cmp n k v ≠ EmptyNode.
Proof.
  destruct n as [|e c s l r]; [done|]. simpl.
  repeat case_match; try done; apply FixUp_node.
Qed.

Lemma InnerInsert_unfold e c s l r k v :
  empty (Node e c s l r) = false →
  InnerInsert cmp (Node e c s l r) k v =
    if cmp k e.1 then FixUp (Node e c s (InnerInsert cmp l k v) r)
    else if cmp e.1 k then FixUp (Node e c s l (InnerInsert cmp r k v))
    else Node (e.1, v) c s l r.
Proof. intros Hne. cbn [InnerInsert]. by rewrite Hne. Qed.

Lemma InnerInsert_wsized n k v :
  size_ok n → count n + 1 ≤ 2 ^ size_bits →
  wsized (InnerInsert cmp n k v) ∧
  count n ≤ count (InnerInsert cmp n k v) ≤ count n + 1.
Proof.
  induction n as [|e c s l IHl r IHr]; intros Hok Hb.
  { split; [apply leaf_wsized|]. cbn. lia. }
  cbn [count].
  pose proof (size_ok_nonempty _ _ _ _ _ Hok) as Hne.
  pose proof (count_nonneg l). pose proof (count_nonneg r).
  pose proof Hok as (_ & Hl & Hr)%size_ok_node.
  rewrite InnerInsert_unfold by done. cbn in Hb.
  destruct (cmp k e.1); [|destruct (cmp e.1 k)].
  - destruct IHl as [Hw Hc]; [done|lia|].
    rewrite count_FixUp. split; [|lia].
    apply wsized_FixUp; [|done|lia]. apply wsized_size_ok; [done|lia].
  - destruct IHr as [Hw Hc]; [done|lia|].
    rewrite count_FixUp. split; [|lia].
    apply wsized_FixUp; [done| |lia]. apply wsized_size_ok; [done|lia].
  - split; [|cbn; lia]. apply (size_ok_wsized (Node (e.1, v) c s l r)); [done|cbn; lia].
Qed.

Lemma wsized_full_empty n :
  wsized n → count n = 2 ^ size_bits → empty n = true.
Proof.
  intros (Hs & _) Hc. unfold empty. rewrite Hs, Hc, wrap31_modulus. done.
Qed.

Lemma InnerInsert_empty n k v :
  empty n = true →
  InnerInsert cmp n k v = Rep4 (k, v) Red LlrbNode_default LlrbNode_default.
Proof. destruct n; [done|]. intros Hn. cbn [InnerInsert]. by rewrite Hn. Qed.

Lemma set_color_wsized n c : n ≠ EmptyNode → wsized n → wsized (set_color n c).
Proof. by destruct n. Qed.

Lemma count_set_color n c : n ≠ EmptyNode → count (set_color n c) = count n.
Proof. by destruct n. Qed.

Lemma entries_set_color n c :
  n ≠ EmptyNode → entries (set_color n c) = entries n.
Proof. by destruct n. Qed.

Lemma insert_wsized n k v : wsized n → wsized (insert cmp n k v).
Proof.
  intros Hw.
  assert (wsized (InnerInsert cmp n k v)) as Hi.
  { destruct (decide (count n = 2 ^ size_bits)) as [Hfull|Hnf].
    - rewrite InnerInsert_empty by by apply wsized_full_empty.
      apply leaf_wsized.
    - pose proof Hw as (_ & _ & _ & Hb).
      apply InnerInsert_wsized; [|lia]. apply wsized_size_ok; [done|lia]. }
  unfold insert. destruct (red _); [|done].
  apply set_color_wsized; [apply InnerInsert_node|done].
Qed.

Lemma insert_all_from_wsized (kvs : list (K * V)) n :
  wsized n → wsized (fold_left (λ t kv, insert cmp t kv.1 kv.2) kvs n).
Proof.
  revert n. induction kvs as [|[k v] kvs IH]; intros n Hn; [done|].
  simpl. apply IH. by apply insert_wsized.
Qed.

Lemma insert_all_wsized (kvs : list (K * V)) : wsized (insert_all cmp kvs).
Proof. apply insert_all_from_wsized. unfold wsized. cbn. split_and!; done. Qed.

End InsertSizes.

(** ** Colors and black height along an insert *)

Section InsertBalance.

Context {K V : Type} `{Inhabited K, Inhabited V}.
Variable cmp : K → K → bool.
Implicit Types n m l r : LlrbNode K V.

Lemma llrb_almost n h : llrb n h → almost n h.
Proof. destruct 1; simpl; auto using llrb. Qed.

Lemma almost_black n h : almost n h → red n = false → llrb n h.
Proof. by destruct n as [|e [] s l r]. Qed.

Lemma llrb_red_children n h :
  llrb n h → red n = true →
  llrb (left n) h ∧ llrb (right n) h ∧
  red (left n) = false ∧ red (right n) = false.
Proof. destruct 1; try done. Qed.

Lemma llrb_right_black n h : llrb n h → red (right n) = false.
Proof. by destruct 1. Qed.

Ltac use_red :=
  repeat match goal with
  | E : red ?x = _ |- context [red ?x] => rewrite E
  end.

Ltac open_red Hn En :=
  let Hl := fresh "Hl" in let Hr := fresh "Hr" in
  let El := fresh "El" in let Er := fresh "Er" in
  destruct (llrb_red_children _ _ Hn En) as (Hl & Hr & El & Er);
  apply red_true_node in En as (? & ? & ? & ? & ->); cbn in Hl, Hr, El, Er.

Ltac finish :=
  cbn in *; repeat (progress (use_red; cbn));
  repeat first [done | apply llrb_black | apply llrb_red | split].

Lemma FixUp_right_black e s l r h :
  llrb l h → llrb r h → llrb (FixUp (Node e Black s l r)) (S h).
Proof.
  intros Hl Hr. unfold FixUp. cbn.
  destruct (red r) eqn:Cr; [open_red Hr Cr|];
    (destruct (red l) eqn:Cl; [open_red Hl Cl|]); finish.
Qed.

Lemma FixUp_right_red e s l r h :
  llrb l h → llrb r h → red l = false →
  almost (FixUp (Node e Red s l r)) h.
Proof.
  intros Hl Hr El. unfold FixUp. cbn.
  destruct (red r) eqn:Cr; [open_red Hr Cr|]; finish.
Qed.

Lemma FixUp_left_black e s l r h :
  almost l h → llrb r h → red r = false →
  llrb (FixUp (Node e Black s l r)) (S h).
Proof.
  intros Hl Hr Er. unfold FixUp. cbn. use_red. cbn.
  destruct (red l) eqn:Cl; [|apply almost_black in Hl; [|done]; finish].
  apply red_true_node in Cl as (el & sl & ll & lr & ->).
  destruct Hl as (Hll & Hlr & Elr). cbn.
  destruct (red ll) eqn:Cll; [open_red Hll Cll|]; finish.
Qed.

Lemma FixUp_left_red e s l r h :
  llrb l h → llrb r h → red r = false →
  almost (FixUp (Node e Red s l r)) h.
Proof.
  intros Hl Hr Er. unfold FixUp. cbn. use_red. cbn.
  destruct (red l) eqn:Cl; [open_red Hl Cl|]; finish.
Qed.

Lemma leaf_llrb (k : K) (v : V) :
  llrb (Rep4 (k, v) Red LlrbNode_default LlrbNode_default) O.
Proof. apply llrb_red; by try constructor. Qed.

Lemma llrb_set_value e c s l r v h :
  llrb (Node e c s l r) h → llrb (Node (e.1, v) c s l r) h.
Proof. inversion 1; subst; by constructor. Qed.

(** Inserting below a node keeps the black height; only a Red root may be
    left with a Red left child, for its caller to repair. *)
Lemma InnerInsert_llrb n k v h :
  size_ok n → llrb n h →
  almost (InnerInsert cmp n k v) h ∧
  (red n = false → llrb (InnerInsert cmp n k v) h).
Proof.
  intros Hok Hn. revert Hok.
  induction Hn as [|e s l r h Hl IHl Hr IHr Er|e s l r h Hl IHl Hr IHr El Er];
    intros Hok.
  - pose proof (leaf_llrb k v). split; [|done]. by apply llrb_almost.
  - pose proof Hok as (_ & Hokl & Hokr)%size_ok_node.
    rewrite InnerInsert_unfold by by apply size_ok_nonempty.
    assert (llrb (if cmp k e.1
       then FixUp (Node e Black s (InnerInsert cmp l k v) r)
       else if cmp e.1 k then FixUp (Node e Black s l (InnerInsert cmp r k v))
       else Node (e.1, v) Black s l r) (S h)) as Hres.
    { destruct (cmp k e.1); [|destruct (cmp e.1 k)].
      - apply FixUp_left_black; try done. by apply IHl.
      - apply FixUp_right_black; try done. by apply IHr.
      - by apply llrb_black. }
    split; [by apply llrb_almost|done].
  - pose proof Hok as (_ & Hokl & Hokr)%size_ok_node.
    rewrite InnerInsert_unfold by by apply size_ok_nonempty.
    split; [|done].
    destruct (cmp k e.1); [|destruct (cmp e.1 k)].
    + apply FixUp_left_red; try done. by apply IHl.
    + apply FixUp_right_red; try done. by apply IHr.
    + done.
Qed.

Lemma set_color_black_llrb n h :
  almost n h → red n = true → llrb (set_color n Black) (S h).
Proof.
  intros Hn (e & s & l & r & ->)%red_true_node.
  destruct Hn as (Hl & Hr & Er). by apply llrb_black.
Qed.

Lemma insert_llrb n k v h :
  size_ok n → llrb n h → red n = false →
  ∃ h', llrb (insert cmp n k v) h' ∧ red (insert cmp n k v) = false.
Proof.
  intros Hok Hn Hb.
  destruct (InnerInsert_llrb n k v h Hok Hn) as [Ha Hl].
  unfold insert. destruct (red (InnerInsert cmp n k v)) eqn:E.
  - exists (S h). split; [by apply set_color_black_llrb|done].
  - exists h. split; [by apply Hl|done].
Qed.

End InsertBalance.

(** ** The trees a run of inserts returns *)

Section Reachable.

Context {K V : Type} `{Inhabited K, Inhabited V}.
Variable cmp : K → K → bool.
Implicit Types n m l r : LlrbNode K V.

Lemma llrb_path_blacks n h b : llrb n h → b ∈ path_blacks n → b = h.
Proof.
  intros Hn. revert b.
  induction Hn as [|e s l r h Hl IHl Hr IHr Er|e s l r h Hl IHl Hr IHr El Er];
    intros b Hb; cbn in Hb.
  - by apply list_elem_of_singleton in Hb.
  - apply list_elem_of_fmap in Hb as (x & -> & [Hx|Hx]%elem_of_app).
    + rewrite (IHl x Hx). lia.
    + rewrite (IHr x Hx). lia.
  - apply list_elem_of_fmap in Hb as (x & -> & [Hx|Hx]%elem_of_app).
    + rewrite (IHl x Hx). lia.
    + rewrite (IHr x Hx). lia.
Qed.

Lemma llrb_black_balanced n h : llrb n h → black_balanced n.
Proof.
  intros Hn b1 b2 H1 H2.
  by rewrite (llrb_path_blacks n h b1), (llrb_path_blacks n h b2).
Qed.

Lemma llrb_left_leaning n h : llrb n h → left_leaning n.
Proof. induction 1; cbn; auto. Qed.

Lemma llrb_no_red_right n h : llrb n h → no_red_right n.
Proof. induction 1; cbn; auto. Qed.

Lemma llrb_no_red_left n h : llrb n h → no_red_left n.
Proof. induction 1; cbn; auto. split_and!; auto. done. Qed.

Lemma red_false_black n : red n = false → color n = Black.
Proof. unfold red. by destruct (color n). Qed.

Lemma reachable_default : reachable (@LlrbNode_default K V).
Proof.
  split; [unfold wsized; cbn; split_and!; done|].
  exists O. split; [constructor|done].
Qed.

Lemma reachable_insert n k v : reachable n → reachable (insert cmp n k v).
Proof.
  intros [Hw (h & Hn & Hb)]. split; [by apply insert_wsized|].
  destruct (decide (count n = 2 ^ size_bits)) as [Hfull|Hnf].
  - unfold insert. rewrite InnerInsert_empty by by apply wsized_full_empty.
    exists 1%nat. split; [|done]. apply llrb_black; by try constructor.
  - pose proof Hw as (_ & _ & _ & Hle).
    apply (insert_llrb cmp n k v h); [|done..].
    apply wsized_size_ok; [done|lia].
Qed.

Lemma reachable_insert_all (kvs : list (K * V)) :
  reachable (insert_all cmp kvs).
Proof.
  unfold insert_all. generalize (@LlrbNode_default K V), reachable_default.
  induction kvs as [|[k v] kvs IH]; intros n Hn; [done|].
  simpl. apply IH. by apply reachable_insert.
Qed.

Lemma count_insert_le n k v :
  wsized n → count (insert cmp n k v) ≤ count n + 1.
Proof.
  intros Hw.
  assert (count (InnerInsert cmp n k v) ≤ count n + 1) as Hi.
  { destruct (decide (count n = 2 ^ size_bits)) as [Hfull|Hnf].
    - rewrite InnerInsert_empty by by apply wsized_full_empty.
      cbn. rewrite Hfull, modulus_value. lia.
    - pose proof Hw as (_ & _ & _ & Hb).
      apply InnerInsert_wsized; [|lia]. apply wsized_size_ok; [done|lia]. }
  unfold insert. destruct (red _); [|done].
  rewrite count_set_color; [done|apply InnerInsert_node].
Qed.

Lemma count_insert_all_le (kvs : list (K * V)) :
  count (insert_all cmp kvs) ≤ Z.of_nat (length kvs).
Proof.
  unfold insert_all.
  assert (∀ n, wsized n →
    count (fold_left (λ t kv, insert cmp t kv.1 kv.2) kvs n)
    ≤ count n + Z.of_nat (length kvs)) as Hgen.
  { induction kvs as [|[k v] kvs IH]; intros n Hn; simpl length; [simpl; lia|].
    simpl fold_left. etrans; [apply IH; by apply insert_wsized|].
    pose proof (count_insert_le n k v Hn). simpl in *. lia. }
  apply (Hgen LlrbNode_default). apply reachable_default.
Qed.

Lemma reachable_invariants n :
  reachable n → count n < 2 ^ size_bits → red_black_invariants n.
Proof.
  intros [Hw (h & Hn & Hb)] Hlt. split_and!.
  - by apply red_false_black.
  - by apply llrb_no_red_right with h.
  - by apply llrb_no_red_left with h.
  - by apply llrb_black_balanced with h.
  - by apply wsized_size_ok.
Qed.

(** C1 (as amended).  Every tree returned by a run of inserts from the empty
    node, whatever the comparator, has a Black root, no Red node with a Red
    right child, no Red node with a Red left child, and the same number of
    Black nodes on every path from the root to an empty leaf.  The size
    equation [size = 1 + left.size + right.size] holds at every node as long
    as the tree holds fewer than [2^31] entries, which is the case after
    fewer than [2^31] inserts. *)
Theorem insert_all_invariants (kvs : list (K * V)) :
  let t := insert_all cmp kvs in
  (root_black t ∧ no_red_right t ∧ no_red_left t ∧ black_balanced t) ∧
  (count t < 2 ^ size_bits ∨ Z.of_nat (length kvs) < 2 ^ size_bits →
   red_black_invariants t).
Proof.
  intros t. pose proof (reachable_insert_all kvs) as Hreach.
  pose proof Hreach as [Hw (h & Hn & Hb)]. fold t in Hreach, Hw, Hn, Hb.
  split.
  - split_and!.
    + by apply red_false_black.
    + by apply llrb_no_red_right with h.
    + by apply llrb_no_red_left with h.
    + by apply llrb_black_balanced with h.
  - intros Hc. apply reachable_invariants; [done|].
    destruct Hc as [|Hlen]; [done|].
    pose proof (count_insert_all_le kvs) as Hle. fold t in Hle. lia.
Qed.

End Reachable.

Lemma strict_total_order_weak {K : Type} (cmp : K → K → bool) :
  StrictTotalOrder cmp → StrictOrder cmp.
Proof.
  intros [Hi Ht Hto]. split; [done..|].
  intros a b c Hab.
  destruct (cmp a c) eqn:Hac; [by left|].
  destruct (cmp c b) eqn:Hcb; [by right|].
  destruct (cmp c a) eqn:Hca.
  - rewrite (Ht c a b) in Hcb; done.
  - rewrite (Hto a c) in Hab by done. congruence.
Qed.

(** ** Order of the keys *)

Section Order.

Context {K V : Type} `{Inhabited K, Inhabited V}.
Variable cmp : K → K → bool.
Hypothesis cmp_ok : StrictOrder cmp.
Implicit Types n m l r : LlrbNode K V.
Implicit Types es : list (K * V).

Lemma ascending_app es1 e es2 :
  ascending cmp (es1 ++ e :: es2) ↔
  ascending cmp es1 ∧ ascending cmp es2 ∧
  Forall (λ a, cmp a.1 e.1 = true) es1 ∧ Forall (λ b, cmp e.1 b.1 = true) es2.
Proof.
  unfold ascending. rewrite StronglySorted_app, StronglySorted_cons.
  rewrite !Forall_forall. split.
  - intros (H12 & H1 & H2 & H3). split_and!; try done.
    intros a Ha. apply H12; [done|]. by left.
  - intros (H1 & H2 & H3 & H4). split_and!; try done.
    intros a b Ha [->|Hb]%elem_of_cons; [by apply H3|].
    apply (cmp_trans _ cmp_ok _ e.1); auto.
Qed.

Lemma ascending_sublist es1 es2 :
  es1 `sublist_of` es2 → ascending cmp es2 → ascending cmp es1.
Proof.
  unfold ascending. induction 1 as [|x l1 l2 Hs IH|x l1 l2 Hs IH];
    rewrite ?StronglySorted_cons.
  - auto.
  - intros [Hx Hl]. split; [|by apply IH].
    rewrite Forall_forall in Hx |- *. intros y Hy.
    by apply Hx, (sublist_subseteq _ _ Hs).
  - intros [_ Hl]. by apply IH.
Qed.

Lemma ascending_NoDup es : ascending cmp es → NoDup es.*1.
Proof.
  unfold ascending. induction 1 as [|e es Hs IH He]; simpl; constructor; [|done].
  intros (e' & Heq & Hin)%list_elem_of_fmap.
  rewrite Forall_forall in He. specialize (He e' Hin).
  rewrite Heq, (cmp_irrefl _ cmp_ok) in He. done.
Qed.

(** Every key of the result is the inserted key or a key of the receiver. *)
Lemma InnerInsert_keys (P : K → Prop) n k v :
  P k → Forall (λ e, P e.1) (entries n) →
  Forall (λ e, P e.1) (entries (InnerInsert cmp n k v)).
Proof.
  intros Hk. induction n as [|e c s l IHl r IHr]; intros Hn.
  { by repeat constructor. }
  destruct (empty (Node e c s l r)) eqn:Hne.
  { rewrite InnerInsert_empty by done. by repeat constructor. }
  rewrite InnerInsert_unfold by done. simpl in Hn.
  apply Forall_app in Hn as [Hl [He Hr]%Forall_cons].
  destruct (cmp k e.1); [|destruct (cmp e.1 k)]; rewrite ?entries_FixUp; simpl;
    apply Forall_app; split; try apply Forall_cons; auto.
Qed.

Lemma InnerInsert_ascending n k v :
  ascending cmp (entries n) → ascending cmp (entries (InnerInsert cmp n k v)).
Proof.
  induction n as [|e c s l IHl r IHr]; intros Hn.
  { by repeat constructor. }
  destruct (empty (Node e c s l r)) eqn:Hne.
  { rewrite InnerInsert_empty by done. by repeat constructor. }
  rewrite InnerInsert_unfold by done. simpl in Hn.
  apply ascending_app in Hn as (Hl & Hr & Hle & Hre).
  destruct (cmp k e.1) eqn:Hlt; [|destruct (cmp e.1 k) eqn:Hgt];
    rewrite ?entries_FixUp; simpl; apply ascending_app; split_and!; auto.
  - by apply (InnerInsert_keys (λ x, cmp x e.1 = true)).
  - by apply (InnerInsert_keys (λ x, cmp e.1 x = true)).
Qed.

Lemma insert_entries n k v :
  entries (insert cmp n k v) = entries (InnerInsert cmp n k v).
Proof.
  unfold insert. destruct (red _); [|done].
  apply entries_set_color, InnerInsert_node.
Qed.

Lemma insert_all_ascending (kvs : list (K * V)) :
  ascending cmp (entries (insert_all cmp kvs)).
Proof.
  unfold insert_all.
  assert (ascending cmp (entries (@LlrbNode_default K V))) as Hd by constructor.
  revert Hd. generalize (@LlrbNode_default K V).
  induction kvs as [|[k v] kvs IH]; intros n Hn; [done|].
  simpl. apply IH. rewrite insert_entries. by apply InnerInsert_ascending.
Qed.

End Order.

Section OrderClaim.

Context {K V : Type} `{Inhabited K, Inhabited V}.
Variable cmp : K → K → bool.

(** C2.  With a comparator that is a strict order (a strict total order in
    particular), the in-order traversal of every tree built by a run of
    inserts from the empty node is strictly ascending in the keys and has no
    key twice.  This holds of the walk that stops at nodes reporting
    [empty()] and of the sequence of all entries below the root alike. *)
Theorem insert_all_inorder_ascending (kvs : list (K * V)) :
  StrictOrder cmp →
  let t := insert_all cmp kvs in
  (ascending cmp (inorder t) ∧ NoDup (inorder t).*1) ∧
  (ascending cmp (entries t) ∧ NoDup (entries t).*1).
Proof.
  intros Hcmp t.
  pose proof (insert_all_ascending cmp Hcmp kvs) as He. fold t in He.
  pose proof (ascending_sublist cmp _ _ (inorder_sublist t) He) as Hi.
  split; (split; [done|]); by apply (ascending_NoDup cmp Hcmp).
Qed.

End OrderClaim.

(** ** Insert of a key that is not stored *)

Section NewKeys.

Context {K V : Type} `{Inhabited K, Inhabited V}.
Variable cmp : K → K → bool.
Implicit Types n m l r : LlrbNode K V.
Implicit Types es : list (K * V).

Lemma equivalent_false k a :
  equivalent cmp k a = false → cmp k a = true ∨ cmp a k = true.
Proof. unfold equivalent. destruct (cmp k a), (cmp a k); auto. Qed.

(** A key equivalent to none of the stored ones ends up in a new leaf, and
    the entries around it stay as they were. *)
Lemma InnerInsert_new n k v :
  size_ok n → Forall (λ e, equivalent cmp k e.1 = false) (entries n) →
  ∃ es1 es2, entries n = es1 ++ es2 ∧
             entries (InnerInsert cmp n k v) = es1 ++ (k, v) :: es2.
Proof.
  induction n as [|e c s l IHl r IHr]; intros Hok Hn.
  { by exists [], []. }
  pose proof Hok as (_ & Hl & Hr)%size_ok_node.
  rewrite InnerInsert_unfold by by apply size_ok_nonempty.
  simpl in Hn. apply Forall_app in Hn as [Hnl [He Hnr]%Forall_cons].
  destruct (cmp k e.1) eqn:Hlt; [|destruct (cmp e.1 k) eqn:Hgt].
  - destruct (IHl Hl Hnl) as (es1 & es2 & E1 & E2).
    exists es1, (es2 ++ e :: entries r). rewrite entries_FixUp. simpl.
    rewrite E1, E2, <- !app_assoc. done.
  - destruct (IHr Hr Hnr) as (es1 & es2 & E1 & E2).
    exists (entries l ++ e :: es1), es2. rewrite entries_FixUp. simpl.
    rewrite E1, E2, <- !app_assoc. done.
  - apply equivalent_false in He as [?|?]; congruence.
Qed.

(** A key that sorts after every stored key becomes the last entry. *)
Lemma InnerInsert_last n k v :
  size_ok n →
  Forall (λ e, cmp k e.1 = false ∧ cmp e.1 k = true) (entries n) →
  entries (InnerInsert cmp n k v) = entries n ++ [(k, v)].
Proof.
  induction n as [|e c s l IHl r IHr]; intros Hok Hn; [done|].
  pose proof Hok as (_ & Hl & Hr)%size_ok_node.
  rewrite InnerInsert_unfold by by apply size_ok_nonempty.
  simpl in Hn. apply Forall_app in Hn as [Hnl [[He1 He2] Hnr]%Forall_cons].
  rewrite He1, He2, entries_FixUp. simpl. rewrite IHr by done.
  by rewrite <- app_assoc.
Qed.

Lemma size_set_color n c : n ≠ EmptyNode → size (set_color n c) = size n.
Proof. by destruct n. Qed.

Lemma insert_size n k v :
  size (insert cmp n k v) = size (InnerInsert cmp n k v).
Proof.
  unfold insert. destruct (red _); [|done].
  apply size_set_color, InnerInsert_node.
Qed.

Lemma insert_count n k v :
  count (insert cmp n k v) = count (InnerInsert cmp n k v).
Proof. by rewrite !count_entries, insert_entries. Qed.

Lemma wsized_size n : wsized n → count n < 2 ^ size_bits → size n = count n.
Proof. intros. by apply size_ok_count, wsized_size_ok. Qed.

(** C9 (as amended).  For a tree whose size fields are exact and a key that
    is equivalent to none of the stored keys, as long as the tree holds
    fewer than [2^31 - 1] entries: the tree returned by [insert] has size
    one more than before, and its entries are the old entries with [(k, v)]
    put between two of them; the traversal reports all of them. *)
Theorem insert_new_key n k v :
  size_ok n → size n + 1 < 2 ^ size_bits →
  Forall (λ e, equivalent cmp k e.1 = false) (entries n) →
  size (insert cmp n k v) = size n + 1 ∧
  (∃ es1 es2, entries n = es1 ++ es2 ∧
              entries (insert cmp n k v) = es1 ++ (k, v) :: es2) ∧
  entries (insert cmp n k v) ≡ₚ (k, v) :: entries n ∧
  inorder (insert cmp n k v) = entries (insert cmp n k v).
Proof.
  intros Hok Hb Hnew. rewrite (size_ok_count n Hok) in Hb |- *.
  destruct (InnerInsert_new n k v Hok Hnew) as (es1 & es2 & E1 & E2).
  assert (count (insert cmp n k v) = count n + 1) as Hc.
  { rewrite !count_entries, insert_entries, E1, E2, !length_app. simpl. lia. }
  assert (wsized (insert cmp n k v)) as Hw.
  { apply insert_wsized, size_ok_wsized; [done|lia]. }
  split_and!.
  - rewrite wsized_size; [done..|lia].
  - exists es1, es2. by rewrite insert_entries.
  - rewrite insert_entries, E1, E2. by rewrite Permutation_middle.
  - apply size_ok_inorder, wsized_size_ok; [done|lia].
Qed.

End NewKeys.

(** ** A run that fills the size field *)

Section AscendingRun.

Lemma Z_ltb_total_order : StrictTotalOrder Z.ltb.
Proof. split; intros; lia. Qed.

Lemma ascending_run_S n :
  ascending_run (S n) = ascending_run n ++ [(Z.of_nat n, tt)].
Proof. unfold ascending_run. by rewrite seq_S, map_app. Qed.

Lemma ascending_run_length n : length (ascending_run n) = n.
Proof. unfold ascending_run. by rewrite length_map, length_seq. Qed.

Lemma ascending_run_below n :
  Forall (λ e : Z * unit, e.1 < Z.of_nat n) (ascending_run n).
Proof.
  unfold ascending_run. rewrite Forall_fmap. apply Forall_forall.
  intros i [_ Hi]%elem_of_seq. simpl. lia.
Qed.

Lemma insert_all_snoc {K V : Type} `{Inhabited K, Inhabited V}
    (cmp : K → K → bool) (kvs : list (K * V)) k v :
  insert_all cmp (kvs ++ [(k, v)]) = insert cmp (insert_all cmp kvs) k v.
Proof. unfold insert_all. by rewrite fold_left_app. Qed.

(** Inserting the keys [0], [1], ... in this order stores every one of
    them, up to and including the [2^31]-th. *)
Lemma insert_all_ascending_run n :
  Z.of_nat n ≤ 2 ^ size_bits →
  entries (insert_all Z.ltb (ascending_run n)) = ascending_run n.
Proof.
  induction n as [|n IH]; intros Hn; [done|].
  rewrite ascending_run_S, insert_all_snoc, insert_entries.
  specialize (IH ltac:(lia)).
  rewrite InnerInsert_last, IH; [done| |].
  - apply wsized_size_ok; [apply insert_all_wsized|].
    rewrite count_entries, IH, ascending_run_length. lia.
  - rewrite IH. eapply Forall_impl; [apply ascending_run_below|].
    intros e He. simpl in He. lia.
Qed.

Lemma count_insert_all_ascending_run n :
  Z.of_nat n ≤ 2 ^ size_bits →
  count (insert_all Z.ltb (ascending_run n)) = Z.of_nat n.
Proof.
  intros Hn.
  by rewrite count_entries, insert_all_ascending_run, ascending_run_length.
Qed.

Lemma full_run_size n :
  Z.of_nat n = 2 ^ size_bits →
  size (insert_all Z.ltb (ascending_run n)) = 0 ∧
  ¬ size_ok (insert_all Z.ltb (ascending_run n)).
Proof.
  intros Hn.
  pose proof (count_insert_all_ascending_run n ltac:(lia)) as Hc.
  pose proof (insert_all_wsized Z.ltb (ascending_run n)) as Hw.
  assert (size (insert_all Z.ltb (ascending_run n)) = 0) as Hs.
  { destruct Hw as [-> _]. by rewrite Hc, Hn. }
  split; [done|]. intros Hok%size_ok_count.
  rewrite Hs, Hc, Hn, modulus_value in Hok. done.
Qed.

Lemma full_run_not_invariants n :
  Z.of_nat n = 2 ^ size_bits →
  ¬ red_black_invariants (insert_all Z.ltb (ascending_run n)).
Proof.
  intros Hn (_ & _ & _ & _ & Hok). by apply (full_run_size n).
Qed.

Lemma last_run_overflow n k :
  Z.of_nat n = k → k + 1 = 2 ^ size_bits →
  let t := insert_all Z.ltb (ascending_run n) in
  red_black_invariants t ∧ ascending Z.ltb (entries t) ∧
  Forall (λ e, equivalent Z.ltb k e.1 = false) (entries t) ∧
  size (insert Z.ltb t k tt) ≠ size t + 1.
Proof.
  intros Hn Hk t.
  assert (count t = k) as Hc.
  { unfold t. rewrite count_insert_all_ascending_run; lia. }
  split_and!.
  - apply reachable_invariants; [apply reachable_insert_all|lia].
  - apply insert_all_ascending, strict_total_order_weak, Z_ltb_total_order.
  - unfold t. rewrite insert_all_ascending_run by lia.
    eapply Forall_impl; [apply ascending_run_below|].
    intros e He. simpl in He. unfold equivalent.
    apply andb_false_iff. right. apply negb_false_iff. lia.
  - assert (insert Z.ltb t k tt = insert_all Z.ltb (ascending_run (S n))) as ->.
    { rewrite ascending_run_S, insert_all_snoc. fold t. by rewrite Hn. }
    destruct (full_run_size (S n)) as [-> _]; [lia|].
    rewrite wsized_size; [|apply insert_all_wsized|fold t; lia].
    fold t. rewrite Hc. rewrite modulus_value in Hk. lia.
Qed.

Lemma to_nat_modulus : Z.of_nat (Z.to_nat (2 ^ size_bits)) = 2 ^ size_bits.
Proof. apply Z2Nat.id. by rewrite modulus_value. Qed.

Lemma to_nat_modulus_pred :
  Z.of_nat (Z.to_nat (2 ^ size_bits - 1)) = 2 ^ size_bits - 1.
Proof. apply Z2Nat.id. by rewrite modulus_value. Qed.

(** C1, as stated, fails: after the inserts of the [2^31] keys
    [0 .. 2^31 - 1] in ascending order, under the strict total order [<] of
    the integers, the root's size field reads 0 while its children hold
    [2^31 - 1] entries between them. *)
Lemma insert_all_invariants_overflow :
  StrictTotalOrder Z.ltb ∧
  ¬ red_black_invariants
      (insert_all Z.ltb (ascending_run (Z.to_nat (2 ^ size_bits)))).
Proof.
  split; [exact Z_ltb_total_order|].
  exact (full_run_not_invariants _ to_nat_modulus).
Qed.

(** C9, as stated, fails: the tree holding the [2^31 - 1] keys
    [0 .. 2^31 - 2] satisfies the five invariants and is in ascending order;
    the key [2^31 - 1] is new to it; the tree returned by the insert of that
    key reports size 0, not [2^31]. *)
Lemma insert_new_key_overflow :
  let t := insert_all Z.ltb (ascending_run (Z.to_nat (2 ^ size_bits - 1))) in
  let k := 2 ^ size_bits - 1 in
  red_black_invariants t ∧ ascending Z.ltb (entries t) ∧
  Forall (λ e, equivalent Z.ltb k e.1 = false) (entries t) ∧
  size (insert Z.ltb t k tt) ≠ size t + 1.
Proof.
  exact (last_run_overflow _ _ to_nat_modulus_pred (Z.sub_add 1 (2 ^ size_bits))).
Qed.

End AscendingRun.

(** ** What the size field reports *)

Section SizeField.

Context {K V : Type} `{Inhabited K, Inhabited V}.
Variable cmp : K → K → bool.
Implicit Types n m l r : LlrbNode K V.

Lemma size_ok_reports n :
  size_ok n → count n < 2 ^ size_bits → Forall_nodes size_reports_count n.
Proof.
  induction n as [|e c s l IHl r IHr]; [done|].
  intros Hok Hb. pose proof (size_ok_count _ Hok) as Hs.
  pose proof Hok as (_ & Hl & Hr)%size_ok_node.
  pose proof (count_nonneg l). pose proof (count_nonneg r).
  cbn in Hb, Hs. cbn [Forall_nodes]. split_and!.
  - unfold size_reports_count. cbn. rewrite Hs.
    rewrite Z.mod_small by lia. split_and!; lia.
  - apply IHl; [done|lia].
  - apply IHr; [done|lia].
Qed.

Lemma wsized_reports n : wsized n → Forall_nodes size_reports_count n.
Proof.
  destruct n as [|e c s l r]; [done|].
  intros (Hs & Hl & Hr & Hb)%wsized_node.
  pose proof (count_nonneg l). pose proof (count_nonneg r).
  cbn [Forall_nodes]. split_and!.
  - unfold size_reports_count. cbn. rewrite Hs. unfold wrap31.
    pose proof (Z.mod_pos_bound (count l + 1 + count r) (2 ^ size_bits)
                  ltac:(by rewrite modulus_value)).
    split_and!; try lia. split; [lia|]. intros. rewrite Z.mod_small; lia.
  - apply size_ok_reports; [done|lia].
  - apply size_ok_reports; [done|lia].
Qed.

(** C10.  A store into the size field keeps the value modulo [2^31]; so at
    every node of every tree a run of inserts returns, [size()] is below
    [2^31], it is the number of entries below the node modulo [2^31], and it
    is that number itself exactly when the node holds fewer than [2^31]
    entries. *)
Theorem size_is_count_mod_2_31 (kvs : list (K * V)) :
  (∀ n s, size (set_size n s) = s mod 2 ^ 31) ∧
  (∀ e c l r, size (Rep4 e c l r) = (size l + 1 + size r) mod 2 ^ 31) ∧
  Forall_nodes
    (λ x, 0 ≤ size x < 2 ^ 31 ∧ size x = count x mod 2 ^ 31 ∧
          (size x = count x ↔ count x < 2 ^ 31))
    (insert_all cmp kvs).
Proof.
  split_and!; [done..|]. apply (wsized_reports _ (insert_all_wsized cmp kvs)).
Qed.

End SizeField.

(** ** The rotations *)

Section Transformations.

Context {K V : Type} `{Inhabited K, Inhabited V}.
Variable cmp : K → K → bool.
Implicit Types n m l r : LlrbNode K V.

Lemma empty_inorder n : empty n = true → inorder n = [].
Proof. destruct n; [done|]. unfold empty. simpl. by intros ->. Qed.

Lemma inorder_wsized_step n m :
  wsized n → wsized m → size m = size n → entries m = entries n →
  inorder m = inorder n.
Proof.
  intros Hn Hm Hs He.
  assert (count m = count n) as Hc by by rewrite !count_entries, He.
  destruct (decide (count n = 2 ^ size_bits)) as [Hfull|Hnf].
  - rewrite !empty_inorder; [done|apply wsized_full_empty; [done|lia]..].
  - pose proof Hn as (_ & _ & _ & Hb).
    rewrite !size_ok_inorder; [done|apply wsized_size_ok; [done|lia]..].
Qed.

Lemma size_RotateLeft n : size (RotateLeft n) = size n.
Proof. done. Qed.

Lemma size_RotateRight n : size (RotateRight n) = size n.
Proof. done. Qed.

(** C7.  [RotateLeft] on a node X with right child R puts R's entry at the
    top with X's color and size; its left child is a new Red node with X's
    entry, X's left child to the left and R's left child to the right; its
    right child is R's right child.  [RotateRight] is the mirror image.
    Both keep the sequence of entries and the size of the subtree; on a tree
    whose size fields are in order the traversal yields the same sequence
    before and after. *)
Theorem rotations_structure (x : K * V) (c : Color) (s : Z) l r
    (y : K * V) (cy : Color) (sy : Z) (a b : LlrbNode K V) :
  let X := Node x c s l (Node y cy sy a b) in
  let Y := Node x c s (Node y cy sy a b) r in
  (RotateLeft X = Node y c s (Node x Red (wrap31 (size l + 1 + size a)) l a) b ∧
   RotateRight Y = Node y c s a (Node x Red (wrap31 (size b + 1 + size r)) b r)) ∧
  (entries (RotateLeft X) = entries X ∧ entries (RotateRight Y) = entries Y) ∧
  (size (RotateLeft X) = size X ∧ size (RotateRight Y) = size Y) ∧
  (count (RotateLeft X) = count X ∧ count (RotateRight Y) = count Y) ∧
  (wsized X → cy = Red → inorder (RotateLeft X) = inorder X) ∧
  (wsized Y → cy = Red → inorder (RotateRight Y) = inorder Y).
Proof.
  intros X Y.
  assert (entries (RotateLeft X) = entries X) as HL.
  { cbn. by rewrite <- app_assoc. }
  assert (entries (RotateRight Y) = entries Y) as HR.
  { cbn. by rewrite <- app_assoc. }
  split_and!; try done.
  - by rewrite !count_entries, HL.
  - by rewrite !count_entries, HR.
  - intros Hw ->. apply inorder_wsized_step; try done.
    by apply wsized_RotateLeft.
  - intros Hw ->. apply inorder_wsized_step; try done.
    by apply wsized_RotateRight.
Qed.

End Transformations.

(** ** Where [FixUp] is called *)

Section CallLog.

Context {K V : Type} `{Inhabited K, Inhabited V}.
Variable cmp : K → K → bool.
Implicit Types n m l r : LlrbNode K V.

Lemma FixUp_log_fst n : (FixUp_log n).1 = FixUp n.
Proof.
  unfold FixUp_log, FixUp. cbv zeta.
  repeat match goal with
  | |- context [if ?b then _ else _] => destruct b
  end; done.
Qed.

Lemma FixUp_log_snd n :
  ∃ log, (FixUp_log n).2 = CallFixUp :: log ∧
         log `sublist_of` [CallRotateLeft; CallRotateRight; CallFlipColor].
Proof.
  unfold FixUp_log. cbv zeta.
  repeat match goal with
  | |- context [if ?b then _ else _] => destruct b
  end; simpl; eexists; (split; [done|]);
    repeat first [apply sublist_nil_l | apply sublist_skip | apply sublist_cons].
Qed.

Lemma InnerInsert_log_fst n k v :
  (InnerInsert_log cmp n k v).1 = InnerInsert cmp n k v.
Proof.
  induction n as [|e c s l IHl r IHr]; [done|]. simpl.
  destruct (empty _); [done|].
  destruct (cmp k e.1); [|destruct (cmp e.1 k); [|done]].
  - destruct (InnerInsert_log cmp l k v) as [l' log]. simpl in IHl. subst l'.
    rewrite <- FixUp_log_fst. by destruct (FixUp_log _).
  - destruct (InnerInsert_log cmp r k v) as [r' log]. simpl in IHr. subst r'.
    rewrite <- FixUp_log_fst. by destruct (FixUp_log _).
Qed.

Lemma InnerInsert_log_before n k v :
  empty n = false → cmp k (key n) = true →
  InnerInsert cmp n k v
    = FixUp (set_left (Clone n) (InnerInsert cmp (left n) k v)) ∧
  (InnerInsert_log cmp n k v).2
    = (InnerInsert_log cmp (left n) k v).2
      ++ (FixUp_log (set_left (Clone n) (InnerInsert cmp (left n) k v))).2.
Proof.
  destruct n as [|e c s l r]; [done|]. intros Hne Hlt. change (cmp k e.1 = true) in Hlt.
  split; [by rewrite InnerInsert_unfold, Hlt|].
  cbn [InnerInsert_log]. rewrite Hne, Hlt.
  rewrite <- InnerInsert_log_fst. cbn [left].
  destruct (InnerInsert_log cmp l k v) as [l' log]. simpl.
  by destruct (FixUp_log _).
Qed.

Lemma InnerInsert_log_after n k v :
  empty n = false → cmp k (key n) = false → cmp (key n) k = true →
  InnerInsert cmp n k v
    = FixUp (set_right (Clone n) (InnerInsert cmp (right n) k v)) ∧
  (InnerInsert_log cmp n k v).2
    = (InnerInsert_log cmp (right n) k v).2
      ++ (FixUp_log (set_right (Clone n) (InnerInsert cmp (right n) k v))).2.
Proof.
  destruct n as [|e c s l r]; [done|]. intros Hne Hlt Hgt.
  change (cmp k e.1 = false) in Hlt. change (cmp e.1 k = true) in Hgt.
  split; [by rewrite InnerInsert_unfold, Hlt, Hgt|].
  cbn [InnerInsert_log]. rewrite Hne, Hlt, Hgt.
  rewrite <- InnerInsert_log_fst. cbn [right].
  destruct (InnerInsert_log cmp r k v) as [r' log]. simpl.
  by destruct (FixUp_log _).
Qed.

Lemma InnerInsert_log_equal n k v :
  empty n = false → cmp k (key n) = false → cmp (key n) k = false →
  InnerInsert_log cmp n k v = (set_value (Clone n) v, []).
Proof.
  destruct n as [|e c s l r]; [done|]. intros Hne Hlt Hgt.
  change (cmp k e.1 = false) in Hlt. change (cmp e.1 k = false) in Hgt.
  cbn [InnerInsert_log]. by rewrite Hne, Hlt, Hgt.
Qed.

Lemma InnerInsert_log_empty n k v :
  empty n = true →
  InnerInsert_log cmp n k v
    = (Rep4 (k, v) Red LlrbNode_default LlrbNode_default, []).
Proof. destruct n; [done|]. intros Hn. cbn [InnerInsert_log]. by rewrite Hn. Qed.

(** C6 (as amended).  [FixUp] stores the size computed from the children
    and then makes the three guarded steps in the order rotate left, rotate
    right, flip colors.  [InnerInsert] calls it, after the recursive call
    has returned, on the two paths where the key sorts before or after the
    key of the node.  On the path of an equivalent key, and on the path of
    an empty receiver, it makes no call of [FixUp] and of no
    transformation. *)
Theorem FixUp_applied_after_descent n k v :
  ((InnerInsert_log cmp n k v).1 = InnerInsert cmp n k v ∧
   (FixUp_log n).1 = FixUp n) ∧
  (FixUp n =
     flip_color_if_needed
       (rotate_right_if_needed
          (rotate_left_if_needed
             (set_size n (size (left n) + 1 + size (right n))))) ∧
   ∃ log, (FixUp_log n).2 = CallFixUp :: log ∧
          log `sublist_of` [CallRotateLeft; CallRotateRight; CallFlipColor]) ∧
  (empty n = false → cmp k (key n) = true →
   InnerInsert cmp n k v
     = FixUp (set_left (Clone n) (InnerInsert cmp (left n) k v)) ∧
   (InnerInsert_log cmp n k v).2
     = (InnerInsert_log cmp (left n) k v).2
       ++ (FixUp_log (set_left (Clone n) (InnerInsert cmp (left n) k v))).2) ∧
  (empty n = false → cmp k (key n) = false → cmp (key n) k = true →
   InnerInsert cmp n k v
     = FixUp (set_right (Clone n) (InnerInsert cmp (right n) k v)) ∧
   (InnerInsert_log cmp n k v).2
     = (InnerInsert_log cmp (right n) k v).2
       ++ (FixUp_log (set_right (Clone n) (InnerInsert cmp (right n) k v))).2) ∧
  (empty n = false → cmp k (key n) = false → cmp (key n) k = false →
   InnerInsert_log cmp n k v = (set_value (Clone n) v, [])) ∧
  (empty n = true →
   InnerInsert_log cmp n k v
     = (Rep4 (k, v) Red LlrbNode_default LlrbNode_default, [])).
Proof.
  split_and!.
  - apply InnerInsert_log_fst.
  - apply FixUp_log_fst.
  - done.
  - apply FixUp_log_snd.
  - apply InnerInsert_log_before.
  - apply InnerInsert_log_after.
  - apply InnerInsert_log_equal.
  - apply InnerInsert_log_empty.
Qed.

End CallLog.

(** C6, as stated, fails: the node holding key 5 is not empty, and the
    insert of key 5 into it returns through the branch of equivalent keys,
    on which no call of [FixUp] is made. *)
Lemma equal_key_path_skips_FixUp :
  let t := insert Z.ltb LlrbNode_default 5 "a"%string in
  empty t = false ∧
  InnerInsert Z.ltb t 5 "b"%string = Node (5, "b"%string) Black 1 EmptyNode EmptyNode ∧
  CallFixUp ∉ (InnerInsert_log Z.ltb t 5 "b"%string).2.
Proof. split_and!; [done..|]. vm_compute. apply not_elem_of_nil. Qed.

(** ** Insert of a key that is stored *)

Section ExistingKey.

Context {K V : Type} `{Inhabited K, Inhabited V}.
Variable cmp : K → K → bool.
Hypothesis cmp_ok : StrictOrder cmp.
Implicit Types n m l r : LlrbNode K V.

Lemma skeleton_size n : size (skeleton n) = size n.
Proof. by destruct n. Qed.

Lemma skeleton_red n : red (skeleton n) = red n.
Proof. by destruct n. Qed.

Lemma skeleton_left n : left (skeleton n) = skeleton (left n).
Proof. by destruct n. Qed.

Lemma skeleton_eq_size n m : skeleton n = skeleton m → size n = size m.
Proof. intros E. by rewrite <- (skeleton_size n), E, skeleton_size. Qed.

Lemma skeleton_eq_red n m : skeleton n = skeleton m → red n = red m.
Proof. intros E. by rewrite <- (skeleton_red n), E, skeleton_red. Qed.

Lemma skeleton_eq_left_red n m :
  skeleton n = skeleton m → red (left n) = red (left m).
Proof.
  intros E. by rewrite <- (skeleton_red (left n)), <- skeleton_left, E,
    skeleton_left, skeleton_red.
Qed.

(** On a node that needs no repair [FixUp] changes nothing. *)
Lemma FixUp_noop e c s l r :
  s = wrap31 (size l + 1 + size r) → red r = false →
  (red l = true → red (left l) = false) →
  FixUp (Node e c s l r) = Node e c s l r.
Proof.
  intros Hs Hr Hl.
  change (FixUp (Node e c s l r)) with
    (flip_color_if_needed (rotate_right_if_needed (rotate_left_if_needed
       (Node e c (wrap31 (size l + 1 + size r)) l r)))).
  rewrite <- Hs.
  assert (rotate_left_if_needed (Node e c s l r) = Node e c s l r) as ->.
  { unfold rotate_left_if_needed. simpl. by rewrite Hr. }
  assert (rotate_right_if_needed (Node e c s l r) = Node e c s l r) as ->.
  { unfold rotate_right_if_needed. simpl.
    destruct (red l); [by rewrite Hl|done]. }
  unfold flip_color_if_needed. simpl. by rewrite Hr, andb_false_r.
Qed.

Lemma not_equivalent_before k a : cmp k a = true → equivalent cmp k a = false.
Proof. unfold equivalent. by intros ->. Qed.

Lemma not_equivalent_after k a : cmp a k = true → equivalent cmp k a = false.
Proof. unfold equivalent. intros ->. by rewrite andb_false_r. Qed.

Lemma equivalent_true k a :
  equivalent cmp k a = true ↔ cmp k a = false ∧ cmp a k = false.
Proof. unfold equivalent. destruct (cmp k a), (cmp a k); simpl; intuition done. Qed.

Lemma InnerInsert_existing n k v :
  size_ok n → size n < 2 ^ size_bits → left_leaning n → no_red_left n →
  ascending cmp (entries n) →
  (∃ e0, e0 ∈ entries n ∧ equivalent cmp k e0.1 = true) →
  skeleton (InnerInsert cmp n k v) = skeleton n ∧
  ∃ es1 e0 es2,
    entries n = es1 ++ e0 :: es2 ∧ equivalent cmp k e0.1 = true ∧
    entries (InnerInsert cmp n k v) = es1 ++ (e0.1, v) :: es2.
Proof.
  induction n as [|e c s l IHl r IHr];
    intros Hok Hb Hll Hnl Hasc (e0 & Hin & Heq).
  { by apply elem_of_nil in Hin. }
  pose proof Hok as (Hs & Hokl & Hokr)%size_ok_node.
  pose proof (size_ok_count l Hokl) as Hcl.
  pose proof (size_ok_count r Hokr) as Hcr.
  pose proof (count_nonneg l). pose proof (count_nonneg r).
  destruct Hll as (Hrr & Hlll & Hllr). destruct Hnl as (Hrl & Hnll & Hnlr).
  cbn in Hb, Hrr, Hrl.
  simpl in Hasc. apply (ascending_app cmp cmp_ok) in Hasc as (Hal & Har & Hle & Hre).
  rewrite Forall_forall in Hle, Hre.
  rewrite InnerInsert_unfold by by apply size_ok_nonempty.
  simpl in Hin. apply elem_of_app in Hin as [Hin|[->|Hin]%elem_of_cons].
  - (* the equivalent key is in the left subtree *)
    assert (cmp k e.1 = true) as Hlt.
    { destruct (cmp_split _ cmp_ok _ _ k (Hle _ Hin)) as [Hc|Hc]; [|done].
      apply equivalent_true in Heq as [_ Heq]. congruence. }
    rewrite Hlt.
    destruct IHl as (Hsk & es1 & e1 & es2 & E1 & E2 & E3); eauto; [lia|].
    rewrite FixUp_noop.
    + split; [simpl; by rewrite Hsk|].
      exists es1, e1, (es2 ++ e :: entries r). simpl.
      rewrite E1, E3, <- !app_assoc. done.
    + rewrite (skeleton_eq_size _ _ Hsk), wrap31_small; lia.
    + done.
    + rewrite (skeleton_eq_red _ _ Hsk), (skeleton_eq_left_red _ _ Hsk).
      destruct l; [done|]. apply Hnll.
  - (* the equivalent key is the key of this node *)
    pose proof Heq as [Hlt Hgt]%equivalent_true. rewrite Hlt, Hgt.
    split; [done|]. by exists (entries l), e, (entries r).
  - (* the equivalent key is in the right subtree *)
    assert (cmp e.1 k = true) as Hgt.
    { destruct (cmp_split _ cmp_ok _ _ k (Hre _ Hin)) as [Hc|Hc]; [done|].
      apply equivalent_true in Heq as [Heq _]. congruence. }
    assert (cmp k e.1 = false) as Hlt.
    { destruct (cmp k e.1) eqn:E; [|done].
      pose proof (cmp_trans _ cmp_ok _ _ _ Hgt E) as Hc.
      by rewrite (cmp_irrefl _ cmp_ok) in Hc. }
    rewrite Hlt, Hgt.
    destruct IHr as (Hsk & es1 & e1 & es2 & E1 & E2 & E3); eauto; [lia|].
    rewrite FixUp_noop.
    + split; [simpl; by rewrite Hsk|].
      exists (entries l ++ e :: es1), e1, es2. simpl.
      rewrite E1, E3, <- !app_assoc. done.
    + rewrite (skeleton_eq_size _ _ Hsk), wrap31_small; lia.
    + by rewrite (skeleton_eq_red _ _ Hsk).
    + destruct l; [done|]. apply Hnll.
Qed.

(** C4.  On a tree that satisfies the invariants of the data model (Black
    root, no Red right child, no Red node with a Red left child, exact
    sizes that fit the size field, keys in ascending order), the insert of
    a key equivalent to a stored key returns a tree of the same size with
    the same shape, colors and keys, the stored key included; the entry with
    the equivalent key has the new value, and every other entry is as it
    was. *)
Theorem insert_existing_key n k v :
  root_black n → left_leaning n → no_red_left n →
  size_ok n → size n < 2 ^ size_bits →
  ascending cmp (entries n) →
  (∃ e0, e0 ∈ entries n ∧ equivalent cmp k e0.1 = true) →
  size (insert cmp n k v) = size n ∧
  skeleton (insert cmp n k v) = skeleton n ∧
  (∃ es1 e0 es2,
     entries n = es1 ++ e0 :: es2 ∧ equivalent cmp k e0.1 = true ∧
     entries (insert cmp n k v) = es1 ++ (e0.1, v) :: es2) ∧
  inorder (insert cmp n k v) = entries (insert cmp n k v).
Proof.
  intros Hroot Hll Hnl Hok Hb Hasc Hex.
  destruct (InnerInsert_existing n k v) as (Hsk & Hes); try done.
  assert (insert cmp n k v = InnerInsert cmp n k v) as ->.
  { unfold insert. rewrite (skeleton_eq_red _ _ Hsk).
    unfold red, root_black in *. by rewrite Hroot. }
  assert (size_ok (InnerInsert cmp n k v)) as Hok'.
  { rewrite (size_ok_count n Hok) in Hb.
    apply wsized_size_ok.
    - apply InnerInsert_wsized; [done|lia].
    - destruct Hes as (es1 & e0 & es2 & E1 & _ & E2).
      rewrite !count_entries, E1 in Hb. rewrite !count_entries, E2.
      rewrite !length_app in *. simpl in *. lia. }
  split_and!; try done.
  - by apply skeleton_eq_size.
  - by apply size_ok_inorder.
Qed.

End ExistingKey.

Section NonEmptyTrees.

Context {K V : Type} `{Inhabited K, Inhabited V}.
Variable cmp : K → K → bool.
Hypothesis cmp_ok : StrictOrder cmp.

(** A tree returned by a run of inserts that does not report [empty()]
    meets every hypothesis of [insert_existing_key] and of
    [insert_new_key]. *)
Lemma nonempty_insert_all_valid (kvs : list (K * V)) :
  let t := insert_all cmp kvs in
  empty t = false →
  root_black t ∧ left_leaning t ∧ no_red_left t ∧
  size_ok t ∧ size t < 2 ^ size_bits ∧ ascending cmp (entries t).
Proof.
  intros t Hne.
  destruct (reachable_insert_all cmp kvs) as [Hw (h & Hn & Hb)].
  fold t in Hw, Hn, Hb.
  assert (count t < 2 ^ size_bits) as Hlt.
  { pose proof Hw as (_ & _ & _ & Hle).
    destruct (decide (count t = 2 ^ size_bits)) as [Hfull|]; [|lia].
    rewrite (wsized_full_empty t Hw Hfull) in Hne. done. }
  pose proof (wsized_size_ok t Hw Hlt) as Hok.
  split_and!; try done.
  - by apply red_false_black.
  - by apply llrb_left_leaning with h.
  - by apply llrb_no_red_left with h.
  - by rewrite (size_ok_count t Hok).
  - by apply insert_all_ascending.
Qed.

End NonEmptyTrees.

(** ** The store embedding: reads, writes and frames *)

Section StoreBasics.

Context {K V : Type} `{Inhabited K, Inhabited V}.

Implicit Types σ : Shared.store (K:=K) (V:=V).
Implicit Types D : gset positive.
Implicit Types n m : LlrbNode K V.
Implicit Types p q a : positive.

Lemma bind_run {A B} (c : Shared.M A) (f : A → Shared.M B) σ x σ' :
  c σ = Some (x, σ') → (c ≫= f) σ = f x σ'.
Proof. intros E. unfold mbind, Shared.M_bind. by rewrite E. Qed.

Section Reads.

Variables (σ : Shared.store (K:=K) (V:=V)) (p : positive)
  (r : Shared.Rep (K:=K) (V:=V)).
Hypothesis Hr : Shared.reps σ !! p = Some r.

Lemma load_run : Shared.load p σ = Some (r, σ).
Proof. unfold Shared.load. by rewrite Hr. Qed.

Lemma size_run : Shared.size p σ = Some (Shared.size_ r, σ).
Proof. unfold Shared.size. by rewrite (bind_run _ _ _ _ _ load_run). Qed.

Lemma empty_run : Shared.empty p σ = Some (Shared.size_ r =? 0, σ).
Proof. unfold Shared.empty. by rewrite (bind_run _ _ _ _ _ size_run). Qed.

Lemma color_run : Shared.color p σ = Some (Shared.color_ r, σ).
Proof. unfold Shared.color. by rewrite (bind_run _ _ _ _ _ load_run). Qed.

Lemma red_run :
  Shared.red p σ
  = Some (match Shared.color_ r with Red => true | Black => false end, σ).
Proof. unfold Shared.red. by rewrite (bind_run _ _ _ _ _ color_run). Qed.

Lemma OppositeColor_run :
  Shared.OppositeColor p σ
  = Some (match Shared.color_ r with Red => Black | Black => Red end, σ).
Proof. unfold Shared.OppositeColor. by rewrite (bind_run _ _ _ _ _ color_run). Qed.

Lemma entry_run : Shared.entry p σ = Some (Shared.entry_ r, σ).
Proof. unfold Shared.entry. by rewrite (bind_run _ _ _ _ _ load_run). Qed.

Lemma key_run : Shared.key p σ = Some ((Shared.entry_ r).1, σ).
Proof. unfold Shared.key. by rewrite (bind_run _ _ _ _ _ entry_run). Qed.

Lemma left_run : Shared.left p σ = Some (Shared.left_ r, σ).
Proof. unfold Shared.left. by rewrite (bind_run _ _ _ _ _ load_run). Qed.

Lemma right_run : Shared.right p σ = Some (Shared.right_ r, σ).
Proof. unfold Shared.right. by rewrite (bind_run _ _ _ _ _ load_run). Qed.

Lemma modify_run f :
  Shared.modify p f σ
  = Some (tt, Shared.mkStore (<[p := f r]> (Shared.reps σ)) (Shared.empty_rep σ)).
Proof. unfold Shared.modify. by rewrite Hr. Qed.

End Reads.

(** *** Frames *)

Lemma unchanged_refl σ : unchanged σ σ.
Proof. by split. Qed.

Lemma unchanged_trans σ1 σ2 σ3 :
  unchanged σ1 σ2 → unchanged σ2 σ3 → unchanged σ1 σ3.
Proof. intros [E1 H1] [E2 H2]. split; [congruence|]. auto. Qed.

Lemma unchanged_dom σ σ' : unchanged σ σ' → dom (Shared.reps σ) ⊆ dom (Shared.reps σ').
Proof.
  intros [_ Hu] p [r Hp]%elem_of_dom. apply elem_of_dom. eauto.
Qed.

Lemma unchanged_but_refl q σ : unchanged_but q σ σ.
Proof. by split_and!. Qed.

Lemma unchanged_but_trans q σ1 σ2 σ3 :
  unchanged_but q σ1 σ2 → unchanged_but q σ2 σ3 → unchanged_but q σ1 σ3.
Proof.
  intros (E1 & S1 & H1) (E2 & S2 & H2). split_and!; [congruence|set_solver|].
  intros p Hp Hd. rewrite H2, H1; auto.
Qed.

Lemma unchanged_unchanged_but q σ σ' : unchanged σ σ' → unchanged_but q σ σ'.
Proof.
  intros Hu. pose proof (unchanged_dom _ _ Hu). destruct Hu as [E Hu].
  split_and!; [done..|].
  intros p _ [r Hp]%elem_of_dom. rewrite Hp. auto.
Qed.

Lemma unchanged_but_fresh q σ σ' :
  unchanged_but q σ σ' → q ∉ dom (Shared.reps σ) → unchanged σ σ'.
Proof.
  intros (E & S & Hu) Hq. split; [done|]. intros p r Hp.
  rewrite Hu; [done| |by apply elem_of_dom].
  intros ->. apply Hq, elem_of_dom. eauto.
Qed.

Lemma store_ok_unchanged σ σ' : store_ok σ → unchanged σ σ' → store_ok σ'.
Proof.
  intros (e & He & Hs) [E Hu]. exists e. split; [congruence|auto].
Qed.

Lemma repr_mono D D' σ a n : repr D σ a n → D ⊆ D' → repr D' σ a n.
Proof.
  induction 1; intros HD; [by constructor|].
  econstructor; eauto.
Qed.

Lemma repr_dom D σ a n :
  store_ok σ → repr D σ a n → a ∈ dom (Shared.reps σ).
Proof.
  intros (e & He & Hs). destruct 1 as [a Ha|]; apply elem_of_dom; [|eauto].
  assert (a = e) as -> by congruence. eauto.
Qed.

(** A tree within [D] stays what it is as long as the [Rep]s at the
    addresses in [D] do. *)
Lemma repr_frame D σ σ' a n :
  repr D σ a n →
  Shared.empty_rep σ' = Shared.empty_rep σ →
  (∀ q, q ∈ D → Shared.reps σ' !! q = Shared.reps σ !! q) →
  repr D σ' a n.
Proof.
  intros Hrep E Hu. induction Hrep; [constructor; congruence|].
  econstructor; eauto; [congruence|]. rewrite Hu; done.
Qed.

Lemma repr_unchanged D σ σ' a n :
  D ⊆ dom (Shared.reps σ) → repr D σ a n → unchanged σ σ' → repr D σ' a n.
Proof.
  intros HD Hrep [E Hu]. apply (repr_frame D σ); [done..|].
  intros q [r Hq]%HD%elem_of_dom. rewrite Hq. auto.
Qed.

Lemma repr_unchanged_but D σ σ' q a n :
  D ⊆ dom (Shared.reps σ) → q ∉ D →
  repr D σ a n → unchanged_but q σ σ' → repr D σ' a n.
Proof.
  intros HD Hq Hrep (E & S & Hu). apply (repr_frame D σ); [done..|].
  intros p Hp. apply Hu; [|by apply HD]. by intros ->.
Qed.

(** What the accessors read at the root of a tree. *)
Lemma repr_root D σ a n :
  store_ok σ → repr D σ a n →
  ∃ al ar,
    Shared.reps σ !! a = Some (Shared.mkRep (entry n) (color n) (size n) al ar) ∧
    repr D σ al (left n) ∧ repr D σ ar (right n).
Proof.
  intros (e & He & Hs). destruct 1 as [a Ha|a e' c s al ar l r Ha HD Hl Hrl Hrr].
  - assert (a = e) as -> by congruence. exists e, e.
    split_and!; [done|by constructor..].
  - by exists al, ar.
Qed.

Lemma private_root D σ p m :
  private D σ p m →
  ∃ al ar,
    Shared.reps σ !! p = Some (Shared.mkRep (entry m) (color m) (size m) al ar) ∧
    repr D σ al (left m) ∧ repr D σ ar (right m).
Proof. by intros (_ & _ & _ & _ & _ & ?). Qed.

Lemma private_mono D D' σ p m :
  private D σ p m → D ⊆ D' → D' ⊆ dom (Shared.reps σ) → p ∉ D' →
  private D' σ p m.
Proof.
  intros (Hok & HD & He & Hp & Hm & al & ar & Hr & Hl & Hrr) H1 H2 H3.
  split_and!; try done. exists al, ar. split_and!; [done|by eapply repr_mono..].
Qed.

Lemma private_unchanged D σ σ' p m :
  private D σ p m → unchanged σ σ' → private D σ' p m.
Proof.
  intros (Hok & HD & He & Hp & Hm & al & ar & Hr & Hl & Hrr) Hu.
  pose proof (unchanged_dom _ _ Hu) as Hdom.
  split_and!; try done.
  - by eapply store_ok_unchanged.
  - set_solver.
  - destruct Hu as [-> _]. done.
  - exists al, ar. split_and!.
    + by apply Hu.
    + by eapply repr_unchanged.
    + by eapply repr_unchanged.
Qed.

(** A private node handed over to the trees. *)
Lemma private_publish D σ p m :
  private D σ p m → repr (D ∪ {[p]}) σ p m.
Proof.
  intros (Hok & HD & He & Hp & Hm & al & ar & Hr & Hl & Hrr).
  destruct m as [|e c s l r]; [done|].
  econstructor; eauto; [set_solver|eapply repr_mono; eauto; set_solver..].
Qed.

(** Overwriting the [Rep] of a private node. *)
Lemma private_update D σ p m m' r' al ar :
  private D σ p m → m' ≠ EmptyNode →
  r' = Shared.mkRep (entry m') (color m') (size m') al ar →
  repr D σ al (left m') → repr D σ ar (right m') →
  let σ' := Shared.mkStore (<[p := r']> (Shared.reps σ)) (Shared.empty_rep σ) in
  private D σ' p m' ∧ unchanged_but p σ σ'.
Proof.
  intros (Hok & HD & He & Hp & Hm & al0 & ar0 & Hr & Hl & Hrr) Hm' -> Hal Har σ'.
  assert (unchanged_but p σ σ') as Hu.
  { split_and!; [done|simpl; set_solver|]. intros q Hq _. simpl.
    by rewrite lookup_insert_ne. }
  split; [|done]. split_and!; try done.
  - destruct Hok as (e & Hee & Hs). exists e. split; [done|]. simpl.
    rewrite lookup_insert_ne; [done|]. intros ->. done.
  - simpl. set_solver.
  - exists al, ar. split_and!.
    + simpl. by rewrite lookup_insert_eq.
    + by eapply repr_unchanged_but.
    + by eapply repr_unchanged_but.
Qed.

(** Allocating. *)
Lemma make_shared_run σ r :
  ∃ q σ',
    Shared.make_shared r σ = Some (q, σ') ∧
    (q ∉ dom (Shared.reps σ)) ∧ unchanged σ σ' ∧
    Shared.reps σ' !! q = Some r ∧
    dom (Shared.reps σ') = {[q]} ∪ dom (Shared.reps σ).
Proof.
  set (q := fresh (dom (Shared.reps σ))).
  assert (q ∉ dom (Shared.reps σ)) as Hq by apply is_fresh.
  exists q, (Shared.mkStore (<[q := r]> (Shared.reps σ)) (Shared.empty_rep σ)).
  split_and!; try done.
  - split; [done|]. intros p r' Hp. simpl. rewrite lookup_insert_ne; [done|].
    intros <-. apply Hq, elem_of_dom. eauto.
  - simpl. by rewrite lookup_insert_eq.
  - simpl. by rewrite dom_insert_L.
Qed.

End StoreBasics.

(** ** The store embedding: steps on a private node *)

Section StoreSteps.

Context {K V : Type} `{Inhabited K, Inhabited V}.

Implicit Types σ : Shared.store (K:=K) (V:=V).
Implicit Types D : gset positive.
Implicit Types n m : LlrbNode K V.
Implicit Types p q a : positive.

Lemma private_ok D σ p m : private D σ p m → store_ok σ.
Proof. by intros (? & _). Qed.

Lemma private_root_at D σ p m : private D σ p m → root_at D σ p m.
Proof. apply private_root. Qed.

Lemma repr_root_at D σ a n : store_ok σ → repr D σ a n → root_at D σ a n.
Proof. apply repr_root. Qed.

Section RootReads.

Variables (D : gset positive) (σ : Shared.store (K:=K) (V:=V))
  (a : positive) (n : LlrbNode K V).
Hypothesis Hroot : root_at D σ a n.

Lemma root_entry : Shared.entry a σ = Some (entry n, σ).
Proof. destruct Hroot as (al & ar & Hr & _). by rewrite (entry_run _ _ _ Hr). Qed.

Lemma root_key : Shared.key a σ = Some (key n, σ).
Proof. destruct Hroot as (al & ar & Hr & _). by rewrite (key_run _ _ _ Hr). Qed.

Lemma root_size : Shared.size a σ = Some (size n, σ).
Proof. destruct Hroot as (al & ar & Hr & _). by rewrite (size_run _ _ _ Hr). Qed.

Lemma root_empty : Shared.empty a σ = Some (empty n, σ).
Proof. destruct Hroot as (al & ar & Hr & _). by rewrite (empty_run _ _ _ Hr). Qed.

Lemma root_red : Shared.red a σ = Some (red n, σ).
Proof. destruct Hroot as (al & ar & Hr & _). by rewrite (red_run _ _ _ Hr). Qed.

Lemma root_OppositeColor : Shared.OppositeColor a σ = Some (OppositeColor n, σ).
Proof.
  destruct Hroot as (al & ar & Hr & _). by rewrite (OppositeColor_run _ _ _ Hr).
Qed.

Lemma root_left :
  ∃ al, Shared.left a σ = Some (al, σ) ∧ repr D σ al (left n).
Proof.
  destruct Hroot as (al & ar & Hr & Hl & _). exists al.
  by rewrite (left_run _ _ _ Hr).
Qed.

Lemma root_right :
  ∃ ar, Shared.right a σ = Some (ar, σ) ∧ repr D σ ar (right n).
Proof.
  destruct Hroot as (al & ar & Hr & _ & Hrr). exists ar.
  by rewrite (right_run _ _ _ Hr).
Qed.

End RootReads.

(** *** Allocation of a node *)

Lemma alloc_private D σ m al ar :
  store_ok σ → D ⊆ dom (Shared.reps σ) → m ≠ EmptyNode →
  repr D σ al (left m) → repr D σ ar (right m) →
  ∃ q σ',
    Shared.make_shared (Shared.mkRep (entry m) (color m) (size m) al ar) σ
      = Some (q, σ') ∧
    (q ∉ dom (Shared.reps σ)) ∧ unchanged σ σ' ∧ private D σ' q m.
Proof.
  intros Hok HD Hm Hl Hr.
  destruct (make_shared_run σ (Shared.mkRep (entry m) (color m) (size m) al ar))
    as (q & σ' & Hrun & Hq & Hu & Hlook & Hdom).
  exists q, σ'. split_and!; try done.
  pose proof (unchanged_dom _ _ Hu) as Hsub.
  assert (Shared.empty_rep σ' ≠ Some q) as Hne.
  { destruct Hu as [-> _]. destruct Hok as (e & He & Hs). rewrite He.
    intros [= <-]. apply Hq, elem_of_dom. eauto. }
  split_and!; try done.
  - by eapply store_ok_unchanged.
  - clear -HD Hsub. set_solver.
  - clear -HD Hq. set_solver.
  - exists al, ar. split_and!; [done|by eapply repr_unchanged..].
Qed.

Lemma new_Rep4_spec D σ e c l r al ar :
  store_ok σ → D ⊆ dom (Shared.reps σ) →
  repr D σ al l → repr D σ ar r →
  ∃ q σ',
    Shared.new_Rep4 e c al ar σ = Some (q, σ') ∧
    (q ∉ dom (Shared.reps σ)) ∧ unchanged σ σ' ∧ private D σ' q (Rep4 e c l r).
Proof.
  intros Hok HD Hl Hr. unfold Shared.new_Rep4.
  rewrite (bind_run _ _ _ _ _ (root_size _ _ _ _ (repr_root_at _ _ _ _ Hok Hl))).
  rewrite (bind_run _ _ _ _ _ (root_size _ _ _ _ (repr_root_at _ _ _ _ Hok Hr))).
  by apply (alloc_private D σ (Rep4 e c l r)).
Qed.

Lemma Clone_spec D σ a n :
  store_ok σ → D ⊆ dom (Shared.reps σ) → repr D σ a n →
  ∃ q σ',
    Shared.Clone a σ = Some (q, σ') ∧
    (q ∉ dom (Shared.reps σ)) ∧ unchanged σ σ' ∧ private D σ' q (Clone n).
Proof.
  intros Hok HD Ha. unfold Shared.Clone.
  destruct (repr_root _ _ _ _ Hok Ha) as (al & ar & Hr & Hl & Hrr).
  rewrite (bind_run _ _ _ _ _ (load_run _ _ _ Hr)).
  by apply (alloc_private D σ (Clone n)).
Qed.

(** *** The setters *)

Lemma step_ok_update D σ p m m' al ar :
  private D σ p m → m' ≠ EmptyNode →
  repr D σ al (left m') → repr D σ ar (right m') →
  step_ok D σ p
    (Some (tt, Shared.mkStore
                 (<[p := Shared.mkRep (entry m') (color m') (size m') al ar]>
                    (Shared.reps σ))
                 (Shared.empty_rep σ)))
    m'.
Proof.
  intros Hp Hm' Hl Hr.
  destruct (private_update D σ p m m' _ al ar Hp Hm' eq_refl Hl Hr) as [Hp' Hu].
  eexists _, D. split_and!; [done..|set_solver|done].
Qed.

Lemma set_size_spec D σ p m s :
  private D σ p m → step_ok D σ p (Shared.set_size p s σ) (set_size m s).
Proof.
  intros Hp. destruct (private_root _ _ _ _ Hp) as (al & ar & Hr & Hl & Hrr).
  unfold Shared.set_size. rewrite (modify_run _ _ _ Hr).
  by apply (step_ok_update D σ p m (set_size m s)).
Qed.

Lemma set_entry_spec D σ p m e :
  private D σ p m → step_ok D σ p (Shared.set_entry p e σ) (set_entry m e).
Proof.
  intros Hp. destruct (private_root _ _ _ _ Hp) as (al & ar & Hr & Hl & Hrr).
  unfold Shared.set_entry. rewrite (modify_run _ _ _ Hr).
  by apply (step_ok_update D σ p m (set_entry m e)).
Qed.

Lemma set_value_spec D σ p m v :
  private D σ p m → step_ok D σ p (Shared.set_value p v σ) (set_value m v).
Proof.
  intros Hp. destruct (private_root _ _ _ _ Hp) as (al & ar & Hr & Hl & Hrr).
  unfold Shared.set_value. rewrite (modify_run _ _ _ Hr).
  by apply (step_ok_update D σ p m (set_value m v)).
Qed.

Lemma set_color_spec D σ p m c :
  private D σ p m → step_ok D σ p (Shared.set_color p c σ) (set_color m c).
Proof.
  intros Hp. destruct (private_root _ _ _ _ Hp) as (al & ar & Hr & Hl & Hrr).
  unfold Shared.set_color. rewrite (modify_run _ _ _ Hr).
  by apply (step_ok_update D σ p m (set_color m c)).
Qed.

Lemma set_left_spec D σ p m a l :
  private D σ p m → repr D σ a l →
  step_ok D σ p (Shared.set_left p a σ) (set_left m l).
Proof.
  intros Hp Ha. destruct (private_root _ _ _ _ Hp) as (al & ar & Hr & Hl & Hrr).
  unfold Shared.set_left. rewrite (modify_run _ _ _ Hr).
  by apply (step_ok_update D σ p m (set_left m l)).
Qed.

Lemma set_right_spec D σ p m a r :
  private D σ p m → repr D σ a r →
  step_ok D σ p (Shared.set_right p a σ) (set_right m r).
Proof.
  intros Hp Ha. destruct (private_root _ _ _ _ Hp) as (al & ar & Hr & Hl & Hrr).
  unfold Shared.set_right. rewrite (modify_run _ _ _ Hr).
  by apply (step_ok_update D σ p m (set_right m r)).
Qed.

(** *** Sequencing *)

Lemma grown_trans (D D1 D2 A A1 A2 : gset positive) :
  D1 ⊆ D ∪ (A1 ∖ A) → D2 ⊆ D1 ∪ (A2 ∖ A1) → A ⊆ A1 → A1 ⊆ A2 →
  D2 ⊆ D ∪ (A2 ∖ A).
Proof.
  intros H1 H2 S1 S2 x Hx. apply H2 in Hx. apply elem_of_union in Hx as [Hx|Hx].
  - apply H1 in Hx. apply elem_of_union in Hx as [Hx|Hx];
      [by apply elem_of_union_l|].
    apply elem_of_union_r. apply elem_of_difference in Hx as [Hx1 Hx2].
    apply elem_of_difference. split; [by apply S2|done].
  - apply elem_of_union_r. apply elem_of_difference in Hx as [Hx1 Hx2].
    apply elem_of_difference. split; [done|]. intros Hc. by apply Hx2, S1.
Qed.

Lemma step_ok_bind D σ p (c : Shared.M unit) (k : unit → Shared.M unit) m1 m2 :
  step_ok D σ p (c σ) m1 →
  (∀ D1 σ1, private D1 σ1 p m1 → step_ok D1 σ1 p (k tt σ1) m2) →
  step_ok D σ p ((c ≫= k) σ) m2.
Proof.
  intros (σ1 & D1 & Hrun & Hp1 & HD1 & HD1' & Hu1) Hk.
  rewrite (bind_run _ _ _ _ _ Hrun).
  destruct (Hk D1 σ1 Hp1) as (σ2 & D2 & Hrun2 & Hp2 & HD2 & HD2' & Hu2).
  exists σ2, D2. split_and!; try done.
  - clear -HD1 HD2. set_solver.
  - destruct Hu1 as (_ & S1 & _). destruct Hu2 as (_ & S2 & _).
    by eapply grown_trans.
  - by eapply unchanged_but_trans.
Qed.

Lemma step_ok_skip D σ p m :
  private D σ p m → step_ok D σ p ((mret tt : Shared.M unit) σ) m.
Proof.
  intros Hp. exists σ, D. split_and!; [done..|set_solver|apply unchanged_but_refl].
Qed.

(** A node allocated by the running call joins the trees; the private node
    [p] stays private. *)
Lemma private_adopt D σ σ' p m q t :
  private D σ p m → unchanged σ σ' → q ∉ dom (Shared.reps σ) →
  private D σ' q t →
  private (D ∪ {[q]}) σ' p m ∧ repr (D ∪ {[q]}) σ' q t.
Proof.
  intros Hp Hu Hq Hq'. split; [|by apply private_publish].
  pose proof (private_unchanged _ _ _ _ _ Hp Hu) as Hp'.
  destruct Hq' as (_ & _ & _ & _ & _ & al & ar & Hlook & _).
  destruct Hp as (_ & HD & _ & HpD & _ & al' & ar' & Hlook' & _).
  apply (private_mono D); [done|set_solver| |].
  - pose proof (unchanged_dom _ _ Hu) as Hsub.
    assert (q ∈ dom (Shared.reps σ')) as Hin by (apply elem_of_dom; eauto).
    intros x [Hx| ->%elem_of_singleton]%elem_of_union; [by apply Hsub, HD|done].
  - assert (p ∈ dom (Shared.reps σ)) as Hin by (apply elem_of_dom; eauto).
    intros [Hx| ->%elem_of_singleton]%elem_of_union; done.
Qed.

End StoreSteps.

(** ** The store embedding: rotations, color flip and fix-up *)

Section StoreMethods.

Context {K V : Type} `{Inhabited K, Inhabited V}.

Implicit Types σ : Shared.store (K:=K) (V:=V).
Implicit Types D : gset positive.
Implicit Types n m : LlrbNode K V.
Implicit Types p q a : positive.

(** The continuation of a step may rely on what the step left alone. *)
Lemma step_ok_then D σ p (c : Shared.M unit) (k : unit → Shared.M unit) m1 m2 :
  step_ok D σ p (c σ) m1 →
  (∀ D1 σ1, private D1 σ1 p m1 → D ⊆ D1 → unchanged_but p σ σ1 →
            step_ok D1 σ1 p (k tt σ1) m2) →
  step_ok D σ p ((c ≫= k) σ) m2.
Proof.
  intros (σ1 & D1 & Hrun & Hp1 & HD1 & HD1' & Hu1) Hk.
  rewrite (bind_run _ _ _ _ _ Hrun).
  destruct (Hk D1 σ1 Hp1 HD1 Hu1) as (σ2 & D2 & Hrun2 & Hp2 & HD2 & HD2' & Hu2).
  exists σ2, D2. split_and!; try done.
  - by etrans.
  - destruct Hu1 as (_ & S1 & _). destruct Hu2 as (_ & S2 & _).
    by eapply grown_trans.
  - by eapply unchanged_but_trans.
Qed.

(** A step taken after an allocation. *)
Lemma step_ok_after_alloc D σ σ1 p q res m m' t :
  private D σ p m → unchanged σ σ1 → q ∉ dom (Shared.reps σ) →
  private D σ1 q t →
  step_ok (D ∪ {[q]}) σ1 p res m' →
  step_ok D σ p res m'.
Proof.
  intros Hp Hu Hq Hq' (σ2 & D2 & Hrun & Hp2 & HD2 & HD2' & Hu2).
  exists σ2, D2. split_and!; try done.
  - etrans; [|done]. apply union_subseteq_l.
  - pose proof (unchanged_dom _ _ Hu) as S1. destruct Hu2 as (_ & S2 & _).
    apply (grown_trans D (D ∪ {[q]}) D2 _ (dom (Shared.reps σ1))); try done.
    destruct Hq' as (_ & _ & _ & _ & _ & al & ar & Hlook & _).
    assert (q ∈ dom (Shared.reps σ1)) as Hin by (apply elem_of_dom; eauto).
    intros x [Hx| ->%elem_of_singleton]%elem_of_union;
      [by apply elem_of_union_l|].
    apply elem_of_union_r, elem_of_difference. done.
  - eapply unchanged_but_trans; [|done]. by apply unchanged_unchanged_but.
Qed.

Lemma repr_step D D1 σ σ1 p m a n :
  private D σ p m → D ⊆ D1 → unchanged_but p σ σ1 →
  repr D σ a n → repr D1 σ1 a n.
Proof.
  intros (_ & HD & _ & Hp & _) HD1 Hu Ha.
  eapply repr_mono; [|done]. by eapply repr_unchanged_but.
Qed.

Lemma private_dom D σ p m : private D σ p m → D ⊆ dom (Shared.reps σ).
Proof. by intros (_ & ? & _). Qed.

Lemma RotateLeft_refines : refines Shared.RotateLeft (RotateLeft (K:=K) (V:=V)).
Proof.
  intros D σ p m Hp.
  pose proof (private_ok _ _ _ _ Hp) as Hok.
  pose proof (private_dom _ _ _ _ Hp) as HD.
  pose proof (private_root_at _ _ _ _ Hp) as Hroot.
  unfold Shared.RotateLeft.
  rewrite (bind_run _ _ _ _ _ (root_entry _ _ _ _ Hroot)).
  destruct (root_left _ _ _ _ Hroot) as (al & Hrun_l & Hal).
  rewrite (bind_run _ _ _ _ _ Hrun_l).
  destruct (root_right _ _ _ _ Hroot) as (ar & Hrun_r & Har).
  rewrite (bind_run _ _ _ _ _ Hrun_r).
  destruct (root_left _ _ _ _ (repr_root_at _ _ _ _ Hok Har))
    as (arl & Hrun_rl & Harl).
  rewrite (bind_run _ _ _ _ _ Hrun_rl).
  destruct (new_Rep4_spec D σ (entry m) Red _ _ al arl Hok HD Hal Harl)
    as (q & σ1 & Hrun_q & Hq & Hu & Hq').
  rewrite (bind_run _ _ _ _ _ Hrun_q).
  apply (step_ok_after_alloc D σ σ1 p q _ m _ _ Hp Hu Hq Hq').
  destruct (private_adopt D σ σ1 p m q _ Hp Hu Hq Hq') as [Hp1 Hnew].
  pose proof (private_ok _ _ _ _ Hp1) as Hok1.
  pose proof (private_root_at _ _ _ _ Hp1) as Hroot1.
  destruct (root_right _ _ _ _ Hroot1) as (ar1 & Hrun_r1 & Har1).
  rewrite (bind_run _ _ _ _ _ Hrun_r1).
  rewrite (bind_run _ _ _ _ _
             (root_entry _ _ _ _ (repr_root_at _ _ _ _ Hok1 Har1))).
  eapply step_ok_then; [apply (set_entry_spec _ _ _ _ _ Hp1)|].
  intros D2 σ2 Hp2 HD2 Hu2.
  eapply step_ok_then.
  { eapply (set_left_spec _ _ _ _ _ _ Hp2).
    exact (repr_step _ _ _ _ _ _ _ _ Hp1 HD2 Hu2 Hnew). }
  intros D3 σ3 Hp3 HD3 Hu3.
  pose proof (private_ok _ _ _ _ Hp3) as Hok3.
  destruct (root_right _ _ _ _ (private_root_at _ _ _ _ Hp3))
    as (ar3 & Hrun_r3 & Har3).
  rewrite (bind_run _ _ _ _ _ Hrun_r3).
  destruct (root_right _ _ _ _ (repr_root_at _ _ _ _ Hok3 Har3))
    as (arr & Hrun_rr & Harr).
  rewrite (bind_run _ _ _ _ _ Hrun_rr).
  by eapply (set_right_spec _ _ _ _ _ _ Hp3).
Qed.

Lemma RotateRight_refines :
  refines Shared.RotateRight (RotateRight (K:=K) (V:=V)).
Proof.
  intros D σ p m Hp.
  pose proof (private_ok _ _ _ _ Hp) as Hok.
  pose proof (private_dom _ _ _ _ Hp) as HD.
  pose proof (private_root_at _ _ _ _ Hp) as Hroot.
  unfold Shared.RotateRight.
  rewrite (bind_run _ _ _ _ _ (root_entry _ _ _ _ Hroot)).
  destruct (root_left _ _ _ _ Hroot) as (al & Hrun_l & Hal).
  rewrite (bind_run _ _ _ _ _ Hrun_l).
  destruct (root_right _ _ _ _ (repr_root_at _ _ _ _ Hok Hal))
    as (alr & Hrun_lr & Halr).
  rewrite (bind_run _ _ _ _ _ Hrun_lr).
  destruct (root_right _ _ _ _ Hroot) as (ar & Hrun_r & Har).
  rewrite (bind_run _ _ _ _ _ Hrun_r).
  destruct (new_Rep4_spec D σ (entry m) Red _ _ alr ar Hok HD Halr Har)
    as (q & σ1 & Hrun_q & Hq & Hu & Hq').
  rewrite (bind_run _ _ _ _ _ Hrun_q).
  apply (step_ok_after_alloc D σ σ1 p q _ m _ _ Hp Hu Hq Hq').
  destruct (private_adopt D σ σ1 p m q _ Hp Hu Hq Hq') as [Hp1 Hnew].
  pose proof (private_ok _ _ _ _ Hp1) as Hok1.
  pose proof (private_root_at _ _ _ _ Hp1) as Hroot1.
  destruct (root_left _ _ _ _ Hroot1) as (al1 & Hrun_l1 & Hal1).
  rewrite (bind_run _ _ _ _ _ Hrun_l1).
  rewrite (bind_run _ _ _ _ _
             (root_entry _ _ _ _ (repr_root_at _ _ _ _ Hok1 Hal1))).
  eapply step_ok_then; [apply (set_entry_spec _ _ _ _ _ Hp1)|].
  intros D2 σ2 Hp2 HD2 Hu2.
  pose proof (private_ok _ _ _ _ Hp2) as Hok2.
  destruct (root_left _ _ _ _ (private_root_at _ _ _ _ Hp2))
    as (al2 & Hrun_l2 & Hal2).
  rewrite (bind_run _ _ _ _ _ Hrun_l2).
  destruct (root_left _ _ _ _ (repr_root_at _ _ _ _ Hok2 Hal2))
    as (all & Hrun_ll & Hall).
  rewrite (bind_run _ _ _ _ _ Hrun_ll).
  eapply step_ok_then; [by eapply (set_left_spec _ _ _ _ _ _ Hp2)|].
  intros D3 σ3 Hp3 HD3 Hu3.
  eapply (set_right_spec _ _ _ _ _ _ Hp3).
  eapply (repr_step _ _ _ _ _ _ _ _ Hp2 HD3 Hu3).
  exact (repr_step _ _ _ _ _ _ _ _ Hp1 HD2 Hu2 Hnew).
Qed.

Lemma set_color_run D σ p m c :
  private D σ p m →
  ∃ σ', Shared.set_color p c σ = Some (tt, σ') ∧
        private D σ' p (set_color m c) ∧ unchanged_but p σ σ'.
Proof.
  intros Hp. destruct (private_root _ _ _ _ Hp) as (al & ar & Hr & Hl & Hrr).
  unfold Shared.set_color. rewrite (modify_run _ _ _ Hr).
  eexists. split; [done|].
  by apply (private_update D σ p m (set_color m c) _ al ar).
Qed.

(** A clone given a color: one more node for the trees, nothing else
    touched. *)
Lemma recolored_clone D σ q σ1 t c :
  (q ∉ dom (Shared.reps σ)) → unchanged σ σ1 → private D σ1 q (Clone t) →
  ∃ σ2, Shared.set_color q c σ1 = Some (tt, σ2) ∧
        unchanged σ σ2 ∧ private D σ2 q (set_color (Clone t) c).
Proof.
  intros Hq Hu Hq'.
  destruct (set_color_run D σ1 q _ c Hq') as (σ2 & Hrun & Hq2 & Hu2).
  exists σ2. split_and!; [done| |done].
  apply (unchanged_but_fresh q); [|done].
  eapply unchanged_but_trans; [|done]. by apply unchanged_unchanged_but.
Qed.

Lemma FlipColor_refines : refines Shared.FlipColor (FlipColor (K:=K) (V:=V)).
Proof.
  intros D σ p m Hp.
  pose proof (private_ok _ _ _ _ Hp) as Hok.
  pose proof (private_dom _ _ _ _ Hp) as HD.
  unfold Shared.FlipColor.
  (* the left clone *)
  destruct (root_left _ _ _ _ (private_root_at _ _ _ _ Hp)) as (al & Hrun_l & Hal).
  rewrite (bind_run _ _ _ _ _ Hrun_l).
  destruct (Clone_spec D σ al _ Hok HD Hal) as (q1 & σ1 & Hrun_c1 & Hq1 & Hu1 & Hq1').
  rewrite (bind_run _ _ _ _ _ Hrun_c1).
  pose proof (private_unchanged _ _ _ _ _ Hp Hu1) as Hp1.
  destruct (root_left _ _ _ _ (private_root_at _ _ _ _ Hp1)) as (al1 & Hrun_l1 & Hal1).
  rewrite (bind_run _ _ _ _ _ Hrun_l1).
  rewrite (bind_run _ _ _ _ _ (root_OppositeColor _ _ _ _
             (repr_root_at _ _ _ _ (private_ok _ _ _ _ Hp1) Hal1))).
  destruct (recolored_clone D σ q1 σ1 _ (OppositeColor (left m)) Hq1 Hu1 Hq1')
    as (σ2 & Hrun_s1 & Hu2 & Hq2').
  rewrite (bind_run _ _ _ _ _ Hrun_s1).
  apply (step_ok_after_alloc D σ σ2 p q1 _ m _ _ Hp Hu2 Hq1 Hq2').
  destruct (private_adopt D σ σ2 p m q1 _ Hp Hu2 Hq1 Hq2') as [Hp2 Hnl].
  clear Hp1 al1 Hrun_l1 Hal1 Hrun_c1 Hrun_s1 Hq1' Hu1 σ1.
  (* the right clone *)
  set (D1 := D ∪ {[q1]}) in *.
  pose proof (private_ok _ _ _ _ Hp2) as Hok2.
  pose proof (private_dom _ _ _ _ Hp2) as HD2.
  destruct (root_right _ _ _ _ (private_root_at _ _ _ _ Hp2)) as (ar & Hrun_r & Har).
  rewrite (bind_run _ _ _ _ _ Hrun_r).
  destruct (Clone_spec D1 σ2 ar _ Hok2 HD2 Har) as (q2 & σ3 & Hrun_c2 & Hq2 & Hu3 & Hq3').
  rewrite (bind_run _ _ _ _ _ Hrun_c2).
  pose proof (private_unchanged _ _ _ _ _ Hp2 Hu3) as Hp3.
  destruct (root_right _ _ _ _ (private_root_at _ _ _ _ Hp3)) as (ar3 & Hrun_r3 & Har3).
  rewrite (bind_run _ _ _ _ _ Hrun_r3).
  rewrite (bind_run _ _ _ _ _ (root_OppositeColor _ _ _ _
             (repr_root_at _ _ _ _ (private_ok _ _ _ _ Hp3) Har3))).
  destruct (recolored_clone D1 σ2 q2 σ3 _ (OppositeColor (right m)) Hq2 Hu3 Hq3')
    as (σ4 & Hrun_s2 & Hu4 & Hq4').
  rewrite (bind_run _ _ _ _ _ Hrun_s2).
  apply (step_ok_after_alloc D1 σ2 σ4 p q2 _ m _ _ Hp2 Hu4 Hq2 Hq4').
  destruct (private_adopt D1 σ2 σ4 p m q2 _ Hp2 Hu4 Hq2 Hq4') as [Hp4 Hnr].
  assert (repr (D1 ∪ {[q2]}) σ4 q1
            (set_color (Clone (left m)) (OppositeColor (left m)))) as Hnl4.
  { eapply repr_mono; [|apply union_subseteq_l]. by eapply repr_unchanged. }
  (* the node itself *)
  rewrite (bind_run _ _ _ _ _ (root_OppositeColor _ _ _ _
             (private_root_at _ _ _ _ Hp4))).
  eapply step_ok_then; [apply (set_color_spec _ _ _ _ _ Hp4)|].
  intros D5 σ5 Hp5 HD5 Hu5.
  eapply step_ok_then.
  { eapply (set_left_spec _ _ _ _ _ _ Hp5).
    exact (repr_step _ _ _ _ _ _ _ _ Hp4 HD5 Hu5 Hnl4). }
  intros D6 σ6 Hp6 HD6 Hu6.
  eapply (set_right_spec _ _ _ _ _ _ Hp6).
  eapply (repr_step _ _ _ _ _ _ _ _ Hp5 HD6 Hu6).
  exact (repr_step _ _ _ _ _ _ _ _ Hp4 HD5 Hu5 Hnr).
Qed.

Lemma step_ok_if D σ p (b : bool) op (f : LlrbNode K V → LlrbNode K V) m :
  refines op f → private D σ p m →
  step_ok D σ p ((if b then op p else mret tt) σ) (if b then f m else m).
Proof. intros Hop Hp. destruct b; [by apply Hop|by apply step_ok_skip]. Qed.

Lemma FixUp_refines : refines Shared.FixUp (FixUp (K:=K) (V:=V)).
Proof.
  intros D σ p m Hp.
  pose proof (private_ok _ _ _ _ Hp) as Hok.
  unfold Shared.FixUp, FixUp.
  destruct (root_left _ _ _ _ (private_root_at _ _ _ _ Hp)) as (al1 & Hrun_l & Hal).
  rewrite (bind_run _ _ _ _ _ Hrun_l).
  rewrite (bind_run _ _ _ _ _ (root_size _ _ _ _ (repr_root_at _ _ _ _ Hok Hal))).
  destruct (root_right _ _ _ _ (private_root_at _ _ _ _ Hp)) as (ar1 & Hrun_r & Har).
  rewrite (bind_run _ _ _ _ _ Hrun_r).
  rewrite (bind_run _ _ _ _ _ (root_size _ _ _ _ (repr_root_at _ _ _ _ Hok Har))).
  eapply step_ok_then; [apply (set_size_spec _ _ _ _ _ Hp)|].
  intros D1 σ1 Hp1 _ _. clear dependent σ. clear dependent D.
  set (m1 := set_size m _) in *. cbv zeta.
  pose proof (private_ok _ _ _ _ Hp1) as Hok.
  destruct (root_right _ _ _ _ (private_root_at _ _ _ _ Hp1)) as (ar2 & Hrun_r & Har).
  rewrite (bind_run _ _ _ _ _ Hrun_r).
  rewrite (bind_run _ _ _ _ _ (root_red _ _ _ _ (repr_root_at _ _ _ _ Hok Har))).
  destruct (root_left _ _ _ _ (private_root_at _ _ _ _ Hp1)) as (al2 & Hrun_l & Hal).
  rewrite (bind_run _ _ _ _ _ Hrun_l).
  rewrite (bind_run _ _ _ _ _ (root_red _ _ _ _ (repr_root_at _ _ _ _ Hok Hal))).
  eapply step_ok_then; [by apply step_ok_if; [apply RotateLeft_refines|]|].
  intros D2 σ2 Hp2 _ _. clear dependent σ1. clear dependent D1.
  set (m2 := if red (right m1) && negb (red (left m1)) then _ else _) in *.
  pose proof (private_ok _ _ _ _ Hp2) as Hok.
  destruct (root_left _ _ _ _ (private_root_at _ _ _ _ Hp2)) as (al3 & Hrun_l & Hal).
  rewrite (bind_run _ _ _ _ _ Hrun_l).
  rewrite (bind_run _ _ _ _ _ (root_red _ _ _ _ (repr_root_at _ _ _ _ Hok Hal))).
  destruct (root_left _ _ _ _ (repr_root_at _ _ _ _ Hok Hal)) as (all3 & Hrun_ll & Hall).
  rewrite (bind_run _ _ _ _ _ Hrun_ll).
  rewrite (bind_run _ _ _ _ _ (root_red _ _ _ _ (repr_root_at _ _ _ _ Hok Hall))).
  eapply step_ok_then; [by apply step_ok_if; [apply RotateRight_refines|]|].
  intros D3 σ3 Hp3 _ _. clear dependent σ2. clear dependent D2.
  set (m3 := if red (left m2) && red (left (left m2)) then _ else _) in *.
  pose proof (private_ok _ _ _ _ Hp3) as Hok.
  destruct (root_left _ _ _ _ (private_root_at _ _ _ _ Hp3)) as (al4 & Hrun_l & Hal).
  rewrite (bind_run _ _ _ _ _ Hrun_l).
  rewrite (bind_run _ _ _ _ _ (root_red _ _ _ _ (repr_root_at _ _ _ _ Hok Hal))).
  destruct (root_right _ _ _ _ (private_root_at _ _ _ _ Hp3)) as (ar4 & Hrun_r & Har).
  rewrite (bind_run _ _ _ _ _ Hrun_r).
  rewrite (bind_run _ _ _ _ _ (root_red _ _ _ _ (repr_root_at _ _ _ _ Hok Har))).
  by apply step_ok_if; [apply FlipColor_refines|].
Qed.

End StoreMethods.

(** ** The store embedding: the recursive insert *)

Section StoreInsert.

Context {K V : Type} `{Inhabited K, Inhabited V}.
Variable cmp : K → K → bool.

Implicit Types σ : Shared.store (K:=K) (V:=V).
Implicit Types D : gset positive.
Implicit Types n m : LlrbNode K V.
Implicit Types p q a : positive.

Lemma EmptyRep_run D σ :
  store_ok σ →
  ∃ e, Shared.EmptyRep σ = Some (e, σ) ∧ repr D σ e (EmptyNode (K:=K) (V:=V)).
Proof.
  intros (e & He & Hs). exists e. unfold Shared.EmptyRep. rewrite He.
  split; [done|by constructor].
Qed.

Lemma private_fresh_dom D σ p m : private D σ p m → p ∈ dom (Shared.reps σ).
Proof.
  intros (_ & _ & _ & _ & _ & al & ar & Hr & _). apply elem_of_dom. eauto.
Qed.

(** The node a recursive call returns joins the trees its caller's clone
    may point into. *)
Lemma private_adopt_grown D D2 σ σ' p m q t :
  private D σ p m → unchanged σ σ' → q ∉ dom (Shared.reps σ) →
  private D2 σ' q t → D ⊆ D2 →
  D2 ⊆ D ∪ (dom (Shared.reps σ') ∖ dom (Shared.reps σ)) →
  private (D2 ∪ {[q]}) σ' p m ∧ repr (D2 ∪ {[q]}) σ' q t.
Proof.
  intros Hp Hu Hq Hq' HD2 HD2'. split; [|by apply private_publish].
  pose proof (private_unchanged _ _ _ _ _ Hp Hu) as Hp'.
  pose proof (private_fresh_dom _ _ _ _ Hp) as Hpin.
  pose proof (private_fresh_dom _ _ _ _ Hq') as Hqin.
  pose proof (private_dom _ _ _ _ Hq') as Hsub.
  destruct Hp as (_ & _ & _ & HpD & _).
  apply (private_mono D); [done| | |].
  - etrans; [done|apply union_subseteq_l].
  - intros x [Hx| ->%elem_of_singleton]%elem_of_union; [by apply Hsub|done].
  - intros [Hx| ->%elem_of_singleton]%elem_of_union; [|done].
    apply HD2' in Hx. apply elem_of_union in Hx as [Hx|Hx]; [done|].
    by apply elem_of_difference in Hx as [_ Hx].
Qed.

Lemma descent_tail D D2 σ σ1 σ2 q n a' t
    (set : positive → positive → Shared.M unit)
    (setv : LlrbNode K V → LlrbNode K V → LlrbNode K V) :
  (∀ D σ p m a l, private D σ p m → repr D σ a l →
                  step_ok D σ p (set p a σ) (setv m l)) →
  (q ∉ dom (Shared.reps σ)) → unchanged σ σ1 → private D σ1 q n →
  unchanged σ1 σ2 → a' ∉ dom (Shared.reps σ1) → private D2 σ2 a' t →
  D ⊆ D2 → D2 ⊆ D ∪ (dom (Shared.reps σ2) ∖ dom (Shared.reps σ1)) →
  ∃ σ' D',
    (set q a';; Shared.FixUp q;; mret q) σ2 = Some (q, σ') ∧
    private D' σ' q (FixUp (setv n t)) ∧ D ⊆ D' ∧
    D' ⊆ D ∪ (dom (Shared.reps σ') ∖ dom (Shared.reps σ)) ∧
    unchanged σ σ'.
Proof.
  intros Hset Hq Hu1 Hq1 Hu2 Ha' Ha2 HD2 HD2'.
  destruct (private_adopt_grown D D2 σ1 σ2 q n a' t Hq1 Hu2 Ha' Ha2 HD2 HD2')
    as [Hq2 Hrep].
  destruct (Hset _ _ _ _ _ _ Hq2 Hrep) as (σ3 & D3 & Hrun3 & Hq3 & HD3 & HD3' & Hu3).
  rewrite (bind_run _ _ _ _ _ Hrun3).
  destruct (FixUp_refines _ _ _ _ Hq3) as (σ4 & D4 & Hrun4 & Hq4 & HD4 & HD4' & Hu4).
  rewrite (bind_run _ _ _ _ _ Hrun4).
  exists σ4, D4. split_and!; try done.
  - etrans; [done|]. etrans; [apply union_subseteq_l|]. by etrans.
  - pose proof (unchanged_dom _ _ Hu1) as S1.
    pose proof (unchanged_dom _ _ Hu2) as S2.
    destruct Hu3 as (_ & S3 & _). destruct Hu4 as (_ & S4 & _).
    assert (D2 ∪ {[a']} ⊆ D ∪ (dom (Shared.reps σ2) ∖ dom (Shared.reps σ)))
      as Hg2.
    { pose proof (private_fresh_dom _ _ _ _ Ha2) as Hin.
      intros x [Hx| ->%elem_of_singleton]%elem_of_union.
      - apply HD2' in Hx. apply elem_of_union in Hx as [Hx|Hx];
          [by apply elem_of_union_l|].
        apply elem_of_difference in Hx as [Hx1 Hx2].
        apply elem_of_union_r, elem_of_difference. split; [done|].
        intros Hc. by apply Hx2, S1.
      - apply elem_of_union_r, elem_of_difference. split; [done|].
        intros Hc. by apply Ha', S1. }
    eapply grown_trans; [|exact HD4'| |exact S4].
    + eapply grown_trans; [exact Hg2|exact HD3'| |exact S3]. by etrans.
    + etrans; [exact S1|]. by etrans.
  - apply (unchanged_but_fresh q); [|done].
    eapply unchanged_but_trans; [|exact Hu4].
    eapply unchanged_but_trans; [|exact Hu3].
    apply unchanged_unchanged_but. by eapply unchanged_trans.
Qed.

(** The recursive insert of the store embedding returns a new node that
    holds what the value embedding computes, and leaves every [Rep] that
    was there before as it was. *)
Lemma InnerInsert_refines fuel n D σ a k v :
  (height n < fuel)%nat → store_ok σ → D ⊆ dom (Shared.reps σ) →
  repr D σ a n →
  ∃ a' σ' D',
    Shared.InnerInsert cmp fuel a k v σ = Some (a', σ') ∧
    private D' σ' a' (InnerInsert cmp n k v) ∧ D ⊆ D' ∧
    D' ⊆ D ∪ (dom (Shared.reps σ') ∖ dom (Shared.reps σ)) ∧
    unchanged σ σ' ∧ a' ∉ dom (Shared.reps σ).
Proof.
  revert n D σ a. induction fuel as [|fuel IH]; intros n D σ a Hfuel Hok HD Ha;
    [lia|].
  cbn [Shared.InnerInsert].
  rewrite (bind_run _ _ _ _ _ (root_empty _ _ _ _ (repr_root_at _ _ _ _ Hok Ha))).
  destruct (empty n) eqn:Hempty.
  - (* an empty receiver: a new leaf *)
    rewrite (InnerInsert_empty cmp n k v Hempty).
    unfold Shared.LlrbNode_default.
    destruct (EmptyRep_run D σ Hok) as (e & Hrun_e & He).
    rewrite !(bind_run _ _ _ _ _ Hrun_e).
    destruct (new_Rep4_spec D σ (k, v) Red _ _ e e Hok HD He He)
      as (q & σ1 & Hrun & Hq & Hu & Hq').
    exists q, σ1, D. split_and!; try done. apply union_subseteq_l.
  - destruct n as [|e c s l r]; [done|].
    rewrite (InnerInsert_unfold cmp e c s l r k v Hempty).
    destruct (Clone_spec D σ a _ Hok HD Ha) as (q & σ1 & Hrun_c & Hq & Hu1 & Hq1).
    rewrite (bind_run _ _ _ _ _ Hrun_c).
    change (Clone (Node e c s l r)) with (Node e c s l r) in Hq1.
    pose proof (private_ok _ _ _ _ Hq1) as Hok1.
    pose proof (private_dom _ _ _ _ Hq1) as HD1.
    pose proof (repr_unchanged _ _ _ _ _ HD Ha Hu1) as Ha1.
    rewrite (bind_run _ _ _ _ _ (root_key _ _ _ _ (repr_root_at _ _ _ _ Hok1 Ha1))).
    change (key (Node e c s l r)) with e.1. cbv zeta.
    simpl in Hfuel.
    destruct (cmp k e.1); [|destruct (cmp e.1 k)].
    + (* the key sorts before the key of this node *)
      destruct (root_left _ _ _ _ (private_root_at _ _ _ _ Hq1))
        as (al & Hrun_l & Hal).
      rewrite (bind_run _ _ _ _ _ Hrun_l).
      destruct (IH l D σ1 al ltac:(lia) Hok1 HD1 Hal)
        as (a' & σ2 & D2 & Hrun_i & Ha2 & HD2 & HD2' & Hu2 & Ha').
      rewrite (bind_run _ _ _ _ _ Hrun_i).
      destruct (descent_tail D D2 σ σ1 σ2 q _ a' _ Shared.set_left set_left
                  (λ D σ p m a l, set_left_spec D σ p m a l)
                  Hq Hu1 Hq1 Hu2 Ha' Ha2 HD2 HD2')
        as (σ' & D' & Hrun & Hq' & HD' & HD'' & Hu').
      exists q, σ', D'. by split_and!.
    + (* the key sorts after the key of this node *)
      destruct (root_right _ _ _ _ (private_root_at _ _ _ _ Hq1))
        as (ar & Hrun_r & Har).
      rewrite (bind_run _ _ _ _ _ Hrun_r).
      destruct (IH r D σ1 ar ltac:(lia) Hok1 HD1 Har)
        as (a' & σ2 & D2 & Hrun_i & Ha2 & HD2 & HD2' & Hu2 & Ha').
      rewrite (bind_run _ _ _ _ _ Hrun_i).
      destruct (descent_tail D D2 σ σ1 σ2 q _ a' _ Shared.set_right set_right
                  (λ D σ p m a l, set_right_spec D σ p m a l)
                  Hq Hu1 Hq1 Hu2 Ha' Ha2 HD2 HD2')
        as (σ' & D' & Hrun & Hq' & HD' & HD'' & Hu').
      exists q, σ', D'. by split_and!.
    + (* equivalent keys: the value of the clone is replaced *)
      destruct (set_value_spec D σ1 q _ v Hq1)
        as (σ2 & D2 & Hrun & Hq2 & HD2 & HD2' & Hu2).
      rewrite (bind_run _ _ _ _ _ Hrun).
      exists q, σ2, D2. split_and!; try done.
      * pose proof (unchanged_dom _ _ Hu1) as S1. destruct Hu2 as (_ & S2 & _).
        eapply grown_trans; [|exact HD2'|exact S1|exact S2].
        apply union_subseteq_l.
      * apply (unchanged_but_fresh q); [|done].
        eapply unchanged_but_trans; [|exact Hu2].
        by apply unchanged_unchanged_but.
Qed.

End StoreInsert.

(** ** The store embedding: insert, traversal, sentinel *)

Section StoreClaims.

Context {K V : Type} `{Inhabited K, Inhabited V}.
Variable cmp : K → K → bool.

Implicit Types σ : Shared.store (K:=K) (V:=V).
Implicit Types D : gset positive.
Implicit Types n m : LlrbNode K V.
Implicit Types p q a : positive.

Lemma insert_refines fuel n D σ a k v :
  (height n < fuel)%nat → store_ok σ → D ⊆ dom (Shared.reps σ) →
  repr D σ a n →
  ∃ root σ',
    Shared.insert cmp fuel a k v σ = Some (root, σ') ∧
    unchanged σ σ' ∧ (root ∉ dom (Shared.reps σ)) ∧ store_ok σ' ∧
    repr (dom (Shared.reps σ')) σ' root (insert cmp n k v).
Proof.
  intros Hfuel Hok HD Ha. unfold Shared.insert, insert.
  destruct (InnerInsert_refines cmp fuel n D σ a k v Hfuel Hok HD Ha)
    as (q & σ1 & D1 & Hrun & Hq1 & HD1 & HD1' & Hu1 & Hq).
  rewrite (bind_run _ _ _ _ _ Hrun).
  rewrite (bind_run _ _ _ _ _ (root_red _ _ _ _ (private_root_at _ _ _ _ Hq1))).
  assert (∃ σ2, (if red (InnerInsert cmp n k v)
                 then Shared.set_color q Black else mret tt) σ1 = Some (tt, σ2) ∧
                private D1 σ2 q (if red (InnerInsert cmp n k v)
                                 then set_color (InnerInsert cmp n k v) Black
                                 else InnerInsert cmp n k v) ∧
                unchanged_but q σ1 σ2) as (σ2 & Hrun2 & Hq2 & Hu2).
  { destruct (red (InnerInsert cmp n k v)).
    - apply set_color_run, Hq1.
    - exists σ1. split_and!; [done..|apply unchanged_but_refl]. }
  rewrite (bind_run _ _ _ _ _ Hrun2).
  exists q, σ2. split_and!; try done.
  - apply (unchanged_but_fresh q); [|done].
    eapply unchanged_but_trans; [|exact Hu2]. by apply unchanged_unchanged_but.
  - by eapply private_ok.
  - eapply repr_mono; [by apply private_publish|].
    pose proof (private_dom _ _ _ _ Hq2) as Hsub.
    pose proof (private_fresh_dom _ _ _ _ Hq2) as Hin.
    intros x [Hx| ->%elem_of_singleton]%elem_of_union; [by apply Hsub|done].
Qed.

Lemma inorder_refines fuel n D σ a :
  (height n < fuel)%nat → store_ok σ → repr D σ a n →
  Shared.inorder fuel a σ = Some (inorder n, σ).
Proof.
  revert n a. induction fuel as [|fuel IH]; intros n a Hfuel Hok Ha; [lia|].
  cbn [Shared.inorder].
  pose proof (repr_root_at _ _ _ _ Hok Ha) as Hroot.
  rewrite (bind_run _ _ _ _ _ (root_empty _ _ _ _ Hroot)).
  destruct n as [|e c s l r]; [done|].
  unfold empty. cbn [size inorder]. destruct (s =? 0); [done|].
  simpl in Hfuel.
  destruct (root_left _ _ _ _ Hroot) as (al & Hrun_l & Hal).
  rewrite (bind_run _ _ _ _ _ Hrun_l).
  rewrite (bind_run _ _ _ _ _ (IH l al ltac:(lia) Hok Hal)).
  rewrite (bind_run _ _ _ _ _ (root_entry _ _ _ _ Hroot)).
  destruct (root_right _ _ _ _ Hroot) as (ar & Hrun_r & Har).
  rewrite (bind_run _ _ _ _ _ Hrun_r).
  rewrite (bind_run _ _ _ _ _ (IH r ar ltac:(lia) Hok Har)).
  done.
Qed.

Lemma repr_within_dom D σ a n :
  repr D σ a n → repr (dom (Shared.reps σ)) σ a n.
Proof.
  induction 1; [by constructor|].
  econstructor; eauto. apply elem_of_dom. eauto.
Qed.

(** C3.  Let the store hold a tree T1 at a node.  [insert] on that node
    runs to its end and returns a node that was not in the store before;
    every [Rep] that was in the store is in it afterwards with the same
    entry, color, size and children; the old node still holds T1, built
    from the same [Rep]s, reports the same size and yields the same in-order
    sequence of entries; the returned node holds the tree that the value
    embedding of [insert] computes from T1. *)
Theorem insert_leaves_old_tree_unchanged fuel σ a n k v :
  store_ok σ → repr (dom (Shared.reps σ)) σ a n → (height n < fuel)%nat →
  ∃ root σ',
    Shared.insert cmp fuel a k v σ = Some (root, σ') ∧
    (∀ p r, Shared.reps σ !! p = Some r → Shared.reps σ' !! p = Some r) ∧
    Shared.empty_rep σ' = Shared.empty_rep σ ∧
    repr (dom (Shared.reps σ)) σ' a n ∧
    (Shared.size a σ = Some (size n, σ) ∧
     Shared.size a σ' = Some (size n, σ')) ∧
    (Shared.inorder fuel a σ = Some (inorder n, σ) ∧
     Shared.inorder fuel a σ' = Some (inorder n, σ')) ∧
    (root ∉ dom (Shared.reps σ)) ∧
    repr (dom (Shared.reps σ')) σ' root (insert cmp n k v).
Proof.
  intros Hok Ha Hfuel.
  destruct (insert_refines fuel n _ σ a k v Hfuel Hok (reflexivity _) Ha)
    as (root & σ' & Hrun & Hu & Hroot & Hok' & Hnew).
  pose proof (repr_unchanged _ _ _ _ _ (reflexivity _) Ha Hu) as Ha'.
  exists root, σ'. split_and!; try done.
  - apply Hu.
  - apply Hu.
  - apply (root_size _ _ _ _ (repr_root_at _ _ _ _ Hok Ha)).
  - apply (root_size _ _ _ _ (repr_root_at _ _ _ _ Hok' Ha')).
  - by eapply inorder_refines.
  - by eapply inorder_refines.
Qed.

Lemma descend_run D σ path a n :
  store_ok σ → repr D σ a n →
  ∃ a', descend path a σ = Some (a', σ) ∧ repr D σ a' (descend_value path n).
Proof.
  intros Hok. revert a n. induction path as [|[] path IH]; intros a n Ha.
  - by exists a.
  - destruct (root_right _ _ _ _ (repr_root_at _ _ _ _ Hok Ha)) as (ar & Hrun & Har).
    cbn [descend descend_value]. rewrite (bind_run _ _ _ _ _ Hrun). by apply IH.
  - destruct (root_left _ _ _ _ (repr_root_at _ _ _ _ Hok Ha)) as (al & Hrun & Hal).
    cbn [descend descend_value]. rewrite (bind_run _ _ _ _ _ Hrun). by apply IH.
Qed.

Lemma descend_value_empty path :
  descend_value path (EmptyNode (K:=K) (V:=V)) = EmptyNode.
Proof. induction path as [|[] path IH]; done. Qed.

Lemma sentinel_unique D σ a e :
  Shared.empty_rep σ = Some e → repr D σ a (EmptyNode (K:=K) (V:=V)) → a = e.
Proof. intros He Ha. inversion Ha. congruence. Qed.

(** C8.  The first call of [EmptyRep()] allocates the [Rep] of the empty
    node; from then on every call of [EmptyRep()], and so every
    default-constructed node, is that same node and the store is left as it
    is.  The node is Black, has size 0, is [empty()], and its [left()] and
    [right()] are the node itself, so that any walk down from it ends at
    it.  An [insert] leaves it as it is. *)
Theorem empty_node_is_one_shared_sentinel :
  (∀ σ, Shared.empty_rep σ = None →
     ∃ e σ', Shared.EmptyRep σ = Some (e, σ') ∧ (e ∉ dom (Shared.reps σ)) ∧
             Shared.empty_rep σ' = Some e ∧ store_ok σ' ∧
             ∀ p r, Shared.reps σ !! p = Some r → Shared.reps σ' !! p = Some r) ∧
  (∀ σ e, store_ok σ → Shared.empty_rep σ = Some e →
     Shared.EmptyRep σ = Some (e, σ) ∧
     Shared.LlrbNode_default σ = Some (e, σ) ∧
     Shared.color e σ = Some (Black, σ) ∧
     Shared.red e σ = Some (false, σ) ∧
     Shared.size e σ = Some (0, σ) ∧
     Shared.empty e σ = Some (true, σ) ∧
     Shared.left e σ = Some (e, σ) ∧
     Shared.right e σ = Some (e, σ) ∧
     (∀ path, descend path e σ = Some (e, σ)) ∧
     (∀ fuel a n k v root σ',
        repr (dom (Shared.reps σ)) σ a n →
        Shared.insert cmp fuel a k v σ = Some (root, σ') →
        (height n < fuel)%nat →
        Shared.EmptyRep σ' = Some (e, σ') ∧ store_ok σ' ∧
        Shared.reps σ' !! e = Shared.reps σ !! e)) ∧
  (LlrbNode_default = EmptyNode (K:=K) (V:=V) ∧
   color (EmptyNode (K:=K) (V:=V)) = Black ∧
   size (EmptyNode (K:=K) (V:=V)) = 0 ∧
   empty (EmptyNode (K:=K) (V:=V)) = true ∧
   left (EmptyNode (K:=K) (V:=V)) = EmptyNode ∧
   right (EmptyNode (K:=K) (V:=V)) = EmptyNode ∧
   ∀ path, descend_value path (EmptyNode (K:=K) (V:=V)) = EmptyNode).
Proof.
  split_and!; try done.
  - intros σ Hnone. unfold Shared.EmptyRep. rewrite Hnone.
    set (e := fresh (dom (Shared.reps σ))).
    assert (e ∉ dom (Shared.reps σ)) as He by apply is_fresh.
    eexists _, _. split_and!; [done..| |].
    + exists e. split; [done|]. simpl. by rewrite lookup_insert_eq.
    + intros p r Hp. simpl. rewrite lookup_insert_ne; [done|].
      intros <-. apply He, elem_of_dom. eauto.
  - intros σ e Hok He.
    assert (Shared.reps σ !! e = Some (sentinel e)) as Hs.
    { destruct Hok as (e' & He' & Hs). congruence. }
    assert (repr (dom (Shared.reps σ)) σ e (EmptyNode (K:=K) (V:=V))) as Hrep
      by by constructor.
    split_and!.
    + unfold Shared.EmptyRep. by rewrite He.
    + unfold Shared.LlrbNode_default, Shared.EmptyRep. by rewrite He.
    + by rewrite (color_run _ _ _ Hs).
    + by rewrite (red_run _ _ _ Hs).
    + by rewrite (size_run _ _ _ Hs).
    + by rewrite (empty_run _ _ _ Hs).
    + by rewrite (left_run _ _ _ Hs).
    + by rewrite (right_run _ _ _ Hs).
    + intros path.
      destruct (descend_run _ σ path e _ Hok Hrep) as (a' & Hrun & Ha').
      rewrite descend_value_empty in Ha'.
      by rewrite (sentinel_unique _ _ _ _ He Ha') in Hrun.
    + intros fuel a n k v root σ' Ha Hrun Hfuel.
      destruct (insert_refines fuel n _ σ a k v Hfuel Hok (reflexivity _) Ha)
        as (root' & σ'' & Hrun' & Hu & _ & Hok' & _).
      rewrite Hrun in Hrun'. injection Hrun' as <- <-.
      destruct Hu as [He' Hu]. split_and!; [|done|].
      * unfold Shared.EmptyRep. by rewrite He', He.
      * rewrite Hs. by apply Hu.
  - apply descend_value_empty.
Qed.

(** C5.  [InnerInsert] on the empty node returns a Red leaf of size 1 with
    the key and value and the empty node as both children; in the store
    this leaf is a newly allocated [Rep].  [insert] recolors a Red root
    Black, so the node it returns is Black. *)
Theorem insert_into_empty_and_root_color n (k : K) (v : V) :
  (InnerInsert cmp LlrbNode_default k v = Node (k, v) Red 1 EmptyNode EmptyNode ∧
   (empty n = true →
    InnerInsert cmp n k v = Node (k, v) Red 1 EmptyNode EmptyNode)) ∧
  (∀ σ e fuel,
     store_ok σ → Shared.empty_rep σ = Some e →
     ∃ leaf σ',
       Shared.InnerInsert cmp (S fuel) e k v σ = Some (leaf, σ') ∧
       (leaf ∉ dom (Shared.reps σ)) ∧
       Shared.reps σ' !! leaf = Some (Shared.mkRep (k, v) Red 1 e e) ∧
       ∀ p r, Shared.reps σ !! p = Some r → Shared.reps σ' !! p = Some r) ∧
  (insert cmp n k v =
     (if red (InnerInsert cmp n k v)
      then set_color (InnerInsert cmp n k v) Black
      else InnerInsert cmp n k v) ∧
   color (insert cmp n k v) = Black ∧ red (insert cmp n k v) = false).
Proof.
  split_and!; try done.
  - intros Hn. by rewrite InnerInsert_empty.
  - intros σ e fuel Hok He.
    assert (repr (dom (Shared.reps σ)) σ e (EmptyNode (K:=K) (V:=V))) as Hrep
      by by constructor.
    destruct (InnerInsert_refines cmp (S fuel) EmptyNode _ σ e k v
                ltac:(simpl; lia) Hok (reflexivity _) Hrep)
      as (leaf & σ' & D' & Hrun & Hleaf & _ & _ & Hu & Hfresh).
    exists leaf, σ'. split_and!; [done..| |apply Hu].
    destruct (private_root _ _ _ _ Hleaf) as (al & ar & Hlook & Hl & Hr).
    destruct Hu as [He' _]. rewrite <- He' in He.
    rewrite (sentinel_unique _ _ _ _ He Hl), (sentinel_unique _ _ _ _ He Hr)
      in Hlook.
    done.
  - unfold insert. destruct (red (InnerInsert cmp n k v)) eqn:E; [done|].
    by apply red_false_black.
  - unfold insert. by destruct (red (InnerInsert cmp n k v)) eqn:E.
Qed.

End StoreClaims.

(** ** How deep the tree gets *)

Section Balance.

Context {K V : Type} `{Inhabited K, Inhabited V}.
Variable cmp : K → K → bool.
Implicit Types n m l r : LlrbNode K V.

(** A left-leaning red-black tree of black height [h] holds at least
    [2^h - 1] entries, and no path in it is longer than [2 h], one more
    under a Red root. *)
Lemma llrb_count n h : llrb n h → 2 ^ Z.of_nat h ≤ count n + 1.
Proof.
  induction 1 as [|e s l r h Hl IHl Hr IHr Hrr|e s l r h Hl IHl Hr IHr Hlr Hrr];
    cbn [count]; [done| |lia].
  rewrite Nat2Z.inj_succ, Z.pow_succ_r by lia. lia.
Qed.

Lemma llrb_height n h :
  llrb n h → (height n ≤ 2 * h + (if red n then 1 else 0))%nat.
Proof.
  induction 1 as [|e s l r h Hl IHl Hr IHr Hrr|e s l r h Hl IHl Hr IHr Hlr Hrr];
    cbn [height]; [done|..].
  - rewrite Hrr in IHr. change (red (Node e Black s l r)) with false.
    cbv iota. destruct (red l); lia.
  - rewrite Hlr in IHl. rewrite Hrr in IHr.
    change (red (Node e Red s l r)) with true. cbv iota. lia.
Qed.

Lemma reachable_height n :
  reachable n → Z.of_nat (height n) ≤ 2 * Z.log2 (count n + 1).
Proof.
  intros (_ & h & Hn & Hb).
  pose proof (llrb_height n h Hn) as Hh. rewrite Hb in Hh.
  pose proof (llrb_count n h Hn) as Hc.
  pose proof (count_nonneg n).
  apply Z.log2_le_pow2 in Hc; lia.
Qed.

(** X1.  However long the run of inserts and whatever the comparator, no
    path of the tree it returns is longer than twice the binary logarithm
    of the number of entries plus one; as a tree never holds more than
    [2^31] entries, that is at most 62 nodes. *)
Theorem insert_all_height_logarithmic (kvs : list (K * V)) :
  let t := insert_all cmp kvs in
  Z.of_nat (height t) ≤ 2 * Z.log2 (count t + 1) ∧ (height t ≤ 62)%nat.
Proof.
  intros t. pose proof (reachable_insert_all cmp kvs) as Hr. fold t in Hr.
  pose proof (reachable_height t Hr) as Hh. split; [done|].
  destruct Hr as ((_ & _ & _ & Hle) & _).
  pose proof (count_nonneg t).
  assert (Z.log2 (count t + 1) ≤ Z.log2 2147483649) as Hl.
  { apply Z.log2_le_mono. rewrite modulus_value in Hle. lia. }
  change (Z.log2 2147483649) with 31 in Hl. lia.
Qed.

End Balance.

(** ** What the transformations keep, and what every tree has *)

Section BlackCounts.

Context {K V : Type} `{Inhabited K, Inhabited V}.
Variable cmp : K → K → bool.
Implicit Types n m l r a b : LlrbNode K V.

(** X2.  The three transformations keep the number of Black nodes on every
    path, in the cases in which [FixUp] leaves a tree balanced: a rotation
    that lifts a Red child, and a color flip that turns a Black node with
    two Red children into a Red node with two Black children.  The paths are
    listed from left to right, so that each path keeps its own count. *)
Theorem transformations_keep_black_counts (x y z : K * V) (c : Color)
    (s sy sz : Z) l r a b a' b' :
  path_blacks (RotateLeft (Node x c s l (Node y Red sy a b)))
    = path_blacks (Node x c s l (Node y Red sy a b)) ∧
  path_blacks (RotateRight (Node x c s (Node y Red sy a b) r))
    = path_blacks (Node x c s (Node y Red sy a b) r) ∧
  path_blacks (FlipColor (Node x Black s (Node y Red sy a b) (Node z Red sz a' b')))
    = path_blacks (Node x Black s (Node y Red sy a b) (Node z Red sz a' b')).
Proof.
  split_and!; cbn; rewrite ?map_app, ?map_map, <- ?app_assoc;
    repeat match goal with
    | |- map _ ?p = map _ ?p => apply map_ext; intros; lia
    | |- _ ++ _ = _ ++ _ => apply (f_equal2 app)
    end.
Qed.

(** X3.  Every red link leans left.  In the tree returned by a run of
    inserts, whatever the comparator, no node has a Red right child, be the
    node Red or Black; hence no node has two Red children either. *)
Theorem insert_all_left_leaning (kvs : list (K * V)) :
  let t := insert_all cmp kvs in
  left_leaning t ∧
  Forall_nodes (λ x, red (left x) && red (right x) = false) t.
Proof.
  intros t. destruct (reachable_insert_all cmp kvs) as (_ & h & Hn & _).
  fold t in Hn. clearbody t. split; [by apply llrb_left_leaning with h|].
  induction Hn; cbn; [done|..]; split_and!; try done;
    match goal with Hr : red ?r = false |- _ => rewrite Hr end;
    by rewrite andb_false_r.
Qed.

End BlackCounts.

(** ** The transformations undone *)

Section LocalSteps.

Context {K V : Type} `{Inhabited K, Inhabited V}.
Implicit Types n m l r a b : LlrbNode K V.

Lemma wrap31_add_l x y : wrap31 (wrap31 x + y) = wrap31 (x + y).
Proof. unfold wrap31. by rewrite Zplus_mod_idemp_l. Qed.

Lemma wrap31_add_r x y : wrap31 (x + wrap31 y) = wrap31 (x + y).
Proof. unfold wrap31. by rewrite Zplus_mod_idemp_r. Qed.

(** X4.  The two rotations undo one another.  On a node whose right child
    is Red with the size its constructor gives it, [RotateLeft] followed by
    [RotateRight] returns the node as it was; likewise [RotateRight]
    followed by [RotateLeft] on a node whose left child is such a node. *)
Theorem rotations_are_inverse (x y : K * V) (c : Color) (s : Z) l r a b :
  RotateRight (RotateLeft (Node x c s l (Rep4 y Red a b)))
    = Node x c s l (Rep4 y Red a b) ∧
  RotateLeft (RotateRight (Node x c s (Rep4 y Red a b) r))
    = Node x c s (Rep4 y Red a b) r.
Proof. done. Qed.

(** X5.  [FlipColor] on a node with two children that are not the empty
    node turns the color of the node and of both children into the
    opposite one and leaves entries, sizes and grandchildren alone; applied
    a second time it gives back the node as it was. *)
Theorem FlipColor_twice (x y z : K * V) (c cl cr : Color) (s sl sr : Z)
    ll lr rl rr :
  let opp := λ c, match c with Red => Black | Black => Red end in
  let n := Node x c s (Node y cl sl ll lr) (Node z cr sr rl rr) in
  FlipColor n
    = Node x (opp c) s (Node y (opp cl) sl ll lr) (Node z (opp cr) sr rl rr) ∧
  FlipColor (FlipColor n) = n.
Proof. by destruct c, cl, cr. Qed.

End LocalSteps.

(** ** [FixUp] applied once is enough *)

Section FixUpSettles.

Context {K V : Type} `{Inhabited K, Inhabited V}.
Implicit Types n m l r a b : LlrbNode K V.

Lemma FixUp_colors n :
  red (right (FixUp n)) = false ∧
  (red (left (FixUp n)) = true → red (left (left (FixUp n))) = false).
Proof.
  destruct n as [|e c s [|el [] sl [|ell [] sll lll llr] lr]
                       [|er [] sr rl [|err [] srr rrl rrr]]]; by cbn.
Qed.

(** X6.  [FixUp] leaves nothing to fix.  Whatever node it is given, the
    result has no Red right child and no Red left child with a Red left
    child of its own, so that none of the three guards holds of it.  If the
    size fields below the node are exact and the node holds no more than
    [2^31] entries, the size field of the result is the sum over its
    children as the 31-bit field keeps it, and a second [FixUp] changes
    nothing. *)
Theorem FixUp_leaves_nothing_to_fix n :
  let m := FixUp n in
  (red (right m) = false ∧
   (red (left m) = true → red (left (left m)) = false) ∧
   red (right m) && negb (red (left m)) = false ∧
   red (left m) && red (left (left m)) = false ∧
   red (left m) && red (right m) = false) ∧
  (size_ok (left n) → size_ok (right n) →
   count (left n) + 1 + count (right n) ≤ 2 ^ size_bits →
   size m = wrap31 (size (left m) + 1 + size (right m)) ∧ FixUp m = m).
Proof.
  intros m. destruct (FixUp_colors n) as [Hr Hl]. fold m in Hr, Hl.
  split.
  - rewrite Hr. split_and!; try done.
    + destruct (red (left m)); [by rewrite Hl|done].
    + by rewrite andb_false_r.
  - intros Hokl Hokr Hb.
    assert (wsized m) as (Hs & Hl' & Hr' & _).
    { destruct n as [|e c s l r]; [|by apply wsized_FixUp].
      unfold wsized. by cbn. }
    assert (size m = wrap31 (size (left m) + 1 + size (right m))) as Hsize.
    { rewrite Hs, (size_ok_count _ Hl'), (size_ok_count _ Hr').
      pose proof (FixUp_node n) as Hn. fold m in Hn. by destruct m. }
    split; [done|].
    pose proof (FixUp_node n) as Hn. fold m in Hn.
    destruct m as [|e c s l r]; [done|]. by apply FixUp_noop.
Qed.

End FixUpSettles.

(** ** Insert as an operation on the sequence of entries *)

Section EntriesAnyComparator.

Context {K V : Type} `{Inhabited K, Inhabited V}.
Variable cmp : K → K → bool.
Implicit Types n m l r : LlrbNode K V.
Implicit Types es : list (K * V).

(** What an insert does to the sequence of entries, read off the three
    branches of [InnerInsert]: a new entry goes between two old ones, or
    one old entry gets the value. *)
Lemma InnerInsert_entries_cases n k v :
  size_ok n →
  (∃ es1 es2, entries n = es1 ++ es2 ∧
              entries (InnerInsert cmp n k v) = es1 ++ (k, v) :: es2) ∨
  (∃ es1 e0 es2, entries n = es1 ++ e0 :: es2 ∧
                 equivalent cmp k e0.1 = true ∧
                 entries (InnerInsert cmp n k v) = es1 ++ (e0.1, v) :: es2).
Proof.
  induction n as [|e c s l IHl r IHr]; intros Hok.
  { left. by exists [], []. }
  pose proof Hok as (_ & Hl & Hr)%size_ok_node.
  rewrite InnerInsert_unfold by by apply size_ok_nonempty.
  destruct (cmp k e.1) eqn:Hlt; [|destruct (cmp e.1 k) eqn:Hgt].
  - rewrite entries_FixUp. simpl.
    destruct (IHl Hl) as [(es1 & es2 & E1 & E2)|(es1 & e0 & es2 & E1 & He & E2)].
    + left. exists es1, (es2 ++ e :: entries r).
      by rewrite E1, E2, <- !app_assoc.
    + right. exists es1, e0, (es2 ++ e :: entries r).
      by rewrite E1, E2, <- !app_assoc.
  - rewrite entries_FixUp. simpl.
    destruct (IHr Hr) as [(es1 & es2 & E1 & E2)|(es1 & e0 & es2 & E1 & He & E2)].
    + left. exists (entries l ++ e :: es1), es2.
      by rewrite E1, E2, <- !app_assoc.
    + right. exists (entries l ++ e :: es1), e0, es2.
      by rewrite E1, E2, <- !app_assoc.
  - right. exists (entries l), e, (entries r). split_and!; [done| |done].
    unfold equivalent. by rewrite Hlt, Hgt.
Qed.

(** X7.  Whatever the comparator, be it an order or not, an insert into a
    tree whose size fields are exact keeps every entry in its place: the
    in-order sequence of the result is the old sequence with [(k, v)] put
    between two of its entries, or the old sequence with the value of one
    entry, whose key is equivalent to [k], replaced by [v].  No entry is
    dropped, copied or moved past another. *)
Theorem insert_keeps_entries_in_place n k v :
  size_ok n →
  (∃ es1 es2, entries n = es1 ++ es2 ∧
              entries (insert cmp n k v) = es1 ++ (k, v) :: es2) ∨
  (∃ es1 e0 es2, entries n = es1 ++ e0 :: es2 ∧
                 equivalent cmp k e0.1 = true ∧
                 entries (insert cmp n k v) = es1 ++ (e0.1, v) :: es2).
Proof.
  intros Hok. rewrite insert_entries.
  by apply InnerInsert_entries_cases.
Qed.

End EntriesAnyComparator.

Section SortedList.

Context {K V : Type} `{Inhabited K, Inhabited V}.
Variable cmp : K → K → bool.
Hypothesis cmp_ok : StrictOrder cmp.
Implicit Types n m l r : LlrbNode K V.
Implicit Types es : list (K * V).

Lemma list_insert_before k v es1 e es2 :
  cmp k e.1 = true →
  list_insert cmp k v (es1 ++ e :: es2) = list_insert cmp k v es1 ++ e :: es2.
Proof.
  intros Hlt. induction es1 as [|a es1 IH]; simpl.
  - by rewrite Hlt.
  - destruct (cmp k a.1); [done|]. destruct (cmp a.1 k); [|done].
    by rewrite IH.
Qed.

Lemma list_insert_past k v es1 :
  Forall (λ a, cmp a.1 k = true) es1 → ∀ es2,
  list_insert cmp k v (es1 ++ es2) = es1 ++ list_insert cmp k v es2.
Proof.
  induction 1 as [|a es1 Ha _ IH]; intros es2; simpl; [done|].
  destruct (cmp k a.1) eqn:Hka.
  - pose proof (cmp_trans _ cmp_ok _ _ _ Hka Ha) as Hkk.
    by rewrite (cmp_irrefl _ cmp_ok) in Hkk.
  - by rewrite Ha, IH.
Qed.

Lemma InnerInsert_list_insert n k v :
  size_ok n → ascending cmp (entries n) →
  entries (InnerInsert cmp n k v) = list_insert cmp k v (entries n).
Proof.
  induction n as [|e c s l IHl r IHr]; intros Hok Hasc; [done|].
  pose proof Hok as (_ & Hl & Hr)%size_ok_node.
  rewrite InnerInsert_unfold by by apply size_ok_nonempty.
  simpl in Hasc. apply ascending_app in Hasc as (Hal & Har & Hle & Hre); [|done].
  cbn [entries].
  destruct (cmp k e.1) eqn:Hlt; [|destruct (cmp e.1 k) eqn:Hgt].
  - rewrite entries_FixUp. simpl.
    by rewrite list_insert_before, IHl.
  - rewrite entries_FixUp. simpl.
    rewrite list_insert_past.
    + simpl. by rewrite Hlt, Hgt, IHr.
    + eapply Forall_impl; [exact Hle|]. intros a Ha. simpl in Ha.
      by apply (cmp_trans _ cmp_ok _ e.1).
  - simpl. rewrite list_insert_past.
    + simpl. by rewrite Hlt, Hgt.
    + eapply Forall_impl; [exact Hle|]. intros a Ha. simpl in Ha.
      destruct (cmp_split _ cmp_ok _ _ k Ha) as [?|?]; congruence.
Qed.

End SortedList.

Section SortedListInsert.

Context {K V : Type} `{Inhabited K, Inhabited V}.
Variable cmp : K → K → bool.
Implicit Types n : LlrbNode K V.

(** X8.  Under a comparator that is a strict order, on a tree whose size
    fields are exact and whose keys ascend, [insert] does to the in-order
    sequence of entries what insertion into a sorted association list does:
    the pair goes in front of the first entry whose key sorts after [k], or
    the first entry with a key equivalent to [k] keeps its key and gets the
    value [v]. *)
Theorem insert_is_sorted_list_insert n k v :
  StrictOrder cmp → size_ok n → ascending cmp (entries n) →
  entries (insert cmp n k v) = list_insert cmp k v (entries n).
Proof.
  intros Hcmp Hok Hasc. rewrite insert_entries.
  by apply InnerInsert_list_insert.
Qed.

End SortedListInsert.

(** ** The tree as a finite map *)

Section FiniteMap.

Context {K V : Type} `{Inhabited K, Inhabited V} `{Countable K}.
Variable cmp : K → K → bool.
Hypothesis cmp_total : StrictTotalOrder cmp.
Implicit Types n : LlrbNode K V.
Implicit Types es : list (K * V).

(** Under a total order an insert into the list of entries is an insert
    into the finite map the list stands for. *)
Lemma list_to_map_list_insert k v es :
  (list_to_map (list_insert cmp k v es) : gmap K V)
  = <[k := v]> (list_to_map es).
Proof.
  induction es as [|[a b] es IH]; simpl; [done|].
  destruct (cmp k a) eqn:Hlt; [done|].
  destruct (cmp a k) eqn:Hgt; simpl.
  - rewrite IH. apply insert_insert_ne. intros ->.
    by rewrite (sto_irrefl _ cmp_total) in Hgt.
  - rewrite (sto_total _ cmp_total _ _ Hlt Hgt). by rewrite insert_insert_eq.
Qed.

Lemma insert_all_list_to_map (kvs : list (K * V)) :
  Z.of_nat (length kvs) ≤ 2 ^ size_bits →
  (list_to_map (entries (insert_all cmp kvs)) : gmap K V)
  = foldl (λ m kv, <[kv.1 := kv.2]> m) ∅ kvs.
Proof.
  pose proof (strict_total_order_weak cmp cmp_total) as Hcmp.
  induction kvs as [|[k v] kvs IH] using rev_ind; intros Hlen; [done|].
  rewrite length_app in Hlen. simpl in Hlen.
  rewrite insert_all_snoc, foldl_snoc. simpl. rewrite <- IH by lia.
  rewrite <- list_to_map_list_insert, insert_entries. f_equal.
  apply InnerInsert_list_insert; [done| |by apply insert_all_ascending].
  apply wsized_size_ok; [apply insert_all_wsized|].
  pose proof (count_insert_all_le cmp kvs). lia.
Qed.

End FiniteMap.

Section FiniteMapClaim.

Context {K V : Type} `{Inhabited K, Inhabited V} `{Countable K}.
Variable cmp : K → K → bool.

(** X9.  Under a strict total order, the tree that a run of fewer than
    [2^31] inserts returns holds the finite map that the run describes, a
    later insert of a key overriding an earlier one: the pair [(k, v)] is
    an entry of the tree exactly when the map binds [k] to [v], no key
    occurs in two entries, and [size()] is the number of keys of the
    map. *)
Theorem insert_all_is_the_finite_map (kvs : list (K * V)) :
  StrictTotalOrder cmp → Z.of_nat (length kvs) < 2 ^ size_bits →
  let t := insert_all cmp kvs in
  let m : gmap K V := foldl (λ m kv, <[kv.1 := kv.2]> m) ∅ kvs in
  (∀ k v, (k, v) ∈ entries t ↔ m !! k = Some v) ∧
  NoDup (entries t).*1 ∧
  size t = Z.of_nat (base.size m).
Proof.
  intros Hcmp Hlen t m.
  pose proof (strict_total_order_weak cmp Hcmp) as Hweak.
  assert (size_ok t) as Hok.
  { apply wsized_size_ok; [apply insert_all_wsized|].
    pose proof (count_insert_all_le cmp kvs). unfold t. lia. }
  assert (NoDup (entries t).*1) as Hnd.
  { apply (ascending_NoDup cmp Hweak), insert_all_ascending, Hweak. }
  assert (list_to_map (entries t) = m) as Hm.
  { apply insert_all_list_to_map; [done|lia]. }
  split_and!; [|done|].
  - intros k v. rewrite <- Hm. by rewrite <- elem_of_list_to_map.
  - rewrite (size_ok_count t Hok), count_entries, <- Hm.
    by rewrite map_size_list_to_map.
Qed.

End FiniteMapClaim.

(** ** Values and shape *)

Section Values.

Context {K V : Type} `{Inhabited K, Inhabited V}.
Variable cmp : K → K → bool.
Implicit Types n m l r : LlrbNode K V.

Lemma skeleton_right n : right (skeleton n) = skeleton (right n).
Proof. by destruct n. Qed.

Lemma skeleton_color n : color (skeleton n) = color n.
Proof. by destruct n. Qed.

Lemma skeleton_entry n : entry (skeleton n) = ((entry n).1, tt).
Proof. by destruct n. Qed.

Lemma skeleton_Rep4 e c l r :
  skeleton (Rep4 e c l r) = Rep4 (e.1, tt) c (skeleton l) (skeleton r).
Proof. unfold Rep4. simpl. by rewrite !skeleton_size. Qed.

Lemma skeleton_RotateLeft n : skeleton (RotateLeft n) = RotateLeft (skeleton n).
Proof.
  unfold RotateLeft, set_right, set_left, set_entry. cbn [skeleton entry color size left right].
  rewrite skeleton_Rep4.
  by rewrite !skeleton_entry, !skeleton_color, !skeleton_size, !skeleton_right,
    !skeleton_left, ?skeleton_right, ?skeleton_left, ?skeleton_entry.
Qed.

Lemma skeleton_RotateRight n :
  skeleton (RotateRight n) = RotateRight (skeleton n).
Proof.
  unfold RotateRight, set_right, set_left, set_entry.
  cbn [skeleton entry color size left right].
  rewrite skeleton_Rep4.
  by rewrite !skeleton_entry, !skeleton_color, !skeleton_size, !skeleton_right,
    !skeleton_left, ?skeleton_right, ?skeleton_left, ?skeleton_entry.
Qed.

Lemma skeleton_OppositeColor n : OppositeColor (skeleton n) = OppositeColor n.
Proof. unfold OppositeColor. by rewrite skeleton_color. Qed.

Lemma skeleton_FlipColor n : skeleton (FlipColor n) = FlipColor (skeleton n).
Proof. destruct n as [|e c s [|el cl sl ll lr] [|er cr sr rl rr]]; done. Qed.

Lemma skeleton_set_size n s : skeleton (set_size n s) = set_size (skeleton n) s.
Proof.
  unfold set_size. cbn [skeleton].
  by rewrite skeleton_entry, skeleton_color, skeleton_left, skeleton_right.
Qed.

Lemma skeleton_FixUp n : skeleton (FixUp n) = FixUp (skeleton n).
Proof.
  change (FixUp n) with
    (flip_color_if_needed (rotate_right_if_needed (rotate_left_if_needed
       (set_size n (size (left n) + 1 + size (right n)))))).
  change (FixUp (skeleton n)) with
    (flip_color_if_needed (rotate_right_if_needed (rotate_left_if_needed
       (set_size (skeleton n)
          (size (left (skeleton n)) + 1 + size (right (skeleton n))))))).
  rewrite skeleton_left, skeleton_right, !skeleton_size, <- skeleton_set_size.
  generalize (set_size n (size (left n) + 1 + size (right n))). intros n0.
  assert (∀ m, skeleton (rotate_left_if_needed m)
               = rotate_left_if_needed (skeleton m)) as HL.
  { intros m. unfold rotate_left_if_needed.
    rewrite skeleton_left, skeleton_right, !skeleton_red.
    destruct (_ && _); [apply skeleton_RotateLeft|done]. }
  assert (∀ m, skeleton (rotate_right_if_needed m)
               = rotate_right_if_needed (skeleton m)) as HR.
  { intros m. unfold rotate_right_if_needed.
    rewrite !skeleton_left, !skeleton_red.
    destruct (_ && _); [apply skeleton_RotateRight|done]. }
  assert (∀ m, skeleton (flip_color_if_needed m)
               = flip_color_if_needed (skeleton m)) as HF.
  { intros m. unfold flip_color_if_needed.
    rewrite skeleton_left, skeleton_right, !skeleton_red.
    destruct (_ && _); [apply skeleton_FlipColor|done]. }
  by rewrite HF, HR, HL.
Qed.

Lemma skeleton_InnerInsert n k v :
  skeleton (InnerInsert cmp n k v) = InnerInsert cmp (skeleton n) k tt.
Proof.
  induction n as [|e c s l IHl r IHr]; [done|].
  cbn [skeleton InnerInsert]. change (empty (Node (e.1, tt) c s _ _)) with (s =? 0).
  change (empty (Node e c s l r)) with (s =? 0).
  destruct (s =? 0); [done|]. cbn [fst].
  destruct (cmp k e.1); [|destruct (cmp e.1 k)].
  - rewrite skeleton_FixUp. cbn. by rewrite IHl.
  - rewrite skeleton_FixUp. cbn. by rewrite IHr.
  - done.
Qed.

Lemma skeleton_insert n k v :
  skeleton (insert cmp n k v) = insert cmp (skeleton n) k tt.
Proof.
  unfold insert. rewrite <- (skeleton_InnerInsert n k v), skeleton_red.
  destruct (red _); [|done].
  unfold set_color. cbn [skeleton].
  by rewrite skeleton_entry, skeleton_size, skeleton_left, skeleton_right.
Qed.

(** X10.  The values play no part in the shape of the tree: the keys,
    colors, sizes and links of the tree returned by [insert] are those of
    the tree returned by the same insert into the receiver stripped of its
    values.  Two receivers that differ in their values only, and two
    inserted values, give results that differ in their values only. *)
Theorem insert_shape_ignores_values n n' k v v' :
  skeleton (insert cmp n k v) = insert cmp (skeleton n) k tt ∧
  (skeleton n = skeleton n' →
   skeleton (insert cmp n k v) = skeleton (insert cmp n' k v')).
Proof.
  split; [apply skeleton_insert|].
  intros E. by rewrite !skeleton_insert, E.
Qed.

End Values.

(** ** The same key inserted twice *)

Section LastWrite.

Context {K V : Type} `{Inhabited K, Inhabited V}.
Variable cmp : K → K → bool.
Hypothesis cmp_ok : StrictOrder cmp.
Implicit Types n m l r : LlrbNode K V.
Implicit Types es : list (K * V).

Lemma list_insert_twice k v1 v2 es :
  list_insert cmp k v2 (list_insert cmp k v1 es) = list_insert cmp k v2 es.
Proof.
  pose proof (cmp_irrefl _ cmp_ok k) as Hkk.
  induction es as [|e es IH]; simpl.
  - by rewrite Hkk.
  - destruct (cmp k e.1) eqn:Hlt; simpl; [by rewrite Hkk|].
    destruct (cmp e.1 k) eqn:Hgt; simpl; rewrite Hlt, Hgt; [|done].
    by rewrite IH.
Qed.

Lemma skeleton_count n : count (skeleton n) = count n.
Proof. induction n as [|e c s l IHl r IHr]; simpl; [done|]. by rewrite IHl, IHr. Qed.

(** A tree is its shape, keys, colors and sizes together with its entries
    in order. *)
Lemma skeleton_entries_inj n m :
  skeleton n = skeleton m → entries n = entries m → n = m.
Proof.
  revert m. induction n as [|e c s l IHl r IHr]; intros [|e' c' s' l' r'] Hs He;
    try done.
  simpl in Hs. injection Hs as He1 -> -> Hl Hr.
  simpl in He. apply app_inj_1 in He as [El Er].
  - injection Er as -> Er. by rewrite (IHl l'), (IHr r').
  - apply Nat2Z.inj. rewrite <- !count_entries.
    by rewrite <- (skeleton_count l), Hl, skeleton_count.
Qed.

Lemma insert_all_last_write (kvs : list (K * V)) k v1 v2 :
  Z.of_nat (length kvs) + 1 < 2 ^ size_bits →
  let t := insert_all cmp kvs in
  insert cmp (insert cmp t k v1) k v2 = insert cmp t k v2.
Proof.
  intros Hlen t. set (t1 := insert cmp t k v1).
  pose proof (reachable_insert_all cmp kvs) as Ht. fold t in Ht.
  pose proof (count_insert_all_le cmp kvs) as Hc. fold t in Hc.
  assert (size_ok t) as Hok.
  { apply wsized_size_ok; [apply Ht|lia]. }
  assert (ascending cmp (entries t)) as Hasc by by apply insert_all_ascending.
  pose proof (reachable_insert cmp t k v1 Ht) as Ht1. fold t1 in Ht1.
  assert (count t1 < 2 ^ size_bits) as Hc1.
  { pose proof (count_insert_le cmp t k v1 (proj1 Ht)) as Hle1. fold t1 in Hle1. lia. }
  assert (size_ok t1) as Hok1.
  { apply wsized_size_ok; [apply Ht1|done]. }
  assert (ascending cmp (entries t1)) as Hasc1.
  { unfold t1, t. rewrite <- insert_all_snoc. by apply insert_all_ascending. }
  destruct Ht1 as (Hw1 & h1 & Hl1 & Hb1).
  assert (∃ e0, e0 ∈ entries t1 ∧ equivalent cmp k e0.1 = true) as Hex.
  { unfold t1. rewrite insert_entries.
    destruct (InnerInsert_entries_cases cmp t k v1 Hok)
      as [(es1 & es2 & _ & E)|(es1 & e0 & es2 & _ & He & E)]; rewrite E.
    - exists (k, v1). split; [set_solver|].
      unfold equivalent. simpl. by rewrite (cmp_irrefl _ cmp_ok).
    - exists (e0.1, v1). split; [set_solver|done]. }
  destruct (InnerInsert_existing cmp cmp_ok t1 k v2) as [Hsk _]; try done.
  { by rewrite (size_ok_count t1 Hok1). }
  { by apply llrb_left_leaning with h1. }
  { by apply llrb_no_red_left with h1. }
  assert (insert cmp t1 k v2 = InnerInsert cmp t1 k v2) as Hroot.
  { unfold insert. by rewrite (skeleton_eq_red _ _ Hsk), Hb1. }
  apply skeleton_entries_inj.
  - rewrite Hroot, Hsk. unfold t1. by rewrite !skeleton_insert.
  - rewrite !insert_entries, !InnerInsert_list_insert by done.
    unfold t1. rewrite insert_entries, InnerInsert_list_insert by done.
    apply list_insert_twice.
Qed.

End LastWrite.

Section LastWriteClaim.

Context {K V : Type} `{Inhabited K, Inhabited V}.
Variable cmp : K → K → bool.

(** X11.  The last write wins, down to the shape of the tree.  On a tree
    built by a run of fewer than [2^31 - 1] inserts, under a comparator
    that is a strict order, an insert of [(k, v1)] followed by
    an insert of [(k, v2)] returns the very tree that the insert of
    [(k, v2)] alone returns; with [v1 = v2], inserting the same pair a
    second time changes nothing. *)
Theorem insert_twice_is_last_insert (kvs : list (K * V)) k v1 v2 :
  StrictOrder cmp → Z.of_nat (length kvs) + 1 < 2 ^ size_bits →
  let t := insert_all cmp kvs in
  insert cmp (insert cmp t k v1) k v2 = insert cmp t k v2 ∧
  insert cmp (insert cmp t k v2) k v2 = insert cmp t k v2.
Proof.
  intros Hcmp Hlen t. split; by apply insert_all_last_write.
Qed.

End LastWriteClaim.

(** ** Two keys in either order *)

Section Commute.

Context {K V : Type} `{Inhabited K, Inhabited V}.
Variable cmp : K → K → bool.
Hypothesis cmp_ok : StrictOrder cmp.
Implicit Types n m l r : LlrbNode K V.
Implicit Types es : list (K * V).

Ltac order_contra :=
  match goal with
  | H1 : cmp ?a ?b = true, H2 : cmp ?b ?c = true, H3 : cmp ?a ?c = false |- _ =>
      rewrite (cmp_trans _ cmp_ok _ _ _ H1 H2) in H3; discriminate
  | H1 : cmp ?a ?b = true, H2 : cmp ?b ?a = true |- _ =>
      pose proof (cmp_trans _ cmp_ok _ _ _ H1 H2) as Hirr;
      rewrite (cmp_irrefl _ cmp_ok) in Hirr; discriminate
  | H1 : cmp ?a ?b = true, H2 : cmp ?a ?c = false, H3 : cmp ?c ?b = false |- _ =>
      destruct (cmp_split _ cmp_ok _ _ c H1); congruence
  end.

Lemma list_insert_comm k1 v1 k2 v2 es :
  equivalent cmp k1 k2 = false →
  list_insert cmp k2 v2 (list_insert cmp k1 v1 es)
  = list_insert cmp k1 v1 (list_insert cmp k2 v2 es).
Proof.
  intros Hne. unfold equivalent in Hne.
  destruct (cmp k1 k2) eqn:H12, (cmp k2 k1) eqn:H21; try done;
    try order_contra.
  - induction es as [|[a b] es IH]; simpl; rewrite ?H12, ?H21; [done|].
    destruct (cmp k1 a) eqn:Hk1e, (cmp a k1) eqn:Hek1,
      (cmp k2 a) eqn:Hk2e, (cmp a k2) eqn:Hek2;
      simpl; rewrite ?H12, ?H21, ?Hk1e, ?Hek1, ?Hk2e, ?Hek2; simpl;
      rewrite ?H12, ?H21, ?Hk1e, ?Hek1, ?Hk2e, ?Hek2;
      try done; try order_contra; by rewrite IH.
  - induction es as [|[a b] es IH]; simpl; rewrite ?H12, ?H21; [done|].
    destruct (cmp k1 a) eqn:Hk1e, (cmp a k1) eqn:Hek1,
      (cmp k2 a) eqn:Hk2e, (cmp a k2) eqn:Hek2;
      simpl; rewrite ?H12, ?H21, ?Hk1e, ?Hek1, ?Hk2e, ?Hek2; simpl;
      rewrite ?H12, ?H21, ?Hk1e, ?Hek1, ?Hk2e, ?Hek2;
      try done; try order_contra; by rewrite IH.
Qed.

End Commute.

Section CommuteClaim.

Context {K V : Type} `{Inhabited K, Inhabited V}.
Variable cmp : K → K → bool.

(** X12.  Inserts of two keys that are not equivalent commute as far as the
    entries go.  On a tree built by a run of fewer than [2^31 - 1] inserts,
    under a comparator that is a strict order, the in-order sequence of
    entries after the insert of [(k1, v1)] and then
    [(k2, v2)] is the one after the insert of [(k2, v2)] and then
    [(k1, v1)]; the shapes of the two trees may differ. *)
Theorem inserts_of_different_keys_commute (kvs : list (K * V)) k1 v1 k2 v2 :
  StrictOrder cmp → Z.of_nat (length kvs) + 1 < 2 ^ size_bits →
  equivalent cmp k1 k2 = false →
  let t := insert_all cmp kvs in
  entries (insert cmp (insert cmp t k1 v1) k2 v2)
  = entries (insert cmp (insert cmp t k2 v2) k1 v1).
Proof.
  intros Hcmp Hlen Hne t.
  pose proof (reachable_insert_all cmp kvs) as Ht. fold t in Ht.
  pose proof (count_insert_all_le cmp kvs) as Hc. fold t in Hc.
  assert (size_ok t) as Hok.
  { apply wsized_size_ok; [apply Ht|lia]. }
  assert (ascending cmp (entries t)) as Hasc by by apply insert_all_ascending.
  assert (∀ k v, size_ok (insert cmp t k v) ∧
                 ascending cmp (entries (insert cmp t k v))) as Hstep.
  { intros k v. split.
    - apply wsized_size_ok; [by apply insert_wsized, Ht|].
      pose proof (count_insert_le cmp t k v (proj1 Ht)). lia.
    - unfold t. rewrite <- insert_all_snoc. by apply insert_all_ascending. }
  destruct (Hstep k1 v1) as [Hok1 Hasc1]. destruct (Hstep k2 v2) as [Hok2 Hasc2].
  rewrite !insert_entries.
  rewrite (InnerInsert_list_insert cmp Hcmp _ k2 v2 Hok1 Hasc1).
  rewrite (InnerInsert_list_insert cmp Hcmp _ k1 v1 Hok2 Hasc2).
  rewrite !insert_entries, !InnerInsert_list_insert by done.
  by apply list_insert_comm.
Qed.

End CommuteClaim.

(** ** The empty tree, and the accessors in the store *)

Section EmptyTrees.

Context {K V : Type} `{Inhabited K, Inhabited V}.
Variable cmp : K → K → bool.
Implicit Types n : LlrbNode K V.

Lemma insert_node n k v : insert cmp n k v ≠ EmptyNode.
Proof.
  unfold insert. destruct (red _); [done|apply InnerInsert_node].
Qed.

Lemma count_node_pos n : n ≠ EmptyNode → 1 ≤ count n.
Proof.
  destruct n as [|e c s l r]; [done|]. intros _. cbn [count].
  pose proof (count_nonneg l). pose proof (count_nonneg r). lia.
Qed.

(** X13.  When [empty()] holds of a tree built by inserts.  The tree
    returned by a run of inserts reports [empty()] exactly when it holds no
    entry or holds [2^31] of them; after fewer than [2^31] inserts it
    reports [empty()] exactly when there was no insert at all. *)
Theorem empty_after_inserts (kvs : list (K * V)) :
  let t := insert_all cmp kvs in
  (empty t = true ↔ count t = 0 ∨ count t = 2 ^ size_bits) ∧
  (Z.of_nat (length kvs) < 2 ^ size_bits → (empty t = true ↔ kvs = [])).
Proof.
  intros t.
  pose proof (insert_all_wsized cmp kvs) as (Hs & _ & _ & Hle). fold t in Hs, Hle.
  pose proof (count_nonneg t) as Hnn.
  assert (empty t = true ↔ count t = 0 ∨ count t = 2 ^ size_bits) as Hempty.
  { unfold empty. rewrite Z.eqb_eq, Hs. unfold wrap31. split.
    - intros Hz. destruct (decide (count t = 2 ^ size_bits)); [by right|left].
      rewrite Z.mod_small in Hz; lia.
    - intros [->| ->]; [done|]. apply Z_mod_same_full. }
  split; [done|]. intros Hlen. rewrite Hempty.
  pose proof (count_insert_all_le cmp kvs) as Hc. fold t in Hc.
  split.
  - intros [Hz|Hfull]; [|lia].
    destruct kvs as [|kv kvs _] using rev_ind; [done|]. exfalso.
    destruct kv as [k v]. unfold t in Hz. rewrite insert_all_snoc in Hz.
    pose proof (count_node_pos _ (insert_node (insert_all cmp kvs) k v)). lia.
  - intros ->. by left.
Qed.

End EmptyTrees.

Section Accessors.

Context {K V : Type} `{Inhabited K, Inhabited V}.

Implicit Types σ : Shared.store (K:=K) (V:=V).
Implicit Types D : gset positive.
Implicit Types n : LlrbNode K V.


End Accessors.

(** ** The private methods in the store *)

Section PrivateMethods.

Context {K V : Type} `{Inhabited K, Inhabited V}.

(** X15.  The private methods write to the receiver only.  Called on a node
    that no tree holds yet, each of [RotateLeft], [RotateRight],
    [FlipColor] and [FixUp] runs to its end, leaves in the receiver's [Rep]
    the node that the value embedding computes, with children that are
    trees of before or newly allocated [Rep]s, and changes no other [Rep]
    that was in the store: a child is never recolored or relinked in
    place. *)
Theorem private_methods_write_the_receiver_only :
  refines Shared.RotateLeft (RotateLeft (K:=K) (V:=V)) ∧
  refines Shared.RotateRight (RotateRight (K:=K) (V:=V)) ∧
  refines Shared.FlipColor (FlipColor (K:=K) (V:=V)) ∧
  refines Shared.FixUp (FixUp (K:=K) (V:=V)).
Proof.
  split_and!.
  - apply RotateLeft_refines.
  - apply RotateRight_refines.
  - apply FlipColor_refines.
  - apply FixUp_refines.
Qed.

End PrivateMethods.

(** ** How much an insert allocates *)

Section Allocations.

Context {K V : Type} `{Inhabited K, Inhabited V}.
Variable cmp : K → K → bool.

Implicit Types σ : Shared.store (K:=K) (V:=V).
Implicit Types p q a : positive.

Lemma allocates_ret {A} (x : A) :
  allocates 0 (mret x : Shared.M (K:=K) (V:=V) A).
Proof. intros σ y σ' He [= <- <-]. split; [done|lia]. Qed.

Lemma allocates_weaken {A} c c' (m : Shared.M (K:=K) (V:=V) A) :
  allocates c m → (c ≤ c')%nat → allocates c' m.
Proof.
  intros Hm Hc σ x σ' He Hrun. destruct (Hm σ x σ' He Hrun). split; [done|lia].
Qed.

Lemma allocates_bind {A B} c1 c2 (m : Shared.M (K:=K) (V:=V) A)
    (f : A → Shared.M (K:=K) (V:=V) B) :
  allocates c1 m → (∀ x, allocates c2 (f x)) → allocates (c1 + c2) (m ≫= f).
Proof.
  intros Hm Hf σ y σ' He Hrun. unfold mbind, Shared.M_bind in Hrun.
  destruct (m σ) as [[x σ1]|] eqn:E; [|done].
  destruct (Hm σ x σ1 He E) as [He1 Hc1].
  destruct (Hf x σ1 y σ' He1 Hrun) as [He2 Hc2]. split; [done|lia].
Qed.

Lemma allocates_if {A} c1 c2 (b : bool) (m1 m2 : Shared.M (K:=K) (V:=V) A) :
  allocates c1 m1 → allocates c2 m2 →
  allocates (Nat.max c1 c2) (if b then m1 else m2).
Proof.
  intros H1 H2. destruct b; eapply allocates_weaken; eauto; lia.
Qed.

Lemma allocates_fail_bind {A B} (f : A → Shared.M (K:=K) (V:=V) B) :
  allocates 0 ((λ _, None) ≫= f).
Proof. by intros σ y σ' He Hrun. Qed.

Lemma allocates_load p : allocates (K:=K) (V:=V) 0 (Shared.load p).
Proof.
  intros σ y σ' He Hrun. unfold Shared.load in Hrun.
  destruct (Shared.reps σ !! p); [|done]. injection Hrun as <- <-.
  split; [done|lia].
Qed.

Lemma allocates_modify p f : allocates (K:=K) (V:=V) 0 (Shared.modify p f).
Proof.
  intros σ y σ' He Hrun. unfold Shared.modify in Hrun.
  destruct (Shared.reps σ !! p) eqn:E; [|done]. injection Hrun as <- <-.
  split; [done|]. simpl. rewrite dom_insert_L.
  rewrite subseteq_union_1_L; [lia|].
  apply singleton_subseteq_l. by apply elem_of_dom_2 in E.
Qed.

Lemma allocates_make_shared (r : Shared.Rep (K:=K) (V:=V)) :
  allocates 1 (Shared.make_shared r).
Proof.
  intros σ y σ' He [= <- <-]. split; [done|]. simpl.
  rewrite dom_insert_L, size_union, size_singleton; [lia|].
  apply disjoint_singleton_l, is_fresh.
Qed.

Lemma allocates_EmptyRep : allocates 0 (Shared.EmptyRep (K:=K) (V:=V)).
Proof.
  intros σ y σ' [e He] Hrun. unfold Shared.EmptyRep in Hrun.
  rewrite He in Hrun. injection Hrun as <- <-. split; [by exists e|lia].
Qed.

Create HintDb allocs.

#[local] Hint Resolve allocates_load allocates_modify allocates_make_shared
  allocates_EmptyRep : allocs.

Ltac allocs :=
  repeat match goal with
  | |- allocates _ (_ ≫= _) => eapply allocates_bind; [|intros ?]
  | |- allocates _ (mret _) => apply allocates_ret
  | |- allocates _ (if _ then _ else _) => eapply allocates_if
  | |- allocates _ _ => solve [eauto 2 with allocs nocore]
  end.

Ltac allocs_up_to :=
  eapply allocates_weaken; [allocs|simpl; lia].

Lemma allocates_size p : allocates (K:=K) (V:=V) 0 (Shared.size p).
Proof. unfold Shared.size. allocs_up_to. Qed.

Lemma allocates_color p : allocates (K:=K) (V:=V) 0 (Shared.color p).
Proof. unfold Shared.color. allocs_up_to. Qed.

Lemma allocates_entry p : allocates (K:=K) (V:=V) 0 (Shared.entry p).
Proof. unfold Shared.entry. allocs_up_to. Qed.

Lemma allocates_left p : allocates (K:=K) (V:=V) 0 (Shared.left p).
Proof. unfold Shared.left. allocs_up_to. Qed.

Lemma allocates_right p : allocates (K:=K) (V:=V) 0 (Shared.right p).
Proof. unfold Shared.right. allocs_up_to. Qed.

#[local] Hint Resolve allocates_size allocates_color allocates_entry
  allocates_left allocates_right : allocs.

Lemma allocates_empty p : allocates (K:=K) (V:=V) 0 (Shared.empty p).
Proof. unfold Shared.empty. allocs_up_to. Qed.

Lemma allocates_red p : allocates (K:=K) (V:=V) 0 (Shared.red p).
Proof. unfold Shared.red. allocs_up_to. Qed.

Lemma allocates_key p : allocates (K:=K) (V:=V) 0 (Shared.key p).
Proof. unfold Shared.key. allocs_up_to. Qed.

Lemma allocates_OppositeColor p :
  allocates (K:=K) (V:=V) 0 (Shared.OppositeColor p).
Proof. unfold Shared.OppositeColor. allocs_up_to. Qed.

Lemma allocates_new_Rep4 (e : K * V) c l r :
  allocates 1 (Shared.new_Rep4 e c l r).
Proof. unfold Shared.new_Rep4. allocs_up_to. Qed.

Lemma allocates_Clone p : allocates (K:=K) (V:=V) 1 (Shared.Clone p).
Proof. unfold Shared.Clone. allocs_up_to. Qed.

Lemma allocates_set_size p s : allocates (K:=K) (V:=V) 0 (Shared.set_size p s).
Proof. apply allocates_modify. Qed.

Lemma allocates_set_entry p (e : K * V) : allocates 0 (Shared.set_entry p e).
Proof. apply allocates_modify. Qed.

Lemma allocates_set_value p (v : V) :
  allocates (K:=K) 0 (Shared.set_value p v).
Proof. apply allocates_modify. Qed.

Lemma allocates_set_color p c :
  allocates (K:=K) (V:=V) 0 (Shared.set_color p c).
Proof. apply allocates_modify. Qed.

Lemma allocates_set_left p l : allocates (K:=K) (V:=V) 0 (Shared.set_left p l).
Proof. apply allocates_modify. Qed.

Lemma allocates_set_right p r :
  allocates (K:=K) (V:=V) 0 (Shared.set_right p r).
Proof. apply allocates_modify. Qed.

#[local] Hint Resolve allocates_empty allocates_red allocates_key
  allocates_OppositeColor allocates_new_Rep4 allocates_Clone
  allocates_set_size allocates_set_entry allocates_set_value
  allocates_set_color allocates_set_left allocates_set_right : allocs.

(** One [Rep] for each rotation, two for a color flip, and so at most four
    for a [FixUp]. *)
Lemma allocates_RotateLeft p : allocates (K:=K) (V:=V) 1 (Shared.RotateLeft p).
Proof. unfold Shared.RotateLeft. allocs_up_to. Qed.

Lemma allocates_RotateRight p :
  allocates (K:=K) (V:=V) 1 (Shared.RotateRight p).
Proof. unfold Shared.RotateRight. allocs_up_to. Qed.

Lemma allocates_FlipColor p : allocates (K:=K) (V:=V) 2 (Shared.FlipColor p).
Proof. unfold Shared.FlipColor. allocs_up_to. Qed.

#[local] Hint Resolve allocates_RotateLeft allocates_RotateRight
  allocates_FlipColor : allocs.

Lemma allocates_FixUp p : allocates (K:=K) (V:=V) 4 (Shared.FixUp p).
Proof. unfold Shared.FixUp. allocs_up_to. Qed.

#[local] Hint Resolve allocates_FixUp : allocs.

(** One step of the recursion of [InnerInsert]. *)
Lemma InnerInsert_S fuel p (k : K) (v : V) :
  Shared.InnerInsert cmp (S fuel) p k v =
      (is_empty ← Shared.empty p;
       if (is_empty : bool) then
         l ← Shared.LlrbNode_default; r ← Shared.LlrbNode_default;
         Shared.new_Rep4 (k, v) Red l r
       else
         result ← Shared.Clone p;
         this_key ← Shared.key p;
         if cmp k this_key then
           l ← Shared.left result; l' ← Shared.InnerInsert cmp fuel l k v;
           Shared.set_left result l';; Shared.FixUp result;; mret result
         else if cmp this_key k then
           r ← Shared.right result; r' ← Shared.InnerInsert cmp fuel r k v;
           Shared.set_right result r';; Shared.FixUp result;; mret result
         else Shared.set_value result v;; mret result).
Proof. done. Qed.

(** [InnerInsert] allocates one [Rep] for the leaf or the clone it ends
    at, and at most five for each node it passes on the way down. *)
Lemma allocates_InnerInsert fuel p (k : K) (v : V) :
  allocates (5 * fuel + 1) (Shared.InnerInsert cmp (S fuel) p k v).
Proof.
  revert p. induction fuel as [|fuel IH]; intros p.
  - cbn [Shared.InnerInsert]. unfold Shared.LlrbNode_default.
    eapply allocates_weaken.
    + repeat match goal with
      | |- allocates _ ((λ _, None) ≫= _) => apply allocates_fail_bind
      | |- allocates _ (_ ≫= _) => eapply allocates_bind; [|intros ?]
      | |- allocates _ (mret _) => apply allocates_ret
      | |- allocates _ (if _ then _ else _) => eapply allocates_if
      | |- allocates _ _ => solve [eauto 2 with allocs nocore]
      end.
    + simpl. lia.
  - rewrite (InnerInsert_S (S fuel)).
    unfold Shared.LlrbNode_default.
    eapply allocates_weaken.
    + repeat match goal with
      | |- allocates _ (_ ≫= _) => eapply allocates_bind; [|intros ?]
      | |- allocates _ (mret _) => apply allocates_ret
      | |- allocates _ (if _ then _ else _) => eapply allocates_if
      | |- allocates _ (Shared.InnerInsert _ _ _ _ _) => apply IH
      | |- allocates _ _ => solve [eauto 2 with allocs nocore]
      end.
    + simpl. lia.
Qed.

Lemma allocates_insert fuel p (k : K) (v : V) :
  allocates (5 * fuel + 1) (Shared.insert cmp (S fuel) p k v).
Proof.
  unfold Shared.insert. pose proof allocates_InnerInsert as Hi.
  eapply allocates_weaken.
  - repeat match goal with
    | |- allocates _ (Shared.InnerInsert _ _ _ _ _ ≫= _) =>
        eapply allocates_bind; [apply Hi|intros ?]
    | |- allocates _ (_ ≫= _) => eapply allocates_bind; [|intros ?]
    | |- allocates _ (mret _) => apply allocates_ret
    | |- allocates _ (if _ then _ else _) => eapply allocates_if
    | |- allocates _ _ => solve [eauto 2 with allocs nocore]
    end.
  - simpl. lia.
Qed.

End Allocations.

Section Fuel.

Context {K V : Type} `{Inhabited K, Inhabited V}.
Variable cmp : K → K → bool.

Implicit Types σ : Shared.store (K:=K) (V:=V).
Implicit Types p q a : positive.

Lemma extends_refl {A} (m : Shared.M (K:=K) (V:=V) A) : extends m m.
Proof. by intros σ r. Qed.

Lemma extends_fail {A} (m : Shared.M (K:=K) (V:=V) A) :
  extends (λ _, None) m.
Proof. by intros σ r. Qed.

Lemma extends_bind {A B} (m m' : Shared.M (K:=K) (V:=V) A)
    (f f' : A → Shared.M (K:=K) (V:=V) B) :
  extends m m' → (∀ x, extends (f x) (f' x)) → extends (m ≫= f) (m' ≫= f').
Proof.
  intros Hm Hf σ r Hrun. unfold mbind, Shared.M_bind in *.
  destruct (m σ) as [[x σ1]|] eqn:E; [|done].
  rewrite (Hm _ _ E). by apply Hf.
Qed.

Lemma extends_if {A} (b : bool) (m1 m1' m2 m2' : Shared.M (K:=K) (V:=V) A) :
  extends m1 m1' → extends m2 m2' →
  extends (if b then m1 else m2) (if b then m1' else m2').
Proof. by destruct b. Qed.

(** More fuel does not change what [InnerInsert] returns. *)
Lemma InnerInsert_fuel_S fuel p (k : K) (v : V) :
  extends (Shared.InnerInsert cmp fuel p k v)
          (Shared.InnerInsert cmp (S fuel) p k v).
Proof.
  revert p. induction fuel as [|fuel IH]; intros p; [apply extends_fail|].
  rewrite (InnerInsert_S cmp (S fuel)), (InnerInsert_S cmp fuel).
  repeat match goal with
  | |- extends (Shared.InnerInsert _ _ _ _ _) _ => apply IH
  | |- extends (_ ≫= _) (_ ≫= _) => apply extends_bind; [|intros ?]
  | |- extends (if _ then _ else _) _ => apply extends_if
  | |- extends _ _ => apply extends_refl
  end.
Qed.

Lemma InnerInsert_fuel_le fuel fuel' p (k : K) (v : V) :
  (fuel ≤ fuel')%nat →
  extends (Shared.InnerInsert cmp fuel p k v)
          (Shared.InnerInsert cmp fuel' p k v).
Proof.
  induction 1 as [|fuel' _ IH]; [apply extends_refl|].
  intros σ r Hrun. by apply InnerInsert_fuel_S, IH.
Qed.

Lemma insert_fuel_le fuel fuel' p (k : K) (v : V) :
  (fuel ≤ fuel')%nat →
  extends (Shared.insert cmp fuel p k v) (Shared.insert cmp fuel' p k v).
Proof.
  intros Hle. unfold Shared.insert.
  apply extends_bind; [by apply InnerInsert_fuel_le|].
  intros root. apply extends_refl.
Qed.

End Fuel.

Section AllocationClaim.

Context {K V : Type} `{Inhabited K, Inhabited V}.
Variable cmp : K → K → bool.

Implicit Types σ : Shared.store (K:=K) (V:=V).
Implicit Types n : LlrbNode K V.

(** X16.  An insert copies one path and nothing else.  On a store that
    holds a tree at a node, [insert] allocates at least one [Rep], the one
    of the node it returns, and at most [5 h + 1] of them, [h] being the
    length of the longest path of the tree: one for the leaf or the clone
    at the end of the descent, and for each node passed on the way one
    clone and at most four [Rep]s of [FixUp]'s rotations and color
    flip. *)
Theorem insert_allocates_along_one_path fuel σ a n k v :
  store_ok σ → repr (dom (Shared.reps σ)) σ a n → (height n < fuel)%nat →
  ∃ root σ',
    Shared.insert cmp fuel a k v σ = Some (root, σ') ∧
    (base.size (dom (Shared.reps σ)) < base.size (dom (Shared.reps σ')))%nat ∧
    (base.size (dom (Shared.reps σ'))
     ≤ base.size (dom (Shared.reps σ)) + 5 * height n + 1)%nat.
Proof.
  intros Hok Ha Hfuel.
  destruct (insert_refines cmp (S (height n)) n _ σ a k v
              ltac:(lia) Hok (reflexivity _) Ha)
    as (root & σ' & Hrun & Hu & Hroot & Hok' & Hnew).
  exists root, σ'. split_and!.
  - apply (insert_fuel_le cmp (S (height n)) fuel); [lia|done].
  - apply subset_size. split; [by apply unchanged_dom|].
    intros Hsub. apply Hroot, Hsub.
    destruct (repr_root _ _ _ _ Hok' Hnew) as (al & ar & Hlook & _).
    apply elem_of_dom. eauto.
  - destruct Hok as (e & He & _).
    destruct (allocates_insert cmp (height n) a k v σ root σ') as [_ Hc];
      [by exists e|done|lia].
Qed.

End AllocationClaim.

(** ** The scenarios, run *)

Lemma Z_ltb_strict_order : StrictOrder Z.ltb.
Proof. apply strict_total_order_weak, Z_ltb_total_order. Qed.

Lemma scenario_A_value :
  scenario_A =
  Node (5, "e"%string) Black 7
    (Node (3, "c"%string) Black 3
       (Node (1, "a"%string) Black 1 EmptyNode EmptyNode)
       (Node (4, "d"%string) Black 1 EmptyNode EmptyNode))
    (Node (8, "h"%string) Black 3
       (Node (7, "g"%string) Black 1 EmptyNode EmptyNode)
       (Node (9, "i"%string) Black 1 EmptyNode EmptyNode)).
Proof. reflexivity. Qed.

(** Scenario A: the tree after the seven inserts satisfies the five
    invariants, and is the sequence 1, 3, 4, 5, 7, 8, 9 of size 7 under a
    Black root. *)
Lemma insert_all_invariants_witness :
  red_black_invariants scenario_A ∧
  inorder scenario_A
  = [(1, "a"); (3, "c"); (4, "d"); (5, "e"); (7, "g"); (8, "h"); (9, "i")]%string ∧
  size scenario_A = 7 ∧ color scenario_A = Black.
Proof.
  split; [|by split_and!].
  apply (insert_all_invariants Z.ltb scenario_A_inserts).
  right. reflexivity.
Defined.

(** Scenario A is in ascending order. *)
Lemma insert_all_inorder_ascending_witness :
  (ascending Z.ltb (inorder scenario_A) ∧ NoDup (inorder scenario_A).*1) ∧
  (ascending Z.ltb (entries scenario_A) ∧ NoDup (entries scenario_A).*1).
Proof.
  apply (insert_all_inorder_ascending Z.ltb scenario_A_inserts).
  split; intros; lia.
Defined.

(** The run of scenario A in the store succeeds. *)
Lemma scenario_A_run_value :
  scenario_A_run = Some (scenario_A_root, scenario_A_store).
Proof. vm_compute. reflexivity. Qed.

(** Builds a [repr] of a closed tree in a closed store by evaluation. *)
Ltac build_repr :=
  repeat first
    [ apply repr_empty; vm_compute; reflexivity
    | eapply repr_node;
      [ vm_compute; discriminate
      | apply elem_of_dom; eexists; vm_compute; reflexivity
      | vm_compute; reflexivity
      | | ] ].

(** The store of scenario A holds the tree of scenario A at its root. *)
Lemma scenario_A_repr :
  store_ok scenario_A_store ∧
  repr (dom (Shared.reps scenario_A_store)) scenario_A_store scenario_A_root
       scenario_A.
Proof.
  split.
  - exists 1%positive. split; vm_compute; reflexivity.
  - rewrite scenario_A_value. build_repr.
Qed.

(** Scenario C: the insert of key 6 into the tree of scenario A, in the
    store. *)
Lemma insert_leaves_old_tree_unchanged_witness :
  ∃ root σ',
    Shared.insert Z.ltb 8 scenario_A_root 6 "x"%string scenario_A_store
      = Some (root, σ') ∧
    (∀ p r, Shared.reps scenario_A_store !! p = Some r →
            Shared.reps σ' !! p = Some r) ∧
    Shared.empty_rep σ' = Shared.empty_rep scenario_A_store ∧
    repr (dom (Shared.reps scenario_A_store)) σ' scenario_A_root scenario_A ∧
    (Shared.size scenario_A_root scenario_A_store
       = Some (size scenario_A, scenario_A_store) ∧
     Shared.size scenario_A_root σ' = Some (size scenario_A, σ')) ∧
    (Shared.inorder 8 scenario_A_root scenario_A_store
       = Some (inorder scenario_A, scenario_A_store) ∧
     Shared.inorder 8 scenario_A_root σ' = Some (inorder scenario_A, σ')) ∧
    (root ∉ dom (Shared.reps scenario_A_store)) ∧
    repr (dom (Shared.reps σ')) σ' root (insert Z.ltb scenario_A 6 "x"%string).
Proof.
  apply (insert_leaves_old_tree_unchanged Z.ltb 8 scenario_A_store
           scenario_A_root scenario_A 6 "x"%string).
  - exists 1%positive. split; vm_compute; reflexivity.
  - rewrite scenario_A_value. build_repr.
  - vm_compute. lia.
Defined.

(** The insert of the stored key 4 with a new value into the tree of
    scenario A. *)
Lemma insert_existing_key_witness :
  size (insert Z.ltb scenario_A 4 "D"%string) = size scenario_A ∧
  skeleton (insert Z.ltb scenario_A 4 "D"%string) = skeleton scenario_A ∧
  (∃ es1 e0 es2,
     entries scenario_A = es1 ++ e0 :: es2 ∧
     equivalent Z.ltb 4 e0.1 = true ∧
     entries (insert Z.ltb scenario_A 4 "D"%string)
       = es1 ++ (e0.1, "D"%string) :: es2) ∧
  inorder (insert Z.ltb scenario_A 4 "D"%string)
    = entries (insert Z.ltb scenario_A 4 "D"%string).
Proof.
  apply (insert_existing_key (V:=string) Z.ltb ltac:(split; intros; lia)
           scenario_A 4 "D"%string).
  - reflexivity.
  - vm_compute. repeat split; reflexivity.
  - vm_compute. repeat split; reflexivity.
  - vm_compute. repeat split; reflexivity.
  - reflexivity.
  - vm_compute. repeat (constructor; try reflexivity).
  - exists (4, "d"%string). split; [|reflexivity].
    apply (list_elem_of_lookup_2 _ 2%nat). reflexivity.
Defined.

(** The insert of the new key 6 into the tree of scenario A. *)
Lemma insert_new_key_witness :
  size (insert Z.ltb scenario_A 6 "x"%string) = size scenario_A + 1 ∧
  (∃ es1 es2,
     entries scenario_A = es1 ++ es2 ∧
     entries (insert Z.ltb scenario_A 6 "x"%string)
       = es1 ++ (6, "x"%string) :: es2) ∧
  entries (insert Z.ltb scenario_A 6 "x"%string)
    ≡ₚ (6, "x"%string) :: entries scenario_A ∧
  inorder (insert Z.ltb scenario_A 6 "x"%string)
    = entries (insert Z.ltb scenario_A 6 "x"%string).
Proof.
  apply (insert_new_key Z.ltb scenario_A 6 "x"%string).
  - vm_compute. repeat split; reflexivity.
  - reflexivity.
  - vm_compute. repeat (constructor; try reflexivity).
Defined.

(** The two rotations on a pair of nodes: each undoes the other. *)
Lemma rotations_structure_witness :
  inorder (RotateLeft leaning_right) = inorder leaning_right ∧
  inorder (RotateRight leaning_left) = inorder leaning_left ∧
  RotateLeft leaning_right = leaning_left ∧
  RotateRight leaning_left = leaning_right.
Proof.
  destruct (rotations_structure (1, "a"%string) Black 2 EmptyNode EmptyNode
              (2, "b"%string) Red 1 EmptyNode EmptyNode)
    as (_ & _ & _ & _ & HL & _).
  destruct (rotations_structure (2, "b"%string) Black 2 EmptyNode EmptyNode
              (1, "a"%string) Red 1 EmptyNode EmptyNode)
    as (_ & _ & _ & _ & _ & HR).
  split_and!; [apply HL|apply HR|reflexivity..].
  - unfold wsized. vm_compute. repeat split; discriminate.
  - reflexivity.
  - unfold wsized. vm_compute. repeat split; discriminate.
  - reflexivity.
Defined.

(** The calls made by inserts into the tree of scenario A: of key 6, which
    sorts after the root's key; of the root's key 5; of key 10, at the far
    right. *)
Lemma FixUp_applied_after_descent_witness :
  (InnerInsert Z.ltb scenario_A 6 "x"%string
     = FixUp (set_right (Clone scenario_A)
                (InnerInsert Z.ltb (right scenario_A) 6 "x"%string)) ∧
   (InnerInsert_log Z.ltb scenario_A 6 "x"%string).2
     = (InnerInsert_log Z.ltb (right scenario_A) 6 "x"%string).2
       ++ (FixUp_log (set_right (Clone scenario_A)
                        (InnerInsert Z.ltb (right scenario_A) 6 "x"%string))).2) ∧
  InnerInsert_log Z.ltb scenario_A 5 "E"%string
    = (set_value (Clone scenario_A) "E"%string, []) ∧
  (InnerInsert_log Z.ltb scenario_A 10 "j"%string).2
    = [CallFixUp; CallRotateLeft; CallFixUp; CallFixUp].
Proof.
  destruct (FixUp_applied_after_descent Z.ltb scenario_A 6 "x"%string)
    as (_ & _ & _ & Hafter & _).
  destruct (FixUp_applied_after_descent Z.ltb scenario_A 5 "E"%string)
    as (_ & _ & _ & _ & Hequal & _).
  split; [|split].
  - apply Hafter; reflexivity.
  - apply Hequal; reflexivity.
  - reflexivity.
Defined.

(** The first call of [EmptyRep()] succeeds. *)
Lemma first_EmptyRep_value :
  first_EmptyRep = Some (empty_node_addr, empty_node_store).
Proof. reflexivity. Qed.

(** The insert of key 5 into the empty node, as a value and in the store. *)
Lemma insert_into_empty_and_root_color_witness :
  InnerInsert Z.ltb EmptyNode 5 "e"%string
    = Node (5, "e"%string) Red 1 EmptyNode EmptyNode ∧
  ∃ leaf σ',
    Shared.InnerInsert Z.ltb 1 empty_node_addr 5 "e"%string empty_node_store
      = Some (leaf, σ') ∧
    (leaf ∉ dom (Shared.reps empty_node_store)) ∧
    Shared.reps σ' !! leaf
      = Some (Shared.mkRep (5, "e"%string) Red 1 empty_node_addr empty_node_addr) ∧
    ∀ p r, Shared.reps empty_node_store !! p = Some r →
           Shared.reps σ' !! p = Some r.
Proof.
  destruct (insert_into_empty_and_root_color Z.ltb EmptyNode 5 "e"%string)
    as ([_ Hvalue] & Hstore & _).
  split.
  - apply Hvalue. reflexivity.
  - apply Hstore.
    + exists empty_node_addr. split; reflexivity.
    + reflexivity.
Defined.

(** The empty node of the store in which [EmptyRep()] ran once. *)
Lemma empty_node_is_one_shared_sentinel_witness :
  (∃ e σ',
     Shared.EmptyRep (initial (K:=Z) (V:=string)) = Some (e, σ') ∧
     (e ∉ dom (Shared.reps (initial (K:=Z) (V:=string)))) ∧
     Shared.empty_rep σ' = Some e ∧ store_ok σ') ∧
  Shared.EmptyRep empty_node_store = Some (empty_node_addr, empty_node_store) ∧
  Shared.LlrbNode_default empty_node_store
    = Some (empty_node_addr, empty_node_store) ∧
  Shared.left empty_node_addr empty_node_store
    = Some (empty_node_addr, empty_node_store) ∧
  Shared.right empty_node_addr empty_node_store
    = Some (empty_node_addr, empty_node_store) ∧
  descend [false; true; true; false] empty_node_addr empty_node_store
    = Some (empty_node_addr, empty_node_store).
Proof.
  destruct (empty_node_is_one_shared_sentinel (K:=Z) (V:=string) Z.ltb)
    as (Hfirst & Hlater & _).
  split.
  - destruct (Hfirst initial) as (e & σ' & H1 & H2 & H3 & H4 & _);
      [reflexivity|].
    by exists e, σ'.
  - destruct (Hlater empty_node_store empty_node_addr)
      as (H1 & H2 & _ & _ & _ & _ & H3 & H4 & H5 & _).
    + exists empty_node_addr. split; reflexivity.
    + reflexivity.
    + split_and!; [done..|]. apply H5.
Defined.

(** ** The further properties, on scenario A *)

(** The insert of the new key 6 into the tree of scenario A puts its entry
    between two of the old ones. *)
Lemma insert_keeps_entries_in_place_witness :
  (∃ es1 es2, entries scenario_A = es1 ++ es2 ∧
     entries (insert Z.ltb scenario_A 6 "x"%string)
       = es1 ++ (6, "x"%string) :: es2) ∨
  (∃ es1 e0 es2, entries scenario_A = es1 ++ e0 :: es2 ∧
     equivalent Z.ltb 6 e0.1 = true ∧
     entries (insert Z.ltb scenario_A 6 "x"%string)
       = es1 ++ (e0.1, "x"%string) :: es2).
Proof.
  apply (insert_keeps_entries_in_place Z.ltb scenario_A 6 "x"%string).
  vm_compute. repeat split; reflexivity.
Defined.

(** The same insert, as an insert into the sorted list of entries. *)
Lemma insert_is_sorted_list_insert_witness :
  entries (insert Z.ltb scenario_A 6 "x"%string)
  = list_insert Z.ltb 6 "x"%string (entries scenario_A).
Proof.
  apply (insert_is_sorted_list_insert Z.ltb scenario_A 6 "x"%string).
  - split; intros; lia.
  - vm_compute. repeat split; reflexivity.
  - vm_compute. repeat (constructor; try reflexivity).
Defined.

(** The tree of scenario A holds the map with its seven bindings. *)
Lemma insert_all_is_the_finite_map_witness :
  (∀ k v, (k, v) ∈ entries scenario_A ↔
          (foldl (λ (m : gmap Z string) kv, <[kv.1 := kv.2]> m) ∅
             scenario_A_inserts) !! k = Some v) ∧
  NoDup (entries scenario_A).*1 ∧
  size scenario_A
  = Z.of_nat (base.size (foldl (λ (m : gmap Z string) kv, <[kv.1 := kv.2]> m) ∅
                           scenario_A_inserts)).
Proof.
  apply (insert_all_is_the_finite_map Z.ltb scenario_A_inserts).
  - split; intros; lia.
  - reflexivity.
Defined.

(** Key 6 inserted twice into the tree of scenario A. *)
Lemma insert_twice_is_last_insert_witness :
  insert Z.ltb (insert Z.ltb scenario_A 6 "x"%string) 6 "y"%string
    = insert Z.ltb scenario_A 6 "y"%string ∧
  insert Z.ltb (insert Z.ltb scenario_A 6 "y"%string) 6 "y"%string
    = insert Z.ltb scenario_A 6 "y"%string.
Proof.
  apply (insert_twice_is_last_insert Z.ltb scenario_A_inserts
           6 "x"%string "y"%string).
  - split; intros; lia.
  - reflexivity.
Defined.

(** The insert of key 6 into the tree of scenario A, of height 3, in the
    store: at least one and at most sixteen new [Rep]s. *)
Lemma insert_allocates_along_one_path_witness :
  ∃ root σ',
    Shared.insert Z.ltb 8 scenario_A_root 6 "x"%string scenario_A_store
      = Some (root, σ') ∧
    (base.size (dom (Shared.reps scenario_A_store))
     < base.size (dom (Shared.reps σ')))%nat ∧
    (base.size (dom (Shared.reps σ'))
     ≤ base.size (dom (Shared.reps scenario_A_store))
       + 5 * height scenario_A + 1)%nat.
Proof.
  apply (insert_allocates_along_one_path Z.ltb 8 scenario_A_store
           scenario_A_root scenario_A 6 "x"%string).
  - exists 1%positive. split; vm_compute; reflexivity.
  - rewrite scenario_A_value. build_repr.
  - vm_compute. lia.
Defined.


(** Keys 6 and 2 inserted into the tree of scenario A in either order. *)
Lemma inserts_of_different_keys_commute_witness :
  entries (insert Z.ltb (insert Z.ltb scenario_A 6 "x"%string) 2 "y"%string)
  = entries (insert Z.ltb (insert Z.ltb scenario_A 2 "y"%string) 6 "x"%string).
Proof.
  apply (inserts_of_different_keys_commute Z.ltb scenario_A_inserts
           6 "x"%string 2 "y"%string).
  - split; intros; lia.
  - reflexivity.
  - reflexivity.
Defined.

(** [FixUp] on the node with a Red right child: one rotation, after which a
    second [FixUp] has nothing to do. *)
Lemma FixUp_leaves_nothing_to_fix_witness :
  (red (right (FixUp leaning_right)) = false ∧
   (red (left (FixUp leaning_right)) = true →
    red (left (left (FixUp leaning_right))) = false)) ∧
  size (FixUp leaning_right)
    = wrap31 (size (left (FixUp leaning_right)) + 1
              + size (right (FixUp leaning_right))) ∧
  FixUp (FixUp leaning_right) = FixUp leaning_right.
Proof.
  destruct (FixUp_leaves_nothing_to_fix leaning_right) as [Hc Hs].
  split; [split; apply Hc|]. apply Hs.
  - exact I.
  - vm_compute. repeat split; reflexivity.
  - vm_compute. discriminate.
Defined.

(** The insert of key 6 into the tree of scenario A and into the same tree
    with another value at key 4. *)
Lemma insert_shape_ignores_values_witness :
  skeleton (insert Z.ltb scenario_A 6 "x"%string)
  = skeleton (insert Z.ltb (insert Z.ltb scenario_A 4 "D"%string) 6 "y"%string).
Proof.
  apply (insert_shape_ignores_values Z.ltb scenario_A
           (insert Z.ltb scenario_A 4 "D"%string) 6 "x"%string "y"%string).
  reflexivity.
Defined.

(** The tree of scenario A, after seven inserts, does not report
    [empty()]. *)
Lemma empty_after_inserts_witness :
  empty scenario_A = true ↔ scenario_A_inserts = [].
Proof.
  apply (empty_after_inserts Z.ltb scenario_A_inserts). reflexivity.
Defined.

(** [FixUp] in the store on the node with a Red right child. *)
Lemma private_methods_write_the_receiver_only_witness :
  step_ok {[2%positive]} leaning_right_store 3%positive
    (Shared.FixUp 3%positive leaning_right_store) (FixUp leaning_right).
Proof.
  apply (private_methods_write_the_receiver_only (K:=Z) (V:=string)).
  split_and!.
  - exists 1%positive. split; vm_compute; reflexivity.
  - intros x ->%elem_of_singleton. apply elem_of_dom. eexists.
    vm_compute. reflexivity.
  - vm_compute. discriminate.
  - intros [=]%elem_of_singleton.
  - discriminate.
  - exists 1%positive, 2%positive. split_and!.
    + vm_compute. reflexivity.
    + apply repr_empty. reflexivity.
    + eapply repr_node.
      * vm_compute. discriminate.
      * by apply elem_of_singleton.
      * vm_compute. reflexivity.
      * apply repr_empty. reflexivity.
      * apply repr_empty. reflexivity.
Defined.
